(** * LandGoals: Helper.py and SelectTop.py

    A shallow embedding of the two scripts of the repository.  The scripts
    are Python 2.7 code that drives the geoprocessing engine through
    [arcpy]; every statement of a script is either a call into the engine,
    a message written to a console, or a little control flow around those
    calls.  The embedding therefore has three layers:

    - [Python]: the effects of the interpreter that the scripts rely on
      (exceptions, [try]/[except], [for] and [while] loops), as a state and
      exception monad over the state of the engine;
    - [Arcpy]: the engine as the scripts see it: a workspace of datasets
      addressed by path, a log of the tool calls made so far, the message
      queues, and the tools themselves.  Any tool call may fail; which ones
      do is decided by a fault plan carried in the state, so that a
      statement about a script holds for every pattern of failures;
    - [Helper] and [SelectTop]: the functions of the two source files,
      statement by statement. *)

From Stdlib Require Import ZArith QArith Qpower Lia.
From stdpp Require Import base tactics option list gmap strings pretty sorting.

Local Open Scope Z_scope.

(** ** Python: exceptions and control flow *)

Module Python.

(** A raised exception: the name of its class and [str] of its value. *)
Record Exn : Type := mkExn { exn_class : string; exn_text : string }.

#[global] Instance Exn_eq_dec : EqDecision Exn.
Proof. solve_decision. Defined.

(** How the execution of a block ends.  [Diverges] is a loop that has not
    ended within the fuel it was given. *)
Inductive Outcome (A : Type) : Type :=
| Returns (a : A)
| Raises (e : Exn)
| Diverges.
Arguments Returns {A} a.
Arguments Raises {A} e.
Arguments Diverges {A}.

Section Monad.
Context {W : Type}.

(** A block of statements run from a state [W]: it ends in some way and
    leaves a state, also when it raises. *)
Definition Py (A : Type) : Type := W → Outcome A * W.

Definition ret {A} (a : A) : Py A := λ w, (Returns a, w).

Definition bind {A B} (m : Py A) (k : A → Py B) : Py B := λ w,
  match m w with
  | (Returns a, w') => k a w'
  | (Raises e, w') => (Raises e, w')
  | (Diverges, w') => (Diverges, w')
  end.

Definition raise {A} (e : Exn) : Py A := λ w, (Raises e, w).

(** [try: body / except: handler].  A bare [except] catches every
    exception; the handler runs in the state the body left. *)
Definition try_except {A} (body : Py A) (handler : Exn → Py A) : Py A := λ w,
  match body w with
  | (Raises e, w') => handler e w'
  | r => r
  end.

(** [for x in xs: s = body(x, s)], where [s] stands for the variables
    the loop assigns. *)
Fixpoint for_ {A S} (xs : list A) (body : A → S → Py S) (s : S) : Py S :=
  match xs with
  | [] => ret s
  | x :: xs' => bind (body x s) (for_ xs' body)
  end.

(** [while cond(s): s = body(s)], where [s] stands for the variables the
    loop assigns. *)
Fixpoint while_ {S} (fuel : nat) (cond : S → bool) (body : S → Py S) (s : S) : Py S :=
  if cond s then
    match fuel with
    | O => λ w, (Diverges, w)
    | Datatypes.S fuel' => bind (body s) (while_ fuel' cond body)
    end
  else ret s.
End Monad.

Arguments Py : clear implicits.

#[global] Instance Py_ret {W} : MRet (Py W) := λ A, @ret W A.
#[global] Instance Py_bind {W} : MBind (Py W) := λ A B k m, @bind W A B m k.

(** The line feed, [chr(10)]. *)
Definition newline : string := String (Ascii.ascii_of_nat 10) EmptyString.

(** [str(n)] of an integer. *)
Definition str (n : Z) : string := pretty n.

(** A traceback object: the entry of one frame, already formatted, and the
    traceback of the frame it called ([tb_next]). *)
Inductive traceback : Type :=
| TbLast (tb_entry : string)
| TbNext (tb_entry : string) (tb_next : traceback).

(** [traceback.format_tb(tb)]: one string per frame, outermost first;
    [tb] is [None] when no exception is being handled. *)
Fixpoint format_entries (tb : traceback) : list string :=
  match tb with
  | TbLast entry => [entry]
  | TbNext entry tb' => entry :: format_entries tb'
  end.
Definition format_tb (tb : option traceback) : list string :=
  match tb with Some tb => format_entries tb | None => [] end.

(** [str(sys.exc_info()[1])]. *)
Definition str_value (value : option Exn) : string :=
  match value with Some e => exn_text e | None => "None" end.

End Python.

Import Python.

(** ** Python: built-in functions and string methods *)

Module Builtin.
Import Stdlib.Strings.Ascii.

(** [sorted(xs)] on values that [le] orders. *)
Definition sorted {A} (le : relation A) `{!RelDecision le} (xs : list A) : list A :=
  merge_sort le xs.

(** [s.split(sep)] for a separator of one character: the pieces between
    the separators, empty pieces included; there is always one piece. *)
Fixpoint split (sep : ascii) (s : string) : list string :=
  match s with
  | EmptyString => [EmptyString]
  | String c s' =>
      if decide (c = sep) then EmptyString :: split sep s'
      else match split sep s' with
           | piece :: pieces => String c piece :: pieces
           | [] => [String c EmptyString]
           end
  end.

(** [s.strip()]. *)
Fixpoint lstrip (s : string) : string :=
  match s with
  | String c s' => if Ascii.is_space c then lstrip s' else s
  | EmptyString => EmptyString
  end.
Fixpoint rstrip (s : string) : string :=
  match s with
  | String c s' =>
      match rstrip s' with
      | EmptyString => if Ascii.is_space c then EmptyString else String c EmptyString
      | rest => String c rest
      end
  | EmptyString => EmptyString
  end.
Definition strip (s : string) : string := rstrip (lstrip s).

(** The number that a string of decimal digits stands for, after the
    digits [acc]. *)
Fixpoint digits_value (acc : Z) (s : string) : option Z :=
  match s with
  | EmptyString => Some acc
  | String c s' =>
      d ← Ascii.is_nat c; digits_value (acc * 10 + Z.of_nat d) s'
  end.

(** [int(s)] on a string: blanks around the number are skipped, a sign may
    come first, and at least one digit is needed; [None] stands for the
    ValueError. *)
Definition int (s : string) : option Z :=
  match strip s with
  | EmptyString => None
  | String c digits =>
      if decide (c = "-"%char) then
        if decide (digits = EmptyString) then None else Z.opp <$> digits_value 0 digits
      else if decide (c = "+"%char) then
        if decide (digits = EmptyString) then None else digits_value 0 digits
      else digits_value 0 (String c digits)
  end.

(** Python's [float]: [float(s)] of a string, the product, and [str(x)].
    What they compute is not fixed. *)
Class Float (F : Type) : Type := {
  float : string → option F;
  float_mul : F → F → F;
  float_str : F → string
}.

End Builtin.

(** ** Arcpy: the geoprocessing engine as the scripts see it *)

Module Arcpy.

(** One entry of the log of tool calls: the tool, its path arguments, and
    the exception it raised, if it failed. *)
Record Event : Type := mkEvent {
  ev_tool : string;
  ev_args : list string;
  ev_error : option Exn
}.

#[global] Instance Event_eq_dec : EqDecision Event.
Proof. solve_decision. Defined.

Definition MESSAGE : Z := 0.
Definition WARNING : Z := 1.
Definition ERROR : Z := 2.

(** The state of a session.  [D] is the type of the datasets.
    [env] holds the environment settings ([arcpy.env]), each a dataset or a
    keyword.
    [faults n tool] is the exception that the [n]-th tool call of the
    session raises if that call is to [tool]: the engine fails for reasons
    the scripts cannot see, so its failures are an arbitrary plan. *)
Record World (D : Type) : Type := mkWorld {
  workspace : gmap string D;
  env : gmap string (D + string);
  faults : nat → string → option Exn;
  history : list Event;
  gp_messages : list (Z * string);
  console : list (Z * string);
  stdout : list string
}.
Arguments mkWorld {D}.
Arguments workspace {D}.
Arguments env {D}.
Arguments faults {D}.
Arguments history {D}.
Arguments gp_messages {D}.
Arguments console {D}.
Arguments stdout {D}.

Definition ExecuteError (tool : string) : Exn :=
  mkExn "ExecuteError" ("Failed to execute (" +:+ tool +:+ ").").

Section Calls.
Context {D : Type}.

Definition succeeded (tool : string) (args : list string) (ws : gmap string D)
    (w : World D) : World D :=
  mkWorld ws (env w) (faults w) (history w ++ [mkEvent tool args None]) []
          (console w) (stdout w).

Definition failed (tool : string) (args : list string) (e : Exn)
    (w : World D) : World D :=
  mkWorld (workspace w) (env w) (faults w)
          (history w ++ [mkEvent tool args (Some e)])
          [(ERROR, exn_text e)] (console w) (stdout w).

(** A call of a geoprocessing tool.  [sem] is what the tool does to the
    workspace; it is undefined where an input of the tool is missing.  A
    call that fails leaves the workspace as it was. *)
Definition gp {A} (tool : string) (args : list string)
    (sem : gmap string D → option (A * gmap string D)) : Py (World D) A := λ w,
  match faults w (length (history w)) tool with
  | Some e => (Raises e, failed tool args e w)
  | None =>
      match sem (workspace w) with
      | Some (a, ws) => (Returns a, succeeded tool args ws w)
      | None => (Raises (ExecuteError tool), failed tool args (ExecuteError tool) w)
      end
  end.

(** A tool whose result depends on the environment settings. *)
Definition gp_env {A} (tool : string) (args : list string)
    (sem : gmap string (D + string) → gmap string D → option (A * gmap string D))
    : Py (World D) A := λ w, gp tool args (sem (env w)) w.

(** [arcpy.AddMessage], [arcpy.AddWarning], [arcpy.AddError]. *)
Definition add_to_console (severity : Z) (msg : string) : Py (World D) unit := λ w,
  (Returns tt,
   mkWorld (workspace w) (env w) (faults w) (history w) (gp_messages w)
           (console w ++ [(severity, msg)]) (stdout w)).
Definition AddMessage := add_to_console MESSAGE.
Definition AddWarning := add_to_console WARNING.
Definition AddError := add_to_console ERROR.

(** The [print] statement. *)
Definition print (msg : string) : Py (World D) unit := λ w,
  (Returns tt,
   mkWorld (workspace w) (env w) (faults w) (history w) (gp_messages w)
           (console w) (stdout w ++ [msg])).

(** [arcpy.env.name = value] and [arcpy.env.name]. *)
Definition set_env (name : string) (value : D + string) : Py (World D) unit := λ w,
  (Returns tt,
   mkWorld (workspace w) (<[name := value]> (env w)) (faults w) (history w)
           (gp_messages w) (console w) (stdout w)).
Definition get_env (name : string) : Py (World D) (option (D + string)) := λ w,
  (Returns (env w !! name), w).

(** [arcpy.GetMessages(severity)]: the messages of that severity of the
    last tool run, one per line. *)
Definition GetMessages (severity : Z) : Py (World D) string := λ w,
  (Returns (String.concat newline (map snd (filter (λ m, m.1 = severity) (gp_messages w)))), w).

(** [arcpy.Delete_management(t)]. *)
Definition Delete_management (t : string) : Py (World D) unit :=
  gp "Delete_management" [t]
     (λ ws, match ws !! t with
            | Some _ => Some (tt, delete t ws)
            | None => None
            end).

(** [arcpy.CopyFeatures_management(src, dst)]. *)
Definition CopyFeatures_management (src dst : string) : Py (World D) unit :=
  gp "CopyFeatures_management" [src; dst]
     (λ ws, d ← ws !! src; Some (tt, <[dst := d]> ws)).
End Calls.

(** The vector tools that Helper.py calls.  What they compute belongs to
    the engine, so they are parameters of the development. *)
Class Cursors (D Value : Type) : Type := {
  table_rows : D → string → string → option (list (Value * Value))
}.

Class VectorTools (D : Type) : Type := {
  repair_geometry : D → D;
  multipart_to_singlepart : D → D;
  clip : D → D → D;
  erase : D → D → D
}.

Section VectorCalls.
Context {D : Type} `{!VectorTools D}.

(** [arcpy.RepairGeometry_management(feats, option)]: repairs in place. *)
Definition RepairGeometry_management (feats option : string) : Py (World D) unit :=
  gp "RepairGeometry_management" [feats; option]
     (λ ws, d ← ws !! feats; Some (tt, <[feats := repair_geometry d]> ws)).

Definition MultipartToSinglepart_management (src dst : string) : Py (World D) unit :=
  gp "MultipartToSinglepart_management" [src; dst]
     (λ ws, d ← ws !! src; Some (tt, <[dst := multipart_to_singlepart d]> ws)).

Definition Clip_analysis (src clipper dst : string) : Py (World D) unit :=
  gp "Clip_analysis" [src; clipper; dst]
     (λ ws, d ← ws !! src; c ← ws !! clipper; Some (tt, <[dst := clip d c]> ws)).

Definition Erase_analysis (src eraser dst tolerance : string) : Py (World D) unit :=
  gp "Erase_analysis" [src; eraser; dst; tolerance]
     (λ ws, d ← ws !! src; c ← ws !! eraser; Some (tt, <[dst := erase d c]> ws)).
End VectorCalls.

(** The tables and layers that Helper.py asks about.  [field_values] is
    what a cursor on one field yields, in table order. *)
Class FieldCursor (D Value : Type) : Type := {
  field_values : D → string → option (list Value)
}.

(** [row_count] is the number of rows of a table; [dataType] and [FIDSet]
    are the properties of those names of the object that [arcpy.Describe]
    returns; [clear_selection] is what SelectLayerByAttribute does with
    "CLEAR_SELECTION". *)
Class LayerTools (D : Type) : Type := {
  row_count : D → nat;
  dataType : D → string;
  FIDSet : D → string;
  clear_selection : D → D
}.

Section TableCalls.
Context {D : Type} `{!LayerTools D}.

(** [arcpy.GetCount_management(t).getOutput(0)]: the number of rows, as a
    string. *)
Definition GetCount_management (t : string) : Py (World D) string :=
  gp "GetCount_management" [t]
     (λ ws, d ← ws !! t; Some (str (Z.of_nat (row_count d)), ws)).

(** [arcpy.Describe(path)]: a look at a dataset; it is no tool run, so it
    leaves no entry in the log. *)
Definition Describe (path : string) : Py (World D) D := λ w,
  match workspace w !! path with
  | Some d => (Returns d, w)
  | None =>
      let quote := String (Ascii.ascii_of_nat 34) EmptyString in
      (Raises (mkExn "IOError" (quote +:+ path +:+ quote +:+ " does not exist")), w)
  end.

Definition SelectLayerByAttribute_management (layer selection_type : string)
    : Py (World D) unit :=
  gp "SelectLayerByAttribute_management" [layer; selection_type]
     (λ ws, d ← ws !! layer;
            if decide (selection_type = "CLEAR_SELECTION")
            then Some (tt, <[layer := clear_selection d]> ws)
            else None).
End TableCalls.

End Arcpy.

Import Arcpy.

(** ** Helper.py *)

Module Helper.

(** [os.sep] on the platform the engine runs on. *)
Definition os_sep : string := "\".

Section Functions.
Context {D : Type} `{!VectorTools D}.

Definition getScratchMsg (scratchGDB : string) : string :=
  if decide (scratchGDB ≠ "in_memory") then
    "Scratch outputs will be stored here: " +:+ scratchGDB
  else
    "Scratch products are being stored in memory and will not persist. If processing fails inexplicably, or if you want to be able to inspect scratch products, try running this with a specified scratchGDB on disk.".

Definition printMsg (msg : string) : Py (World D) unit :=
  AddMessage msg;; print msg.

Definition printWrng (msg : string) : Py (World D) unit :=
  AddWarning msg;; print ("Warning: " +:+ msg).

Definition printErr (msg : string) : Py (World D) unit :=
  AddError msg;; print ("Error: " +:+ msg).

Definition garbagePickup (trashList : list string) : Py (World D) unit :=
  for_ trashList (λ t _,
    try_except (Delete_management t) (λ _, mret tt)) tt.

(** Fuel for the [while] loop of [CleanFeatures]; the loop ends well
    within it ([CleanFeatures_fuel]). *)
Definition loop_fuel : nat := 64.

Definition CleanFeatures_loop (fuel : nat) (inFeats outFeats : string)
    : Z → Py (World D) Z :=
  while_ fuel (λ counter, counter <=? 10) (λ counter,
    try_except
      (MultipartToSinglepart_management inFeats outFeats;;
       mret 11)
      (λ _,
       AddMessage "Polygon explosion failed.";;
       AddMessage ("Trying to repair geometry (try # " +:+ str counter +:+ ")");;
       RepairGeometry_management inFeats "DELETE_NULL";;
       let counter := counter + 1 in
       (if decide (counter = 11) then
          AddMessage "Polygon explosion problem could not be resolved.  Copying features.";;
          CopyFeatures_management inFeats outFeats
        else mret tt);;
       mret counter)).

Definition CleanFeatures (inFeats outFeats : string) : Py (World D) string :=
  RepairGeometry_management inFeats "DELETE_NULL";;
  CleanFeatures_loop loop_fuel inFeats outFeats 1;;
  mret outFeats.

Definition CleanClip (inFeats clipFeats outFeats : string) (scratchGDB : string)
    : Py (World D) string :=
  let tmpClip := scratchGDB +:+ os_sep +:+ "tmpClip" in
  Clip_analysis inFeats clipFeats tmpClip;;
  CleanFeatures tmpClip outFeats;;
  (if decide (scratchGDB = "in_memory") then garbagePickup [tmpClip] else mret tt);;
  mret outFeats.

Definition CleanErase (inFeats eraseFeats outFeats : string) (scratchGDB : string)
    : Py (World D) string :=
  let tmpErased := scratchGDB +:+ os_sep +:+ "tmpErased" in
  Erase_analysis inFeats eraseFeats tmpErased EmptyString;;
  CleanFeatures tmpErased outFeats;;
  (if decide (scratchGDB = "in_memory") then garbagePickup [tmpErased] else mret tt);;
  mret outFeats.

(** [arcpy.da.SearchCursor(inTab, [fldKey, fldValue])]: the rows of the
    table, in table order, restricted to the two fields.  Opening the
    cursor raises when the table or one of the fields is missing. *)
Context {Value : Type} `{Countable Value} `{!Cursors D Value}.

Definition SearchCursor (inTab fldKey fldValue : string)
    : Py (World D) (list (Value * Value)) := λ w,
  match workspace w !! inTab ≫= (λ d, table_rows d fldKey fldValue) with
  | Some rows => (Returns rows, w)
  | None => (Raises (mkExn "RuntimeError" ("cannot open '" +:+ inTab +:+ "'")), w)
  end.

Definition TabToDict (inTab fldKey fldValue : string)
    : Py (World D) (gmap Value Value) :=
  let codeDict : gmap Value Value := ∅ in
  sc ← SearchCursor inTab fldKey fldValue;
  codeDict ← for_ sc (λ row codeDict,
    let key := row.1 in
    let val := row.2 in
    mret (<[key := val]> codeDict)) codeDict;
  mret codeDict.

Definition tback (exc_info : option (Exn * traceback)) : Py (World D) (list string) :=
  let tb := snd <$> exc_info in
  match format_tb tb !! 0%nat with
  | None => raise (mkExn "IndexError" "list index out of range")
  | Some tbinfo =>
      let pymsg := "PYTHON ERRORS:" +:+ newline +:+ "Traceback Info:" +:+ newline
                   +:+ tbinfo +:+ newline +:+ "Error Info:" +:+ newline +:+ " "
                   +:+ str_value (fst <$> exc_info) in
      errors ← GetMessages 2;
      let msgs := "ARCPY ERRORS:" +:+ newline +:+ errors +:+ newline in
      let msgList := [pymsg; msgs] in
      printErr msgs;;
      printErr pymsg;;
      warnings ← GetMessages 1;
      printMsg warnings;;
      mret msgList
  end.
End Functions.

(** A [datetime] without time zone: the day as its proleptic Gregorian
    ordinal ([toordinal()]) and the time of day. *)
Record datetime : Type := mkDatetime {
  ordinal : Z; hour : Z; minute : Z; second : Z; microsecond : Z
}.

Definition valid_datetime (t : datetime) : Prop :=
  1 ≤ ordinal t ∧ 0 ≤ hour t < 24 ∧ 0 ≤ minute t < 60 ∧
  0 ≤ second t < 60 ∧ 0 ≤ microsecond t < 1000000.

(** A [timedelta], normalised as its constructor leaves it:
    [0 <= seconds < 86400] and [0 <= microseconds < 1000000]. *)
Record timedelta : Type := mkTimedelta {
  days : Z; seconds : Z; microseconds : Z
}.

(** [timedelta(days, seconds, microseconds)]: the carries are taken with
    [divmod], which rounds down. *)
Definition timedelta_new (d s us : Z) : timedelta :=
  let s := s + us `div` 1000000 in
  let us := us `mod` 1000000 in
  let d := d + s `div` 86400 in
  let s := s `mod` 86400 in
  mkTimedelta d s us.

(** [t2 - t1] on [datetime]s. *)
Definition datetime_sub (t2 t1 : datetime) : timedelta :=
  let secs2 := second t2 + minute t2 * 60 + hour t2 * 3600 in
  let secs1 := second t1 + minute t1 * 60 + hour t1 * 3600 in
  timedelta_new (ordinal t2 - ordinal t1) (secs2 - secs1)
                (microsecond t2 - microsecond t1).

(** [t1 <= t2] on [datetime]s compares the fields in order. *)
Definition datetime_key (t : datetime) : list Z :=
  [ordinal t; hour t; minute t; second t; microsecond t].
Fixpoint lex_le (xs ys : list Z) : bool :=
  match xs, ys with
  | x :: xs', y :: ys' => (x <? y) || ((x =? y) && lex_le xs' ys')
  | _, _ => true
  end.
Definition datetime_le (t1 t2 : datetime) : bool :=
  lex_le (datetime_key t1) (datetime_key t2).

(** The four numbers that [GetElapsedTime] prints.  On integers, [/] of
    Python 2 rounds down. *)
Definition elapsed_parts (t1 t2 : datetime) : Z * Z * Z * Z :=
  let delta := datetime_sub t2 t1 in
  let '(d, m, s) := (days delta, seconds delta `div` 60, seconds delta `mod` 60) in
  let '(h, m) := (m `div` 60, m `mod` 60) in
  (d, h, m, s).

Definition GetElapsedTime (t1 t2 : datetime) : string :=
  let '(d, h, m, s) := elapsed_parts t1 t2 in
  let deltaString := str d +:+ " days, " +:+ str h +:+ " hours, " +:+ str m
                     +:+ " minutes, " +:+ str s +:+ " seconds" in
  deltaString.

Section MoreFunctions.
Context {D : Type} `{!LayerTools D}.

Definition countFeatures (features : string) : Py (World D) Z :=
  output ← GetCount_management features;
  match Builtin.int output with
  | Some count => mret count
  | None => raise (mkExn "ValueError"
                     ("invalid literal for int() with base 10: '" +:+ output +:+ "'"))
  end.

Definition countSelectedFeatures (featureLyr : string) : Py (World D) Z :=
  desc ← Describe featureLyr;
  let count := Z.of_nat (String.length (FIDSet desc)) in
  mret count.

Definition clearSelection (fc : string) : Py (World D) unit :=
  desc ← Describe fc;
  let typeFC := dataType desc in
  if decide (typeFC = "FeatureLayer") then
    SelectLayerByAttribute_management fc "CLEAR_SELECTION"
  else mret tt.

Context {Value : Type} `{Countable Value} `{!FieldCursor D Value}.
Context (le : relation Value) `{!RelDecision le}.

(** [arcpy.da.SearchCursor(table, [field])]: the values of the field, in
    table order.  Opening the cursor raises when the table or the field is
    missing. *)
Definition FieldSearchCursor (table field : string) : Py (World D) (list Value) := λ w,
  match workspace w !! table ≫= (λ d, field_values d field) with
  | Some values => (Returns values, w)
  | None => (Raises (mkExn "RuntimeError" ("cannot open '" +:+ table +:+ "'")), w)
  end.

(** The set comprehension makes a set of the values; [sorted] takes them
    from the set in the order in which the set yields them. *)
Definition unique_values (table field : string) : Py (World D) (list Value) :=
  cursor ← FieldSearchCursor table field;
  mret (Builtin.sorted le (elements (list_to_set cursor : gset Value))).
End MoreFunctions.

Section Measures.
Import Stdlib.Strings.Ascii.
Context {F : Type} `{!Builtin.Float F}.

(** The tuple, or the exception of the first step that fails: [float]
    raises ValueError, an index out of range IndexError. *)
Definition multiMeasure (meas : string) (multi : F) : Outcome (F * string * string) :=
  let parseMeas := Builtin.split " "%char meas in
  match parseMeas !! 0%nat with
  | None => Raises (mkExn "IndexError" "list index out of range")
  | Some text =>
      match Builtin.float text with
      | None => Raises (mkExn "ValueError" ("could not convert string to float: " +:+ text))
      | Some num =>
          match parseMeas !! 1%nat with
          | None => Raises (mkExn "IndexError" "list index out of range")
          | Some units =>
              let num := Builtin.float_mul num multi in
              let newMeas := Builtin.float_str num +:+ " " +:+ units in
              let measTuple := (num, units, newMeas) in
              Returns measTuple
          end
      end
  end.
End Measures.

End Helper.

(** ** The data of SelectTop.py: numbers, rasters and tables *)

Module Gis.

(** The arithmetic of the DOUBLE values of the engine and of Python's
    [float].  The development does not fix it: the scripts only add,
    multiply and compare, and what is proved of them holds for any
    arithmetic, exact or rounded.  [lit m e] is the decimal literal
    [m * 10^e], so [0.000247105] is [lit 247105 (-9)]. *)
Class Number : Type := {
  num : Type;
  lit : Z → Z → num;
  add : num → num → num;
  mul : num → num → num;
  leb : num → num → bool;
  ltb : num → num → bool
}.

(** A cell of the analysis grid, by row and column. *)
Definition cell : Type := Z * Z.

(** A raster on the analysis grid: the cells of its extent, each with a
    value or NoData ([None]). *)
Abbreviation Raster A := (gmap cell (option A)).

(** The value of a cell; NoData also outside of the extent. *)
Definition cellval {A : Type} (r : Raster A) (c : cell) : option A := r !! c ≫= id.

(** Cells that share an edge. *)
Definition adjacent4 (c c' : cell) : Prop :=
  (c.1 = c'.1 ∧ (c.2 = c'.2 + 1 ∨ c'.2 = c.2 + 1))
  ∨ (c.2 = c'.2 ∧ (c.1 = c'.1 + 1 ∨ c'.1 = c.1 + 1)).

(** [c] and [c'] are joined by a chain of edge-sharing cells that all
    belong to [P]. *)
Inductive connected4 (P : cell → Prop) : cell → cell → Prop :=
| connected4_refl c : P c → connected4 P c c
| connected4_step c c' c'' :
    P c → adjacent4 c c' → connected4 P c' c'' → connected4 P c c''.

(** A polygon of the conserved lands; [G] is the type of its geometry.  A
    field that is NULL, or that the table does not have yet, is [None]. *)
Record LandRow (G : Type) : Type := mkLandRow {
  land_shape : G;
  RASTVAL : option Z
}.
Arguments mkLandRow {G}.
Arguments land_shape {G}.
Arguments RASTVAL {G}.

Definition set_RASTVAL {G} (row : LandRow G) (v : option Z) : LandRow G :=
  mkLandRow (land_shape row) v.

Section Data.
Context `{Number}.

(** *** Map algebra, cell by cell *)

(** [raster > k] and [raster >= k]: 1 where the test holds, 0 where it
    does not, NoData where the raster has none. *)
Definition greater_than (r : Raster num) (k : num) : Raster Z :=
  fmap (M := option) (λ v, if ltb k v then 1 else 0) <$> r.
Definition greater_than_equal (r : Raster num) (k : num) : Raster Z :=
  fmap (M := option) (λ v, if leb k v then 1 else 0) <$> r.

(** [raster == k] on integer rasters. *)
Definition equal_to (r : Raster Z) (k : Z) : Raster Z :=
  fmap (M := option) (λ v, if decide (v = k) then 1 else 0) <$> r.

(** [IsNull(raster)]: 1 on the NoData cells of the extent, 0 on the
    others. *)
Definition is_null {A : Type} (r : Raster A) : Raster Z :=
  (λ o : option A, Some (match o with None => 1 | Some _ => 0 end)) <$> r.

(** [Con(cond, value)] without a false value: the value where the
    condition is not zero, NoData elsewhere. *)
Definition pick {A} (c : option Z) (v : option A) : option A :=
  match c with
  | Some c => if decide (c = 0) then None else v
  | None => None
  end.
Definition con_constant (cond : Raster Z) (value : Z) : Raster Z :=
  (λ c, pick c (Some value)) <$> cond.

(** [Con(cond, raster)]; the extent is the union of the extents of the
    two rasters ([arcpy.env.extent = "MAXOF"]). *)
Definition con_raster {A : Type} (cond : Raster Z) (r : Raster A) : Raster A :=
  merge (λ (c : option (option Z)) (v : option (option A)),
           Some (pick (c ≫= id) (v ≫= id))) cond r.

(** *** Tables *)

(** A polygon made from raster cells, with the fields that the script
    reads and writes.  With NO_SIMPLIFY the outline of a polygon follows
    the edges of its cells, so its shape is a set of cells.  A field that
    is NULL, or that the table does not have yet, is [None]. *)
Record PolyRow : Type := mkPolyRow {
  shape : gset cell;
  gridcode : Z;
  Shape_Area : num;
  MEAN : option num;
  ACRES : option num;
  CUM_ACRES : option num;
  SELECTION : option Z
}.

Definition set_MEAN (row : PolyRow) (v : option num) : PolyRow :=
  mkPolyRow (shape row) (gridcode row) (Shape_Area row) v
            (ACRES row) (CUM_ACRES row) (SELECTION row).
Definition set_ACRES (row : PolyRow) (v : option num) : PolyRow :=
  mkPolyRow (shape row) (gridcode row) (Shape_Area row) (MEAN row)
            v (CUM_ACRES row) (SELECTION row).
Definition set_CUM_ACRES (row : PolyRow) (v : option num) : PolyRow :=
  mkPolyRow (shape row) (gridcode row) (Shape_Area row) (MEAN row)
            (ACRES row) v (SELECTION row).
Definition set_SELECTION (row : PolyRow) (v : option Z) : PolyRow :=
  mkPolyRow (shape row) (gridcode row) (Shape_Area row) (MEAN row)
            (ACRES row) (CUM_ACRES row) v.

(** A row of a table of zonal statistics: the zone and its mean. *)
Definition ZonalRow : Type := Z * option num.

Inductive Dataset (G : Type) : Type :=
| FloatRaster (r : Raster num)
| IntRaster (r : Raster Z)
| Polygons (rows : list PolyRow)
| Lands (rows : list (LandRow G))
| ZonalTable (rows : list ZonalRow).
Arguments FloatRaster {G}.
Arguments IntRaster {G}.
Arguments Polygons {G}.
Arguments Lands {G}.
Arguments ZonalTable {G}.

Definition as_float_raster {G} (d : Dataset G) : option (Raster num) :=
  match d with FloatRaster r => Some r | _ => None end.
Definition as_int_raster {G} (d : Dataset G) : option (Raster Z) :=
  match d with IntRaster r => Some r | _ => None end.
Definition as_zonal_table {G} (d : Dataset G) : option (list ZonalRow) :=
  match d with ZonalTable rows => Some rows | _ => None end.

(** The tables whose fields can be added and calculated. *)
Class TableOf (G R : Type) : Type := {
  rows_of : Dataset G → option (list R);
  table_of : list R → Dataset G
}.
#[global] Instance polygons_table {G} : TableOf G PolyRow := {|
  rows_of d := match d with Polygons rows => Some rows | _ => None end;
  table_of := Polygons
|}.
#[global] Instance lands_table {G} : TableOf G (LandRow G) := {|
  rows_of d := match d with Lands rows => Some rows | _ => None end;
  table_of := Lands
|}.

(** [CalculateField] with PYTHON_9.3: the expression is evaluated on the
    rows in table order; [s] stands for the globals of the code block,
    which live from the first row to the last.  An expression that raises
    on a row makes the tool fail. *)
Fixpoint calculate {R V S} (set : R → V → R) (expression : R → S → option (V * S))
    (s : S) (rows : list R) : option (list R) :=
  match rows with
  | [] => Some []
  | row :: rows' =>
      '(v, s') ← expression row s;
      rest ← calculate set expression s' rows';
      Some (set row v :: rest)
  end.

(** [JoinField(polygons, "gridcode", zonalTab, "Value", "MEAN")]: each
    polygon gets the MEAN of the first row of the join table whose Value
    is its gridcode, and NULL when there is none. *)
Definition join_mean (zonal : list ZonalRow) (row : PolyRow) : PolyRow :=
  set_MEAN row match list_find (λ z : ZonalRow, z.1 = gridcode row) zonal with
               | Some (_, z) => z.2
               | None => None
               end.

(** The order of [Sort] on a DOUBLE field; NULL sorts below every
    value. *)
Definition null_leb (x y : option num) : bool :=
  match x, y with
  | None, _ => true
  | Some _, None => false
  | Some a, Some b => leb a b
  end.
Definition mean_descending (row row' : PolyRow) : Prop :=
  null_leb (MEAN row') (MEAN row).
#[global] Instance mean_descending_dec row row' : Decision (mean_descending row row').
Proof. unfold mean_descending. apply _. Defined.

Definition sort_rows (sort_field : list (string * string)) (rows : list PolyRow)
    : option (list PolyRow) :=
  if decide (sort_field = [("MEAN", "DESCENDING")]) then
    Some (merge_sort mean_descending rows)
  else None.

(** The tools whose result the engine alone defines; [E] stands for the
    environment settings they run under. *)
Class GridTools (G E : Type) : Type := {
  polygon_to_raster : E → list (LandRow G) → string → string → string
                      → option (Dataset G + string) → Raster Z;
  region_group : E → Raster Z → string → Raster Z;
  zonal_geometry : E → Raster Z → string → string → Raster num;
  raster_to_polygon : E → Raster Z → string → list PolyRow;
  zonal_statistics : E → Raster Z → string → Raster num → string → string
                     → list ZonalRow
}.
End Data.

Arguments FloatRaster {_ G}.
Arguments IntRaster {_ G}.
Arguments Polygons {_ G}.
Arguments Lands {_ G}.
Arguments ZonalTable {_ G}.

End Gis.

Import Gis.

(** ** The tools that SelectTop.py calls *)

Module Tools.

Section Tools.
Context `{Number} {G : Type}.
Abbreviation Settings := (gmap string (Dataset G + string)).
Context `{!GridTools G Settings}.
Abbreviation Session := (World (Dataset G)).

Definition CheckOutExtension (extension : string) : Py Session unit :=
  gp "CheckOutExtension" [extension] (λ ws, Some (tt, ws)).
Definition CheckInExtension (extension : string) : Py Session unit :=
  gp "CheckInExtension" [extension] (λ ws, Some (tt, ws)).

(** [Raster(path)]: the raster object of a raster dataset. *)
Definition Raster_ (path : string) : Py Session (Raster num) :=
  gp "Raster" [path] (λ ws, d ← ws !! path; r ← as_float_raster d; Some (r, ws)).

(** [raster.save(path)]. *)
Definition save (raster : Dataset G) (path : string) : Py Session unit :=
  gp "Raster.save" [path] (λ ws, Some (tt, <[path := raster]> ws)).

(** The operators and functions of [arcpy.sa] on raster objects. *)
Definition GreaterThan (raster : Raster num) (k : num) : Py Session (Raster Z) :=
  gp "GreaterThan" [] (λ ws, Some (greater_than raster k, ws)).
Definition GreaterThanEqual (raster : Raster num) (k : num) : Py Session (Raster Z) :=
  gp "GreaterThanEqual" [] (λ ws, Some (greater_than_equal raster k, ws)).
Definition EqualTo (raster : Raster Z) (k : Z) : Py Session (Raster Z) :=
  gp "EqualTo" [] (λ ws, Some (equal_to raster k, ws)).
Definition Con (cond : Raster Z) (value : Z) : Py Session (Raster Z) :=
  gp "Con" [] (λ ws, Some (con_constant cond value, ws)).
Definition Con_raster (cond : Raster Z) (raster : Raster Z) : Py Session (Raster Z) :=
  gp "Con" [] (λ ws, Some (con_raster cond raster, ws)).

(** [IsNull(path)] on a raster dataset. *)
Definition IsNull (path : string) : Py Session (Raster Z) :=
  gp "IsNull" [path] (λ ws, d ← ws !! path; r ← as_int_raster d; Some (is_null r, ws)).

Definition RegionGroup (raster : Raster Z) (neighbors : string)
    : Py Session (Raster Z) :=
  gp_env "RegionGroup" [neighbors]
    (λ env ws, Some (region_group env raster neighbors, ws)).

Definition ZonalGeometry (zones : Raster Z) (zone_field geometry_type : string)
    : Py Session (Raster num) :=
  gp_env "ZonalGeometry" [zone_field; geometry_type]
    (λ env ws, Some (zonal_geometry env zones zone_field geometry_type, ws)).

Definition ZonalStatisticsAsTable (zones : Raster Z) (zone_field : string)
    (values : Raster num) (out_table ignore_nodata statistics : string)
    : Py Session unit :=
  gp_env "ZonalStatisticsAsTable" [zone_field; out_table; ignore_nodata; statistics]
    (λ env ws,
       Some (tt, <[out_table := ZonalTable (zonal_statistics env zones zone_field
                                  values ignore_nodata statistics)]> ws)).

Definition PolygonToRaster_conversion (in_features value_field out_raster
    cell_assignment priority_field : string) (cellsize : option (Dataset G + string))
    : Py Session unit :=
  gp_env "PolygonToRaster_conversion"
    [in_features; value_field; out_raster; cell_assignment; priority_field]
    (λ env ws,
       d ← ws !! in_features; rows ← rows_of d;
       Some (tt, <[out_raster := IntRaster (polygon_to_raster env rows value_field
                                   cell_assignment priority_field cellsize)]> ws)).

Definition RasterToPolygon_conversion (raster : Raster Z)
    (out_polygons simplify : string) : Py Session unit :=
  gp_env "RasterToPolygon_conversion" [out_polygons; simplify]
    (λ env ws,
       Some (tt, <[out_polygons := Polygons (raster_to_polygon env raster simplify)]> ws)).

(** [AddField]: the table gets the field, NULL in every row; in the
    records of this development that is the table as it was. *)
Definition AddField_management (table field field_type : string) : Py Session unit :=
  gp "AddField_management" [table; field; field_type]
    (λ ws, d ← ws !! table;
           match d with
           | Polygons _ | Lands _ | ZonalTable _ => Some (tt, ws)
           | _ => None
           end).

(** [CalculateField(table, field, expression, "PYTHON_9.3", code_block)].
    [set] writes the field; the expression and the globals of the code
    block are given as they evaluate. *)
Definition CalculateField_management {R V S} `{!TableOf G R} (table field : string)
    (set : R → V → R) (expression : R → S → option (V * S)) (code_block : S)
    : Py Session unit :=
  gp "CalculateField_management" [table; field]
    (λ ws, d ← ws !! table; rows ← rows_of d;
           rows' ← calculate set expression code_block rows;
           Some (tt, <[table := table_of rows']> ws)).

Definition JoinField_management (in_data in_field join_table join_field
    fields : string) : Py Session unit :=
  gp "JoinField_management" [in_data; in_field; join_table; join_field; fields]
    (λ ws, d ← ws !! in_data; rows ← rows_of d;
           t ← ws !! join_table; zonal ← as_zonal_table t;
           if decide ((in_field, join_field, fields) = ("gridcode", "Value", "MEAN"))
           then Some (tt, <[in_data := Polygons (join_mean zonal <$> rows)]> ws)
           else None).

Definition Sort_management (in_dataset out_dataset : string)
    (sort_field : list (string * string)) : Py Session unit :=
  gp "Sort_management" [in_dataset; out_dataset]
    (λ ws, d ← ws !! in_dataset; rows ← rows_of d;
           sorted ← sort_rows sort_field rows;
           Some (tt, <[out_dataset := Polygons sorted]> ws)).

(** [Select_analysis(in, out, where_clause)]; the clause is given as the
    test it stands for. *)
Definition Select_analysis (in_features out_features : string)
    (where_clause : PolyRow → bool) : Py Session unit :=
  gp "Select_analysis" [in_features; out_features]
    (λ ws, d ← ws !! in_features; rows ← rows_of d;
           Some (tt, <[out_features := Polygons (filter (λ row, where_clause row) rows)]> ws)).
End Tools.

End Tools.

Import Tools.

(** ** SelectTop.py *)

Module SelectTop.

Import Helper.

Section Functions.
Context `{Number} {G : Type}.
Abbreviation Settings := (gmap string (Dataset G + string)).
Context `{!GridTools G Settings}.
Abbreviation Session := (World (Dataset G)).

(** The expression and the code block of the CUM_ACRES calculation: the
    global [cumVal] starts at 0 and grows by the ACRES of each row.
    Adding NULL raises. *)
Definition accumulate (Val : option num) (cumVal : num) : option (option num * num) :=
  match Val with
  | Some Val =>
      let cumVal := add cumVal Val in
      Some (Some cumVal, cumVal)
  | None => None
  end.

(** The code block of the SELECTION calculation.  In Python 2 [None]
    compares below every number. *)
Definition select (Val : option num) : Z :=
  match Val with
  | Some Val => if leb Val (lit 500000 0) then 1 else 0
  | None => 1
  end.

(** [in_FarmAgrVal] is the path of a raster or a raster object. *)
Definition SelectTopAgr (in_FarmAgrVal : string + Raster num)
    (in_ConsLands out_Polys out_Scratch : string) : Py Session string :=
  CheckOutExtension "Spatial";;

  in_FarmAgrVal ← match in_FarmAgrVal with
                  | inl path => Raster_ path
                  | inr raster => mret raster
                  end;

  set_env "snapRaster" (inl (FloatRaster in_FarmAgrVal));;
  set_env "cellSize" (inl (FloatRaster in_FarmAgrVal));;
  set_env "extent" (inr "MAXOF");;
  cellSize ← get_env "cellSize";

  printMsg "Subsetting farmlands with highest scores...";;
  high ← GreaterThan in_FarmAgrVal (lit 80 0);
  farmRast ← Con high 1;
  save (IntRaster farmRast) (out_Scratch +:+ os_sep +:+ "farmRast");;

  printMsg "Converting protected lands to raster...";;
  AddField_management in_ConsLands "RASTVAL" "SHORT";;
  CalculateField_management in_ConsLands "RASTVAL" set_RASTVAL
    (λ (_ : LandRow G) (_ : unit), Some (Some 1, tt)) tt;;
  let elimRast := out_Scratch +:+ os_sep +:+ "elimRast" in
  PolygonToRaster_conversion in_ConsLands "RASTVAL" elimRast
    "MAXIMUM_COMBINED_AREA" "RASTVAL" cellSize;;
  printMsg "Eliminating protected areas from eligible farmland...";;
  unprotected ← IsNull elimRast;
  unprotected ← EqualTo unprotected 1;
  vulnFarmRast ← Con_raster unprotected farmRast;

  printMsg "Region grouping remaining farmland...";;
  regionRast ← RegionGroup vulnFarmRast "FOUR";
  save (IntRaster regionRast) (out_Scratch +:+ os_sep +:+ "regionRast");;

  printMsg "Calculating region sizes...";;
  regionSize ← ZonalGeometry regionRast "VALUE" "AREA";
  save (FloatRaster regionSize) (out_Scratch +:+ os_sep +:+ "regionSize");;

  printMsg "Eliminating regions under size threshold...";;
  large ← GreaterThanEqual regionSize (lit 809371 (-1));
  regionSubset ← Con_raster large regionRast;
  save (IntRaster regionSubset) (out_Scratch +:+ os_sep +:+ "regionSubset");;

  printMsg "Converting remaining regions to polygons...";;
  let regionPolys := out_Scratch +:+ os_sep +:+ "regionPolys" in
  RasterToPolygon_conversion regionSubset regionPolys "NO_SIMPLIFY";;

  printMsg "Calculating zonal means for agricultural value...";;
  let zonalTab := out_Scratch +:+ os_sep +:+ "zonalTab" in
  ZonalStatisticsAsTable regionSubset "VALUE" in_FarmAgrVal zonalTab "DATA" "MEAN";;
  JoinField_management regionPolys "gridcode" zonalTab "Value" "MEAN";;

  printMsg "Sorting polygons by agricultural score...";;
  let sortedPolys := out_Scratch +:+ os_sep +:+ "sortedPolys" in
  Sort_management regionPolys sortedPolys [("MEAN", "DESCENDING")];;

  printMsg "Adding and calculating fields...";;
  AddField_management sortedPolys "ACRES" "DOUBLE";;
  AddField_management sortedPolys "CUM_ACRES" "DOUBLE";;
  AddField_management sortedPolys "SELECTION" "SHORT";;

  printMsg "Calculating ACRES field...";;
  CalculateField_management sortedPolys "ACRES" set_ACRES
    (λ (row : PolyRow) (_ : unit),
       Some (Some (mul (Shape_Area row) (lit 247105 (-9))), tt)) tt;;

  printMsg "Calculating CUM_ACRES field...";;
  CalculateField_management sortedPolys "CUM_ACRES" set_CUM_ACRES
    (λ (row : PolyRow) (cumVal : num), accumulate (ACRES row) cumVal) (lit 0 0);;

  printMsg "Calculating SELECTION field...";;
  CalculateField_management sortedPolys "SELECTION" set_SELECTION
    (λ (row : PolyRow) (_ : unit), Some (Some (select (CUM_ACRES row)), tt)) tt;;

  printMsg "Saving out top agricultural polygons...";;
  Select_analysis sortedPolys out_Polys
    (λ row, bool_decide (SELECTION row = Some 1));;

  CheckInExtension "Spatial";;

  printMsg "Done.";;
  mret out_Polys.
End Functions.

End SelectTop.

(** ** Sample sessions

    A small engine to run the functions on: a feature class is the list
    of its features, a feature the list of its parts, and a part a number.
    Repair drops the features without parts, the conversion gives every
    part a feature of its own, and clipping and erasing keep or drop the
    parts of the other dataset. *)

Module Sample.

Definition Features : Type := list (list Z).

#[global] Instance sample_tools : VectorTools Features := {|
  repair_geometry d := filter (λ f, f ≠ []) d;
  multipart_to_singlepart d := f ← d; (λ p, [p]) <$> f;
  clip d c := (λ f, filter (λ p, p ∈ mjoin c) f) <$> d;
  erase d c := (λ f, filter (λ p, p ∉ mjoin c) f) <$> d
|}.

(** A session that has run no tool yet. *)
Definition session {D} (ws : gmap string D) (plan : nat → string → option Exn)
    : World D :=
  mkWorld ws ∅ plan [] [] [] [].

Definition no_faults : nat → string → option Exn := λ _ _, None.

(** The engine fails every call to [tool] among the first [n] calls. *)
Definition fails_early (tool : string) (n : nat) : nat → string → option Exn :=
  λ i t, if decide (t = tool ∧ (i < n)%nat) then Some (ExecuteError tool) else None.

Definition parcels : Features := [[1; 2]; []; [3]].
Definition county : Features := [[1; 3; 4]].

(** A table with the two text fields CODE and NAME. *)
Definition Table : Type := list (string * string).

#[global] Instance sample_cursors : Cursors Table string := {|
  table_rows rows fldKey fldValue :=
    if decide (fldKey = "CODE" ∧ fldValue = "NAME") then Some rows else None
|}.

Definition landcover : Table :=
  [("11", "Open Water"); ("21", "Developed"); ("11", "Water"); ("81", "Pasture")].

(** The cursor on one of the two fields of a sample table. *)
#[global] Instance sample_field_cursor : FieldCursor Table string := {|
  field_values rows field :=
    if decide (field = "CODE") then Some rows.*1
    else if decide (field = "NAME") then Some rows.*2
    else None
|}.

(** A layer: its type, the ids of its features, and the ids of the
    selected ones.  FIDSet joins the selected ids with "; ". *)
Record Layer : Type := mkLayer {
  layer_type : string; oids : list Z; selected_oids : list Z
}.

#[global] Instance sample_layers : LayerTools Layer := {|
  row_count l := length (oids l);
  dataType := layer_type;
  FIDSet l := String.concat "; " (str <$> selected_oids l);
  clear_selection l := mkLayer (layer_type l) (oids l) []
|}.

Definition roads : Layer := mkLayer "FeatureLayer" [1; 2; 3; 5; 8; 12] [3; 12].

(** Whole numbers as floats: [float] reads what [int] reads, and [str]
    writes the number with the fraction ".0". *)
#[global] Instance sample_float : Builtin.Float Z := {|
  Builtin.float := Builtin.int;
  Builtin.float_mul := Z.mul;
  Builtin.float_str x := str x +:+ ".0"
|}.

End Sample.


(** ** Checking what RegionGroup and RasterToPolygon gave

    Whether the regions of a raster are four-connected, and whether
    polygons cover cells of one value, can be computed on a given raster. *)

Module Checks.

(** The cells of a raster that have value [v]. *)
Definition cells_of {A : Type} `{EqDecision A} (r : Raster A) (v : A) : list cell :=
  map_to_list r ≫= (λ entry, if decide (entry.2 = Some v) then [entry.1] else []).

(** The values of a raster, each once. *)
Definition values_of {A : Type} `{EqDecision A} (r : Raster A) : list A :=
  remove_dups (map_to_list r ≫= (λ entry, match entry.2 with Some v => [v] | None => [] end)).

#[global] Instance adjacent4_dec (c c' : cell) : Decision (adjacent4 c c').
Proof. unfold adjacent4. apply _. Defined.

(** The cells of [region] that share an edge with a cell already seen. *)
Definition grow (region seen : list cell) : list cell :=
  seen ++ filter (λ c, Exists (λ c', adjacent4 c' c) seen) region.

(** The cells reached from [seen] in [n] rounds. *)
Fixpoint reach (n : nat) (region seen : list cell) : list cell :=
  match n with
  | O => seen
  | S n' => reach n' region (grow region seen)
  end.

(** Every region lies on cells that have a value in [input], and all its
    cells are reached from one of them. *)
Definition grouped_check (input regions : Raster Z) : bool :=
  forallb (λ entry : cell * option Z,
    match entry.2 with
    | None => true
    | Some i =>
        bool_decide (is_Some (cellval input entry.1))
        && match cells_of regions i with
           | [] => false
           | start :: region =>
               bool_decide (entry.1 ∈ reach (length region) (start :: region) [start])
           end
    end) (map_to_list regions).

Definition cover_check (raster : Raster Z) `{Number} (rows : list PolyRow) : bool :=
  forallb (λ row,
    bool_decide (shape row ≠ ∅)
    && forallb (λ c, bool_decide (cellval raster c = Some (gridcode row)))
               (elements (shape row))) rows.

End Checks.

Import Checks.

(** ** A sample grid engine *)

Module SampleGrid.

(** Exact rational numbers as the arithmetic. *)
Definition rational : Number := {|
  num := Q;
  lit m e := (inject_Z m * Qpower (inject_Z 10) e)%Q;
  add := Qplus;
  mul := Qmult;
  leb := Qle_bool;
  ltb x y := negb (Qle_bool y x)
|}.
#[local] Existing Instance rational.

(** The geometry of a conserved land: the cells it covers. *)
Definition Geometry : Type := list cell.
Abbreviation Settings := (gmap string (Dataset Geometry + string)).

(** The area of a cell, in square meters: cells of 10 km by 10 km. *)
Definition cell_area : Q := inject_Z 100000000.

Definition neighbors (how : string) (c : cell) : list cell :=
  [(c.1, c.2 + 1); (c.1, c.2 - 1); (c.1 + 1, c.2); (c.1 - 1, c.2)]
  ++ (if decide (how = "EIGHT")
      then [(c.1 + 1, c.2 + 1); (c.1 + 1, c.2 - 1); (c.1 - 1, c.2 + 1); (c.1 - 1, c.2 - 1)]
      else []).

(** The extent of the snap raster. *)
Definition snap_extent (E : Settings) : list cell :=
  match E !! "snapRaster" with
  | Some (inl (FloatRaster r)) => (map_to_list r).*1
  | _ => []
  end.

(** PolygonToRaster: on the extent of the snap raster, the cells that a
    land covers get its value; the first land wins. *)
Definition sample_polygon_to_raster (E : Settings) (rows : list (LandRow Geometry))
    (value_field cell_assignment priority_field : string)
    (cellsize : option (Dataset Geometry + string)) : Raster Z :=
  list_to_map
    ((λ c, (c, match list_find (λ row, c ∈ land_shape row) rows with
               | Some (_, row) => RASTVAL row
               | None => None
               end)) <$> snap_extent E).

(** RegionGroup: every cell with a value starts with a label of its own
    and takes, round after round, the least label among its neighbors of
    the same value. *)
Definition relabel (how : string) (r : Raster Z) (labels : gmap cell Z) : gmap cell Z :=
  map_imap (λ c (l : Z),
    Some (foldr Z.min l
            (neighbors how c ≫= (λ c',
               if decide (cellval r c' = cellval r c)
               then match labels !! c' with Some l' => [l'] | None => [] end
               else [])))) labels.

Definition data_cells {A : Type} (r : Raster A) : list cell :=
  map_to_list r ≫= (λ entry, match entry.2 with Some _ => [entry.1] | None => [] end).

Definition first_labels (r : Raster Z) : gmap cell Z :=
  list_to_map (zip (data_cells r) (Z.of_nat <$> seq 1 (length (data_cells r)))).

Definition sample_region_group (E : Settings) (r : Raster Z) (how : string) : Raster Z :=
  let labels := Nat.iter (length (data_cells r)) (relabel how r) (first_labels r) in
  map_imap (λ (c : cell) (o : option Z),
              Some (match o with Some _ => labels !! c | None => None end)) r.

(** ZonalGeometry AREA: every cell of a zone gets the number of cells of
    the zone times the area of a cell. *)
Definition zone_area (zones : Raster Z) (z : Z) : Q :=
  (inject_Z (Z.of_nat (length (cells_of zones z))) * cell_area)%Q.

Definition sample_zonal_geometry (E : Settings) (zones : Raster Z)
    (zone_field geometry_type : string) : Raster num :=
  fmap (M := option) (zone_area zones) <$> zones.

(** RasterToPolygon: one polygon for each value; on a raster of regions
    that is one polygon for each region. *)
Definition sample_raster_to_polygon (E : Settings) (r : Raster Z) (simplify : string)
    : list PolyRow :=
  (λ v, mkPolyRow (list_to_set (cells_of r v)) v (zone_area r v) None None None None)
  <$> values_of r.

(** ZonalStatisticsAsTable MEAN: the mean of the values of the cells of
    each zone. *)
Definition sample_zonal_statistics (E : Settings) (zones : Raster Z) (zone_field : string)
    (values : Raster num) (ignore_nodata statistics : string) : list ZonalRow :=
  (λ z, let vs := cells_of zones z ≫= (λ c, match cellval values c with
                                             | Some v => [v] | None => [] end) in
        (z, match vs with
            | [] => None
            | _ => Some (foldr Qplus 0%Q vs / inject_Z (Z.of_nat (length vs)))%Q
            end))
  <$> values_of zones.

Definition sample_grid_tools : GridTools Geometry Settings := {|
  polygon_to_raster := sample_polygon_to_raster;
  region_group := sample_region_group;
  zonal_geometry := sample_zonal_geometry;
  raster_to_polygon := sample_raster_to_polygon;
  zonal_statistics := sample_zonal_statistics
|}.
#[local] Existing Instance sample_grid_tools.

(** A raster from its rows; [None] is NoData. *)
Definition raster_of_rows {A : Type} (rows : list (list (option A))) : Raster A :=
  list_to_map
    (mjoin (imap (λ i row, imap (λ j v, ((Z.of_nat i, Z.of_nat j), v)) row) rows)).

Definition score (n : Z) : option Q := Some (inject_Z n).

(** Agricultural values: a block of twelve cells valued 95, a block of
    eight valued 90, two cells valued 85, and a cell valued 88 that lies
    in conserved land. *)
Definition agrValue : Raster num :=
  raster_of_rows
    [ [score 95; score 95; score 95; score 95; score 10; score 90; score 90];
      [score 95; score 95; score 95; score 95; score 10; score 90; score 90];
      [score 95; score 95; score 95; score 95; score 10; score 90; score 90];
      [score 10; score 10; score 10; None;     score 10; score 90; score 90];
      [score 85; score 85; score 10; score 88; score 10; score 10; score 10] ].

Definition consLands : list (LandRow Geometry) :=
  [ mkLandRow [(4, 3); (4, 4)] None ].

Definition session : World (Dataset Geometry) :=
  Sample.session {["lands" := Lands consLands]} Sample.no_faults.

End SampleGrid.



(** * Properties *)

(** ** Running blocks *)

Section Running.
Context {W : Type}.
Implicit Types w : W.

Lemma run_bind {A B} (m : Py W A) (k : A → Py W B) w :
  (m ≫= k) w = match m w with
               | (Returns a, w') => k a w'
               | (Raises e, w') => (Raises e, w')
               | (Diverges, w') => (Diverges, w')
               end.
Proof. reflexivity. Qed.

Lemma run_bind_returns {A B} (m : Py W A) (k : A → Py W B) w a w' :
  m w = (Returns a, w') → (m ≫= k) w = k a w'.
Proof. intros Hm. by rewrite run_bind, Hm. Qed.

Lemma run_bind_raises {A B} (m : Py W A) (k : A → Py W B) w e w' :
  m w = (Raises e, w') → (m ≫= k) w = (Raises e, w').
Proof. intros Hm. by rewrite run_bind, Hm. Qed.

Lemma run_mret {A} (a : A) w : (mret a : Py W A) w = (Returns a, w).
Proof. reflexivity. Qed.

Lemma run_try_returns {A} (body : Py W A) handler w a w' :
  body w = (Returns a, w') → try_except body handler w = (Returns a, w').
Proof. intros Hb. unfold try_except. by rewrite Hb. Qed.

Lemma run_try_raises {A} (body : Py W A) handler w e w' :
  body w = (Raises e, w') → try_except body handler w = handler e w'.
Proof. intros Hb. unfold try_except. by rewrite Hb. Qed.
End Running.

(** Unfolds the plumbing of a block, so that it runs on the state at hand. *)
Ltac py_unfold :=
  unfold mbind, Py_bind, bind, mret, Py_ret, ret, raise, try_except,
    AddMessage, AddWarning, AddError, add_to_console, print, GetMessages,
    set_env, get_env;
  simpl.

Section ToolCalls.
Context {D : Type}.
Implicit Types w : World D.

(** The three ways a tool call ends. *)
Lemma gp_fault {A} tool args (sem : gmap string D → option (A * gmap string D)) w e :
  faults w (length (history w)) tool = Some e →
  gp tool args sem w = (Raises e, failed tool args e w).
Proof. intros Hf. unfold gp. by rewrite Hf. Qed.

Lemma gp_done {A} tool args (sem : gmap string D → option (A * gmap string D)) w a ws :
  faults w (length (history w)) tool = None →
  sem (workspace w) = Some (a, ws) →
  gp tool args sem w = (Returns a, succeeded tool args ws w).
Proof. intros Hf Hs. unfold gp. by rewrite Hf, Hs. Qed.

Lemma gp_undefined {A} tool args (sem : gmap string D → option (A * gmap string D)) w :
  faults w (length (history w)) tool = None →
  sem (workspace w) = None →
  gp tool args sem w
  = (Raises (ExecuteError tool), failed tool args (ExecuteError tool) w).
Proof. intros Hf Hs. unfold gp. by rewrite Hf, Hs. Qed.

(** Every tool call adds exactly one entry to the log, and never
    diverges. *)
Lemma gp_cases {A} tool args (sem : gmap string D → option (A * gmap string D)) w :
  (∃ a ws, gp tool args sem w = (Returns a, succeeded tool args ws w)
           ∧ sem (workspace w) = Some (a, ws)
           ∧ faults w (length (history w)) tool = None)
  ∨ (∃ e, gp tool args sem w = (Raises e, failed tool args e w)).
Proof.
  unfold gp. destruct (faults w _ tool) as [e|] eqn:Hf; [right; eauto|].
  destruct (sem _) as [[a ws]|] eqn:Hs; [left|right]; eauto.
Qed.
End ToolCalls.

(** ** Helper.garbagePickup *)

Section GarbagePickup.
Context {D : Type}.
Implicit Types w : World D.

(** What the log shows of a deletion. *)
Definition deletion (t : string) : string * list string :=
  ("Delete_management", [t]).
Definition call_of (ev : Event) : string * list string :=
  (ev_tool ev, ev_args ev).

(** One guarded deletion returns whatever the engine does. *)
Lemma guarded_delete t w :
  ∃ w' ev, try_except (Delete_management t) (λ _, mret tt) w = (Returns tt, w')
    ∧ history w' = history w ++ [ev] ∧ call_of ev = deletion t
    ∧ ev_error ev = (match faults w (length (history w)) "Delete_management" with
                     | Some e => Some e
                     | None => match workspace w !! t with
                               | Some _ => None
                               | None => Some (ExecuteError "Delete_management")
                               end
                     end)
    ∧ workspace w' = (match ev_error ev with
                      | Some _ => workspace w
                      | None => delete t (workspace w)
                      end)
    ∧ faults w' = faults w ∧ console w' = console w ∧ stdout w' = stdout w.
Proof.
  unfold try_except, Delete_management, gp.
  destruct (faults w _ _) as [e|]; [by eexists _, _|].
  destruct (workspace w !! t); by eexists _, _.
Qed.

(** C3. [garbagePickup] attempts one deletion per element of the list, in
    the order of the list, whatever the outcome of the earlier ones; it
    writes nothing to the console, only ever removes datasets, and
    returns normally. *)
Theorem garbagePickup_never_raises (trashList : list string) w :
  ∃ w' evs,
    Helper.garbagePickup trashList w = (Returns tt, w')
    ∧ history w' = history w ++ evs
    ∧ call_of <$> evs = deletion <$> trashList
    ∧ workspace w' ⊆ workspace w
    ∧ console w' = console w ∧ stdout w' = stdout w.
Proof.
  unfold Helper.garbagePickup.
  revert w. induction trashList as [|t ts IH]; intros w.
  - exists w, []. by rewrite app_nil_r.
  - destruct (guarded_delete t w) as (w1 & ev & Hrun & Hh & Hc & _ & Hws & _ & Hco & Hso).
    destruct (IH w1) as (w' & evs & Hrun' & Hh' & Hcs & Hsub & Hco' & Hso').
    exists w', (ev :: evs). simpl. unfold bind. rewrite Hrun.
    split_and!; [done| |by f_equal| |congruence|congruence].
    + by rewrite Hh', Hh, <-app_assoc.
    + etrans; [done|]. rewrite Hws. destruct (ev_error ev); [done|apply delete_subseteq].
Qed.

(** The deletion of an element that can be deleted takes effect even when
    the deletions before it have failed. *)
Lemma garbagePickup_after_failure (missing t : string) w :
  workspace w !! missing = None → is_Some (workspace w !! t) →
  faults w = (λ _ _, None) →
  ∃ w', Helper.garbagePickup [missing; t] w = (Returns tt, w')
        ∧ workspace w' !! t = None
        ∧ ev_error <$> drop (length (history w)) (history w')
          = [Some (ExecuteError "Delete_management"); None].
Proof.
  intros Hm [d Ht] Hf. unfold Helper.garbagePickup. simpl.
  unfold bind, try_except, Delete_management, gp. rewrite Hf, Hm. simpl.
  rewrite Ht. simpl. rewrite Hf. simpl.
  eexists. split_and!; [done|simpl; apply lookup_delete_eq|].
  simpl. by rewrite <-app_assoc, drop_app_length.
Qed.
End GarbagePickup.

(** ** Helper.CleanFeatures *)

Section CleanFeatures.
Context {D : Type} `{!VectorTools D}.
Variables inFeats outFeats : string.
Implicit Types w : World D.

(** What the log shows of a call: the tool, its arguments, and whether
    the call succeeded. *)
Definition outline (ev : Event) : string * list string * bool :=
  (ev_tool ev, ev_args ev, bool_decide (ev_error ev = None)).

Definition repair_ok : string * list string * bool :=
  ("RepairGeometry_management", [inFeats; "DELETE_NULL"], true).
Definition attempt (ok : bool) : string * list string * bool :=
  ("MultipartToSinglepart_management", [inFeats; outFeats], ok).
Definition copy_ok : string * list string * bool :=
  ("CopyFeatures_management", [inFeats; outFeats], true).

(** [k] failed conversions, each followed by a repair. *)
Definition failed_rounds (k : nat) : list (string * list string * bool) :=
  mjoin (replicate k [attempt false; repair_ok]).

(** The loop started with [left] tries to go ends after [k] failures
    either in a conversion that succeeds or, when no try is left, in a
    plain copy. *)
Definition ending (left k : nat) : list (string * list string * bool) :=
  if decide (k < left)%nat then [attempt true] else [copy_ok].

Definition converted (left k : nat) (d : D) : D :=
  if decide (k < left)%nat then multipart_to_singlepart (Nat.iter k repair_geometry d)
  else Nat.iter k repair_geometry d.

(** The engine fails at most in the conversion. *)
Definition only_conversion_fails w : Prop :=
  ∀ n tool, tool ≠ "MultipartToSinglepart_management" → faults w n tool = None.

Lemma CleanFeatures_loop_runs (fuel : nat) : ∀ (counter : Z) w d,
  1 ≤ counter ≤ 10 → (Z.to_nat (11 - counter) ≤ fuel)%nat →
  workspace w !! inFeats = Some d → only_conversion_fails w →
  ∃ (k : nat) w' evs,
    (k ≤ Z.to_nat (11 - counter))%nat
    ∧ Helper.CleanFeatures_loop fuel inFeats outFeats counter w = (Returns 11, w')
    ∧ history w' = history w ++ evs
    ∧ outline <$> evs = failed_rounds k ++ ending (Z.to_nat (11 - counter)) k
    ∧ workspace w' !! outFeats = Some (converted (Z.to_nat (11 - counter)) k d)
    ∧ faults w' = faults w.
Proof.
  induction fuel as [|fuel IH]; intros counter w d Hc Hfuel Hin Hplan; [lia|].
  unfold Helper.CleanFeatures_loop. cbn [while_].
  replace (counter <=? 10) with true by (symmetry; apply Z.leb_le; lia).
  fold (Helper.CleanFeatures_loop fuel inFeats outFeats).
  unfold bind at 1. unfold try_except at 1.
  rewrite run_bind. unfold MultipartToSinglepart_management at 1.
  destruct (gp_cases "MultipartToSinglepart_management" [inFeats; outFeats]
    (λ ws, d ← ws !! inFeats; Some ((), <[outFeats:=multipart_to_singlepart d]> ws)) w)
    as [(a & ws & -> & Hsem & _)|(e & ->)].
  - (* the conversion succeeds *)
    rewrite Hin in Hsem. simplify_eq/=.
    exists 0%nat. eexists _, [_]. unfold Helper.CleanFeatures_loop.
    split; [lia|]. split; [destruct fuel; done|]. split; [done|].
    unfold ending, converted. rewrite !decide_True by lia.
    split; [done|]. split; [apply lookup_insert_eq|done].
  - (* the conversion fails: messages, repair, and possibly the copy *)
    py_unfold. unfold RepairGeometry_management, gp. simpl.
    rewrite (Hplan _ "RepairGeometry_management") by done. rewrite Hin. simpl.
    destruct (decide (counter + 1 = 11)) as [Hlast|Hmore].
    + unfold CopyFeatures_management, gp. simpl.
      rewrite (Hplan _ "CopyFeatures_management") by done.
      rewrite lookup_insert_eq. simpl.
      exists 1%nat. eexists _, [_; _; _]. unfold Helper.CleanFeatures_loop.
      split; [lia|]. split; [destruct fuel; simpl; rewrite Hlast; done|].
      split; [simpl; by rewrite <-!app_assoc|].
      unfold ending, converted. rewrite !decide_False by lia.
      split; [done|]. split; [apply lookup_insert_eq|done].
    + simpl.
      match goal with |- context [Helper.CleanFeatures_loop fuel _ _ _ ?w1] =>
        destruct (IH (counter + 1) w1 (repair_geometry d))
          as (k & w' & evs & Hk & Hrun & Hh & Ho & Hout & Hf);
          [lia|lia|apply lookup_insert_eq|done|] end.
      exists (S k). eexists w', (_ :: _ :: evs).
      split_and!; [lia|done| | | |done].
      * rewrite Hh. simpl. by rewrite <-!app_assoc.
      * rewrite !fmap_cons, Ho. unfold failed_rounds, ending. simpl. do 3 f_equal.
        replace (Z.to_nat (11 - counter)) with (S (Z.to_nat (11 - (counter + 1)))) by lia.
        repeat case_decide; done || lia.
      * rewrite Hout. f_equal. unfold converted.
        replace (Z.to_nat (11 - counter)) with (S (Z.to_nat (11 - (counter + 1)))) by lia.
        rewrite Nat.iter_succ_r. repeat case_decide; done || lia.
Qed.
End CleanFeatures.

(** ** Where exceptions go *)

Section Propagation.
Context {D : Type}.
Implicit Types w : World D.

(** The tools whose failures the scripts catch: the conversion retried in
    [CleanFeatures] and the deletions of [garbagePickup]. *)
Definition caught (tool : string) : Prop :=
  tool = "MultipartToSinglepart_management" ∨ tool = "Delete_management".

(** A call that did not fail, or whose failure was caught. *)
Definition harmless (ev : Event) : Prop :=
  ev_error ev = None ∨ caught (ev_tool ev).

(** The entries that a block added to the log. *)
Definition new_events w w' : list Event :=
  drop (length (history w)) (history w').

(** How the outcome of a block relates to the calls it made: every call
    but the last is harmless, and a block raises exactly the exception of
    its last call.  [P] restricts the tool of a call that raises. *)
Inductive ends (P : string → Prop) {A} : Outcome A → list Event → Prop :=
| ends_returns a evs : Forall harmless evs → ends P (Returns a) evs
| ends_raises e ev evs :
    Forall harmless evs → ev_error ev = Some e → P (ev_tool ev) →
    ends P (Raises e) (evs ++ [ev])
| ends_diverges evs : Forall harmless evs → ends P Diverges evs.

Definition tracked (P : string → Prop) {A} (m : Py (World D) A) : Prop :=
  ∀ w, ∃ evs, history (m w).2 = history w ++ evs ∧ ends P (m w).1 evs.

(** A block whose failures all reach its caller. *)
Definition propagates {A} (m : Py (World D) A) : Prop := tracked (λ _, True) m.

(** A block that fails only in calls that are caught. *)
Definition fails_quietly {A} (m : Py (World D) A) : Prop := tracked caught m.

Lemma ends_app P {A} (r : Outcome A) evs1 evs2 :
  Forall harmless evs1 → ends P r evs2 → ends P r (evs1 ++ evs2).
Proof.
  intros H1 H2. destruct H2.
  - constructor. by apply Forall_app.
  - rewrite app_assoc. constructor; [by apply Forall_app|done..].
  - constructor. by apply Forall_app.
Qed.

Lemma ends_weaken (P Q : string → Prop) {A} (r : Outcome A) evs :
  (∀ t, P t → Q t) → ends P r evs → ends Q r evs.
Proof. intros HPQ []; constructor; auto. Qed.

Lemma tracked_silent P {A} (m : Py (World D) A) :
  (∀ w, ∃ a, (m w).1 = Returns a ∧ history (m w).2 = history w) → tracked P m.
Proof.
  intros Hm w. destruct (Hm w) as (a & -> & ->). exists [].
  split; [by rewrite app_nil_r|by constructor].
Qed.

Lemma tracked_ret P {A} (a : A) : tracked P (mret a : Py (World D) A).
Proof. apply tracked_silent. intros w. by exists a. Qed.

Lemma tracked_console P severity msg : tracked P (add_to_console (D:=D) severity msg).
Proof. apply tracked_silent. intros w. by exists tt. Qed.

Lemma tracked_print P msg : tracked P (print (D:=D) msg).
Proof. apply tracked_silent. intros w. by exists tt. Qed.

Lemma tracked_set_env P name value : tracked P (set_env (D:=D) name value).
Proof. apply tracked_silent. intros w. by exists tt. Qed.

Lemma tracked_get_env P name : tracked P (get_env (D:=D) name).
Proof. apply tracked_silent. intros w. by eexists. Qed.

Lemma tracked_GetMessages P severity : tracked P (GetMessages (D:=D) severity).
Proof. apply tracked_silent. intros w. by eexists. Qed.

Lemma tracked_bind P {A B} (m : Py (World D) A) (k : A → Py (World D) B) :
  tracked P m → (∀ a, tracked P (k a)) → tracked P (m ≫= k).
Proof.
  intros Hm Hk w. rewrite run_bind.
  destruct (Hm w) as (evs1 & Hh1 & He1).
  destruct (m w) as [[a|e|] w1]; simpl in *.
  - destruct (Hk a w1) as (evs2 & Hh2 & He2).
    exists (evs1 ++ evs2). split; [by rewrite Hh2, Hh1, app_assoc|].
    inversion He1; subst. by apply ends_app.
  - exists evs1. split; [done|]. inversion He1; subst. by constructor.
  - exists evs1. split; [done|]. inversion He1; subst. by constructor.
Qed.

Lemma tracked_gp P {A} tool args (sem : gmap string D → option (A * gmap string D)) :
  P tool → tracked P (gp tool args sem).
Proof.
  intros HP w.
  destruct (gp_cases tool args sem w) as [(a & ws & -> & _)|(e & ->)]; simpl.
  - eexists [_]. split; [done|]. constructor. repeat constructor.
  - eexists [_]. split; [done|]. by apply (ends_raises P e _ []).
Qed.

Lemma tracked_gp_env P {A} tool args
    (sem : gmap string (D + string) → gmap string D → option (A * gmap string D)) :
  P tool → tracked P (gp_env tool args sem).
Proof. intros HP w. by apply tracked_gp. Qed.

(** [try]/[except] around a block that fails quietly: the handler decides. *)
Lemma tracked_try P {A} (body : Py (World D) A) handler :
  fails_quietly body → (∀ e, tracked P (handler e)) →
  tracked P (try_except body handler).
Proof.
  intros Hb Hh w. unfold try_except.
  destruct (Hb w) as (evs1 & Hh1 & He1).
  destruct (body w) as [[a|e|] w1]; simpl in *.
  - exists evs1. split; [done|]. inversion He1; subst. by constructor.
  - destruct (Hh e w1) as (evs2 & Hh2 & He2).
    exists (evs1 ++ evs2). split; [by rewrite Hh2, Hh1, app_assoc|].
    apply ends_app; [|done]. inversion He1; subst.
    apply Forall_app. split; [done|]. apply Forall_singleton. by right.
  - exists evs1. split; [done|]. inversion He1; subst. by constructor.
Qed.

Lemma tracked_for P {A S} (xs : list A) (body : A → S → Py (World D) S) s :
  (∀ x s, tracked P (body x s)) → tracked P (for_ xs body s).
Proof.
  intros Hb. revert s. induction xs as [|x xs IH]; intros s; simpl.
  - apply (tracked_ret P).
  - apply (tracked_bind P); auto.
Qed.

Lemma tracked_while P {S} fuel cond (body : S → Py (World D) S) s :
  (∀ s, tracked P (body s)) → tracked P (while_ fuel cond body s).
Proof.
  intros Hb. revert s. induction fuel as [|fuel IH]; intros s; simpl.
  - destruct (cond s); [|apply (tracked_ret P)].
    intros w. exists []. split; [by rewrite app_nil_r|by constructor].
  - destruct (cond s); [|apply (tracked_ret P)].
    apply (tracked_bind P); auto.
Qed.

(** What [propagates] says of a run: a call that failed, other than a
    call that is caught, is the last call and the block raises its
    exception. *)
Lemma propagates_failure {A} (m : Py (World D) A) w ev e :
  propagates m →
  ev ∈ new_events w (m w).2 → ev_error ev = Some e → ¬ caught (ev_tool ev) →
  (m w).1 = Raises e ∧ last (new_events w (m w).2) = Some ev.
Proof.
  intros Hm Hev He Hnc. destruct (Hm w) as (evs & Hh & Hends).
  unfold new_events in *. rewrite Hh, drop_app_length in *.
  assert (Hbad : ¬ harmless ev) by (intros [?|?]; congruence).
  inversion Hends as [a evs' Hall|e' ev' evs' Hall He' _|evs' Hall]; subst.
  - rewrite Forall_forall in Hall. naive_solver.
  - rewrite Forall_forall in Hall. apply elem_of_app in Hev as [?|Hev]; [naive_solver|].
    apply list_elem_of_singleton in Hev as ->. rewrite last_snoc.
    split; [congruence|done].
  - rewrite Forall_forall in Hall. naive_solver.
Qed.
End Propagation.

(** Decomposes a block into its calls. *)
Ltac track :=
  repeat first
    [ apply tracked_for; intros ? ?
    | apply tracked_while; intros ?
    | apply tracked_ret
    | apply tracked_console
    | apply tracked_print
    | apply tracked_set_env
    | apply tracked_get_env
    | apply tracked_GetMessages
    | apply tracked_gp; first [exact I | by left | by right]
    | apply tracked_gp_env; first [exact I | by left | by right]
    | apply tracked_bind; [|intros ?]
    | apply tracked_try; [unfold fails_quietly|intros ?]
    | case_decide
    | case_match ].

Section HelperPropagates.
Context {D : Type} `{!VectorTools D}.

Lemma printMsg_tracked P msg : tracked P (Helper.printMsg (D:=D) msg).
Proof. unfold Helper.printMsg, AddMessage. track. Qed.

Lemma garbagePickup_propagates trashList :
  propagates (Helper.garbagePickup (D:=D) trashList).
Proof.
  unfold propagates, Helper.garbagePickup, Delete_management. track.
Qed.

Lemma CleanFeatures_propagates inFeats outFeats :
  propagates (Helper.CleanFeatures inFeats outFeats).
Proof.
  unfold propagates, Helper.CleanFeatures, Helper.CleanFeatures_loop,
    RepairGeometry_management, MultipartToSinglepart_management,
    CopyFeatures_management, AddMessage.
  track.
Qed.

Lemma CleanClip_propagates inFeats clipFeats outFeats scratchGDB :
  propagates (Helper.CleanClip inFeats clipFeats outFeats scratchGDB).
Proof.
  unfold Helper.CleanClip.
  pose proof (CleanFeatures_propagates) as HCF.
  pose proof (garbagePickup_propagates) as HGP.
  unfold propagates, Clip_analysis in *. track; auto.
Qed.

Lemma CleanErase_propagates inFeats eraseFeats outFeats scratchGDB :
  propagates (Helper.CleanErase inFeats eraseFeats outFeats scratchGDB).
Proof.
  unfold Helper.CleanErase.
  pose proof (CleanFeatures_propagates) as HCF.
  pose proof (garbagePickup_propagates) as HGP.
  unfold propagates, Erase_analysis in *. track; auto.
Qed.
End HelperPropagates.

Section SelectTopPropagates.
Context `{Number} {G : Type}.
Context `{!GridTools G (gmap string (Dataset G + string))}.

Lemma SelectTopAgr_propagates in_FarmAgrVal in_ConsLands out_Polys out_Scratch :
  propagates (SelectTop.SelectTopAgr (G:=G) in_FarmAgrVal in_ConsLands out_Polys out_Scratch).
Proof.
  unfold propagates, SelectTop.SelectTopAgr.
  repeat (apply tracked_bind; [|intros ?]);
    try apply printMsg_tracked; try apply tracked_ret;
    try apply tracked_set_env; try apply tracked_get_env;
    try (destruct in_FarmAgrVal; [|apply tracked_ret]);
    by (apply tracked_gp || apply tracked_gp_env).
Qed.
End SelectTopPropagates.


(** ** Helper.CleanFeatures: the bounded retry *)

Section CleanFeaturesRetry.
Context {D : Type} `{!VectorTools D}.
Implicit Types w : World D.

(** C2, as amended.  When the input features exist and the engine fails
    at most in the conversion, [CleanFeatures] repairs the input, then
    tries the conversion until it succeeds, at most ten times, with a
    repair after each failure.  After [k < 10] failures the conversion
    has succeeded, nothing runs after it, and [outFeats] holds the
    converted features; after ten failures the repaired input is copied to
    [outFeats].  In both cases [CleanFeatures] returns [outFeats]. *)
Theorem CleanFeatures_retries (inFeats outFeats : string) w (d : D) :
  workspace w !! inFeats = Some d →
  only_conversion_fails w →
  ∃ (k : nat) w' evs,
    (k ≤ 10)%nat
    ∧ Helper.CleanFeatures inFeats outFeats w = (Returns outFeats, w')
    ∧ history w' = history w ++ evs
    ∧ outline <$> evs
      = repair_ok inFeats :: failed_rounds inFeats outFeats k
        ++ ending inFeats outFeats 10 k
    ∧ workspace w' !! outFeats = Some (converted 10 k (repair_geometry d)).
Proof.
  intros Hin Hplan. unfold Helper.CleanFeatures.
  rewrite run_bind. unfold RepairGeometry_management at 1, gp.
  rewrite (Hplan _ "RepairGeometry_management") by done. rewrite Hin. simpl.
  match goal with |- context [(_ ≫= _) ?w1] =>
    destruct (CleanFeatures_loop_runs inFeats outFeats Helper.loop_fuel 1 w1
                (repair_geometry d))
      as (k & w' & evs & Hk & Hrun & Hh & Ho & Hout & _);
      [lia|unfold Helper.loop_fuel; lia|apply lookup_insert_eq|done|] end.
  exists k, w'. eexists (_ :: evs). rewrite run_bind, Hrun.
  split; [lia|]. split; [done|]. split; [by rewrite Hh; simpl; rewrite <-app_assoc|].
  split; [by rewrite fmap_cons, Ho|done].
Qed.

(** The loop does not depend on its fuel: any fuel of ten or more gives
    the same run. *)
Lemma CleanFeatures_fuel (inFeats outFeats : string) w (d : D) (fuel : nat) :
  workspace w !! inFeats = Some d → only_conversion_fails w → (10 ≤ fuel)%nat →
  (Helper.CleanFeatures_loop fuel inFeats outFeats 1 w).1 = Returns 11.
Proof.
  intros Hin Hplan Hfuel.
  destruct (CleanFeatures_loop_runs inFeats outFeats fuel 1 w d)
    as (k & w' & evs & _ & -> & _); [lia|lia|done|done|done].
Qed.
End CleanFeaturesRetry.

(** A run of [CleanFeatures] in which the first two conversions fail. *)
Lemma CleanFeatures_retries_witness :
  ∃ (k : nat) w' evs,
    (k ≤ 10)%nat
    ∧ Helper.CleanFeatures "parcels" "single"
        (Sample.session {["parcels" := Sample.parcels]}
           (Sample.fails_early "MultipartToSinglepart_management" 4))
      = (Returns "single", w')
    ∧ history w' = [] ++ evs
    ∧ outline <$> evs
      = repair_ok "parcels" :: failed_rounds "parcels" "single" k
        ++ ending "parcels" "single" 10 k
    ∧ workspace w' !! "single"
      = Some (converted 10 k (repair_geometry Sample.parcels)).
Proof.
  apply (CleanFeatures_retries "parcels" "single"
           (Sample.session {["parcels" := Sample.parcels]}
              (Sample.fails_early "MultipartToSinglepart_management" 4))).
  - reflexivity.
  - intros n tool Htool. unfold Sample.session, Sample.fails_early. simpl.
    destruct (decide (tool = "MultipartToSinglepart_management" ∧ (n < 4)%nat))
      as [[Heq _]|_]; [contradiction|reflexivity].
Defined.

(** C2 as stated fails: on input features that do not exist the first
    repair raises, no conversion is tried and nothing is returned. *)
Lemma CleanFeatures_raises_on_missing_input :
  ¬ (∀ (w : World Sample.Features) (inFeats outFeats : string),
       ∃ w', Helper.CleanFeatures inFeats outFeats w = (Returns outFeats, w')).
Proof.
  intros Hclaim.
  destruct (Hclaim (Sample.session ∅ Sample.no_faults) "parcels" "single")
    as (w' & Hrun).
  vm_compute in Hrun. discriminate Hrun.
Qed.

(** ** Engine failures reach the caller *)

(** Every call of block [m] that fails, other than a call that is caught,
    ends [m]: it is the last call of [m], and [m] raises its exception. *)
Definition reaches_caller {D A} (m : Py (World D) A) : Prop :=
  ∀ (w : World D) ev e,
    ev ∈ new_events w (m w).2 → ev_error ev = Some e → ¬ caught (ev_tool ev) →
    (m w).1 = Raises e ∧ last (new_events w (m w).2) = Some ev.

(** C5. In [CleanClip], [CleanErase] and [SelectTopAgr] the failure of a
    call into the engine, other than the conversion retried in
    [CleanFeatures] and the deletions of [garbagePickup], is raised
    unchanged to the caller, and nothing runs after it. *)
Theorem engine_failures_propagate :
  (∀ D (VT : VectorTools D) inFeats clipFeats outFeats scratchGDB,
     reaches_caller (Helper.CleanClip (D:=D) inFeats clipFeats outFeats scratchGDB))
  ∧ (∀ D (VT : VectorTools D) inFeats eraseFeats outFeats scratchGDB,
       reaches_caller (Helper.CleanErase (D:=D) inFeats eraseFeats outFeats scratchGDB))
  ∧ (∀ (N : Number) G (GT : GridTools G (gmap string (Dataset G + string)))
       in_FarmAgrVal in_ConsLands out_Polys out_Scratch,
       reaches_caller
         (SelectTop.SelectTopAgr (G:=G) in_FarmAgrVal in_ConsLands out_Polys out_Scratch)).
Proof.
  split_and!; intros; intros w ev e; apply propagates_failure.
  - apply CleanClip_propagates.
  - apply CleanErase_propagates.
  - apply SelectTopAgr_propagates.
Qed.

(** A run of [CleanClip] in which the conversion fails and then the repair
    fails: the failure of the repair ends the call. *)
Lemma engine_failures_propagate_witness :
  let m := Helper.CleanClip "parcels" "county" "out" "in_memory" in
  let w := Sample.session {["parcels" := Sample.parcels; "county" := Sample.county]}
             (λ n tool, if decide (2 ≤ n)%nat then Some (ExecuteError tool) else None) in
  let ev := mkEvent "RepairGeometry_management" ["in_memory\tmpClip"; "DELETE_NULL"]
              (Some (ExecuteError "RepairGeometry_management")) in
  (m w).1 = Raises (ExecuteError "RepairGeometry_management")
  ∧ last (new_events w (m w).2) = Some ev.
Proof.
  intros m w ev.
  refine (proj1 engine_failures_propagate Sample.Features Sample.sample_tools
            "parcels" "county" "out" "in_memory" w ev
            (ExecuteError "RepairGeometry_management") _ _ _).
  - vm_compute. do 3 apply list_elem_of_further. apply list_elem_of_here.
  - reflexivity.
  - intros [Hc|Hc]; discriminate Hc.
Defined.

(** ** What a block leaves in the workspace *)

Section Frames.
Context {D : Type}.
Implicit Types w : World D.

(** Block [m] keeps relation [R] between the state it starts from and the
    state it leaves, however it ends. *)
Definition keeps (R : relation (World D)) {A} (m : Py (World D) A) : Prop :=
  ∀ w, R w (m w).2.

(** Only the datasets at the paths [S] are written, no dataset is removed,
    and the fault plan stays as it is. *)
Definition writes_only (S : gset string) : relation (World D) := λ w w',
  faults w' = faults w
  ∧ (∀ p, p ∉ S → workspace w' !! p = workspace w !! p)
  ∧ (∀ p, is_Some (workspace w !! p) → is_Some (workspace w' !! p)).

#[global] Instance writes_only_preorder S : PreOrder (writes_only S).
Proof.
  split.
  - by intros w.
  - intros w1 w2 w3 (Hf1 & Hk1 & Hs1) (Hf2 & Hk2 & Hs2). split_and!.
    + congruence.
    + intros p Hp. rewrite Hk2, Hk1; done.
    + auto.
Qed.

Lemma keeps_ret R `{!Reflexive R} {A} (a : A) : keeps R (mret a).
Proof. by intros w. Qed.

Lemma keeps_bind R `{!PreOrder R} {A B} (m : Py (World D) A) (k : A → Py (World D) B) :
  keeps R m → (∀ a, keeps R (k a)) → keeps R (m ≫= k).
Proof.
  intros Hm Hk w. rewrite run_bind. specialize (Hm w).
  destruct (m w) as [[a|e|] w1]; simpl in *; [|done..].
  etrans; [done|]. apply Hk.
Qed.

Lemma keeps_try R `{!PreOrder R} {A} (body : Py (World D) A) handler :
  keeps R body → (∀ e, keeps R (handler e)) → keeps R (try_except body handler).
Proof.
  intros Hb Hh w. unfold try_except. specialize (Hb w).
  destruct (body w) as [[a|e|] w1]; simpl in *; [done| |done].
  etrans; [done|]. apply Hh.
Qed.

Lemma keeps_while R `{!PreOrder R} {S} fuel cond (body : S → Py (World D) S) s :
  (∀ s, keeps R (body s)) → keeps R (while_ fuel cond body s).
Proof.
  intros Hb. revert s. induction fuel as [|fuel IH]; intros s; simpl.
  - destruct (cond s); by intros w.
  - destruct (cond s); [|by intros w]. apply keeps_bind; auto.
Qed.

Lemma writes_only_console S severity msg :
  keeps (writes_only S) (add_to_console severity msg).
Proof. by intros w. Qed.

Lemma writes_only_gp S {A} tool args (sem : gmap string D → option (A * gmap string D)) :
  (∀ ws a ws', sem ws = Some (a, ws') →
     (∀ p, p ∉ S → ws' !! p = ws !! p) ∧ (∀ p, is_Some (ws !! p) → is_Some (ws' !! p))) →
  keeps (writes_only S) (gp tool args sem).
Proof.
  intros Hsem w.
  destruct (gp_cases tool args sem w) as [(a & ws & -> & Hs & _)|(e & ->)]; [|done].
  destruct (Hsem _ _ _ Hs). done.
Qed.

(** Writing one dataset of [S]. *)
Lemma insert_frame (S : gset string) (q : string) (d : D) (ws : gmap string D) :
  q ∈ S →
  (∀ p, p ∉ S → <[q := d]> ws !! p = ws !! p)
  ∧ (∀ p, is_Some (ws !! p) → is_Some (<[q := d]> ws !! p)).
Proof.
  intros Hq. split.
  - intros p Hp. apply lookup_insert_ne. set_solver.
  - intros p Hp. rewrite lookup_insert_is_Some. destruct (decide (q = p)); auto.
Qed.
End Frames.

Section CleanFeaturesFrame.
Context {D : Type} `{!VectorTools D}.
Implicit Types w : World D.

Lemma CleanFeatures_writes_only inFeats outFeats :
  keeps (writes_only {[inFeats; outFeats]}) (Helper.CleanFeatures (D:=D) inFeats outFeats).
Proof.
  assert (Hrepair : keeps (writes_only {[inFeats; outFeats]})
                      (RepairGeometry_management (D:=D) inFeats "DELETE_NULL")).
  { apply writes_only_gp. intros ws a ws' Hs.
    destruct (ws !! inFeats); simplify_eq/=. apply insert_frame. set_solver. }
  unfold Helper.CleanFeatures, Helper.CleanFeatures_loop.
  apply keeps_bind; [apply _|done|intros _].
  apply keeps_bind; [apply _| |intros _; by apply keeps_ret].
  apply keeps_while; [apply _|]. intros counter.
  apply keeps_try; [apply _| |intros _].
  - apply keeps_bind; [apply _| |intros _; by apply keeps_ret].
    apply writes_only_gp. intros ws a ws' Hs.
    destruct (ws !! inFeats); simplify_eq/=. apply insert_frame. set_solver.
  - repeat (apply keeps_bind; [apply _| |intros _]);
      try apply writes_only_console; try done; try by apply keeps_ret.
    case_decide; [|by apply keeps_ret].
    apply keeps_bind; [apply _|apply writes_only_console|intros _].
    apply writes_only_gp. intros ws a ws' Hs.
    destruct (ws !! inFeats); simplify_eq/=. apply insert_frame. set_solver.
Qed.

(** When the loop returns, [outFeats] has been written. *)
Lemma CleanFeatures_loop_returns inFeats outFeats (fuel : nat) :
  ∀ (counter : Z) w r w',
    counter ≤ 10 →
    Helper.CleanFeatures_loop fuel inFeats outFeats counter w = (Returns r, w') →
    is_Some (workspace w' !! outFeats).
Proof.
  induction fuel as [|fuel IH]; intros counter w r w' Hc;
    unfold Helper.CleanFeatures_loop; cbn [while_];
    replace (counter <=? 10) with true by (symmetry; apply Z.leb_le; lia);
    [done|].
  fold (Helper.CleanFeatures_loop fuel inFeats outFeats).
  unfold bind at 1. unfold try_except at 1. rewrite run_bind.
  unfold MultipartToSinglepart_management at 1.
  destruct (gp_cases "MultipartToSinglepart_management" [inFeats; outFeats]
    (λ ws, d ← ws !! inFeats; Some ((), <[outFeats:=multipart_to_singlepart d]> ws)) w)
    as [(a & ws & -> & Hsem & _)|(e & ->)].
  - destruct (workspace w !! inFeats) as [d|]; simplify_eq/=.
    unfold Helper.CleanFeatures_loop. destruct fuel; simpl; intros [= _ <-]; simpl;
      rewrite lookup_insert_eq; eauto.
  - py_unfold.
    destruct (RepairGeometry_management inFeats "DELETE_NULL" _)
      as [[[]|e'|] w1] eqn:Hrep; [|done..].
    destruct (decide (counter + 1 = 11)) as [Hlast|Hmore].
    + destruct (gp_cases "CopyFeatures_management" [inFeats; outFeats]
        (λ ws, d ← ws !! inFeats; Some ((), <[outFeats:=d]> ws))
        (mkWorld (workspace w1) (env w1) (faults w1) (history w1) (gp_messages w1)
           (console w1 ++ [(MESSAGE,
              "Polygon explosion problem could not be resolved.  Copying features.")])
           (stdout w1)))
        as [(a & ws & Hrun & Hsem & _)|(e' & Hrun)];
        unfold CopyFeatures_management; rewrite Hrun; [|done].
      simpl in Hsem. destruct (workspace w1 !! inFeats) as [d|]; simplify_eq/=.
      unfold Helper.CleanFeatures_loop. destruct fuel; simpl; rewrite Hlast; simpl;
        intros [= _ <-]; simpl; rewrite lookup_insert_eq; eauto.
    + simpl. apply IH. lia.
Qed.
End CleanFeaturesFrame.

(** ** Helper.CleanClip and Helper.CleanErase: the temporary dataset *)

Section Cleanup.
Context {D : Type} `{!VectorTools D}.
Implicit Types w : World D.

Lemma CleanFeatures_returns inFeats outFeats w r w' :
  Helper.CleanFeatures inFeats outFeats w = (Returns r, w') →
  r = outFeats ∧ is_Some (workspace w' !! outFeats).
Proof.
  unfold Helper.CleanFeatures. rewrite !run_bind.
  destruct (RepairGeometry_management inFeats "DELETE_NULL" w) as [[[]|e|] w1]; [|done..].
  rewrite run_bind.
  destruct (Helper.CleanFeatures_loop Helper.loop_fuel inFeats outFeats 1 w1)
    as [[c|e|] w2] eqn:Hloop; [|done..].
  intros [= <- <-]. split; [done|].
  eapply (CleanFeatures_loop_returns inFeats outFeats Helper.loop_fuel 1); [lia|done].
Qed.

(** A call of a tool other than the deletion. *)
Definition not_deletion (ev : Event) : Prop := ev_tool ev ≠ "Delete_management".

(** Between two states of a session no deletion was called. *)
Definition deletes_nothing : relation (World D) := λ w w',
  ∃ evs, history w' = history w ++ evs ∧ Forall not_deletion evs.

#[local] Instance deletes_nothing_preorder : PreOrder deletes_nothing.
Proof.
  split.
  - intros w. exists []. by rewrite app_nil_r.
  - intros w1 w2 w3 (evs1 & Hh1 & Hn1) (evs2 & Hh2 & Hn2). exists (evs1 ++ evs2).
    split; [by rewrite Hh2, Hh1, app_assoc|by apply Forall_app].
Qed.

Lemma deletes_nothing_new_events w w' :
  deletes_nothing w w' → Forall not_deletion (new_events w w').
Proof.
  intros (evs & Hh & Hn). unfold new_events. by rewrite Hh, drop_app_length.
Qed.

Lemma deletes_nothing_ret {A} (a : A) : keeps deletes_nothing (mret a : Py (World D) A).
Proof. intros w. exists []. by rewrite app_nil_r. Qed.

Lemma deletes_nothing_console severity msg :
  keeps deletes_nothing (add_to_console (D:=D) severity msg).
Proof. intros w. exists []. by rewrite app_nil_r. Qed.

Lemma deletes_nothing_gp {A} tool args (sem : gmap string D → option (A * gmap string D)) :
  tool ≠ "Delete_management" → keeps deletes_nothing (gp tool args sem).
Proof.
  intros Htool w.
  destruct (gp_cases tool args sem w) as [(a & ws & -> & _)|(e & ->)];
    eexists [_]; (split; [done|]); by apply Forall_singleton.
Qed.

Lemma CleanFeatures_deletes_nothing inFeats outFeats :
  keeps deletes_nothing (Helper.CleanFeatures (D:=D) inFeats outFeats).
Proof.
  unfold Helper.CleanFeatures, Helper.CleanFeatures_loop, RepairGeometry_management,
    MultipartToSinglepart_management, CopyFeatures_management, AddMessage.
  apply keeps_bind; [apply _|by apply deletes_nothing_gp|intros _].
  apply keeps_bind; [apply _| |intros _; apply deletes_nothing_ret].
  apply keeps_while; [apply _|]. intros counter.
  apply keeps_try; [apply _| |intros _].
  - apply keeps_bind; [apply _|by apply deletes_nothing_gp|intros _; apply deletes_nothing_ret].
  - repeat (apply keeps_bind; [apply _| |intros _]);
      try apply deletes_nothing_console; try (by apply deletes_nothing_gp);
      try apply deletes_nothing_ret.
    case_decide; [|apply deletes_nothing_ret].
    apply keeps_bind; [apply _|apply deletes_nothing_console|intros _].
    by apply deletes_nothing_gp.
Qed.

(** What [CleanClip] and [CleanErase] have in common: a first tool writes
    the temporary dataset [tmp], [CleanFeatures] reads it, and it is
    deleted when the scratch workspace is the memory. *)
Definition cleaned (first : Py (World D) unit) (tmp outFeats scratchGDB : string)
    : Py (World D) string :=
  first;;
  Helper.CleanFeatures tmp outFeats;;
  (if decide (scratchGDB = "in_memory") then Helper.garbagePickup [tmp] else mret tt);;
  mret outFeats.

(** The contract of a function [call] of the scratch workspace that leaves
    its result in [outFeats] and uses the temporary dataset [tmp].

    In memory, and when the engine refuses no deletion: the temporary
    dataset is gone, no dataset other than [outFeats] is new, the last call
    of the function is the deletion of the temporary dataset, it succeeds,
    it is the only deletion, and no other dataset is removed.

    With any other scratch workspace: the temporary dataset and [outFeats]
    are there, the function calls no deletion at all, and no dataset is
    removed. *)
Definition cleans_up (call : string → Py (World D) string)
    (tmp : string → string) (outFeats : string) : Prop :=
  (∀ w r w',
     (∀ n, faults w n "Delete_management" = None) →
     call "in_memory" w = (Returns r, w') →
     r = outFeats
     ∧ workspace w' !! tmp "in_memory" = None
     ∧ (∀ p, workspace w !! p = None → p ≠ outFeats → workspace w' !! p = None)
     ∧ (outFeats ≠ tmp "in_memory" → is_Some (workspace w' !! outFeats))
     ∧ (∃ evs, new_events w w'
               = evs ++ [mkEvent "Delete_management" [tmp "in_memory"] None]
               ∧ Forall not_deletion evs)
     ∧ (∀ p, p ≠ tmp "in_memory" →
          is_Some (workspace w !! p) → is_Some (workspace w' !! p)))
  ∧ (∀ scratchGDB w r w',
       scratchGDB ≠ "in_memory" →
       call scratchGDB w = (Returns r, w') →
       r = outFeats
       ∧ is_Some (workspace w' !! tmp scratchGDB)
       ∧ is_Some (workspace w' !! outFeats)
       ∧ Forall not_deletion (new_events w w')
       ∧ (∀ p, is_Some (workspace w !! p) → is_Some (workspace w' !! p))).

Lemma cleaned_cleans_up (first : string → Py (World D) unit) tmp outFeats :
  (∀ s, keeps (writes_only {[tmp s]}) (first s)) →
  (∀ s, keeps deletes_nothing (first s)) →
  (∀ s w w1, first s w = (Returns tt, w1) → is_Some (workspace w1 !! tmp s)) →
  cleans_up (λ s, cleaned (first s) (tmp s) outFeats s) tmp outFeats.
Proof.
  intros Hkeeps Hquiet Hwrites. split.
  - intros w r w' Hplan. unfold cleaned. rewrite decide_True by done.
    rewrite !run_bind.
    pose proof (Hkeeps "in_memory" w) as (Hf1 & Hk1 & Hs1).
    pose proof (Hquiet "in_memory" w) as Hd1.
    pose proof (Hwrites "in_memory" w) as Hw.
    destruct (first "in_memory" w) as [[[]|e|] w1]; [|done..].
    specialize (Hw w1 eq_refl).
    pose proof (CleanFeatures_writes_only (tmp "in_memory") outFeats w1)
      as (Hf2 & Hk2 & Hs2).
    pose proof (CleanFeatures_deletes_nothing (tmp "in_memory") outFeats w1) as Hd2.
    rewrite run_bind.
    destruct (Helper.CleanFeatures (tmp "in_memory") outFeats w1)
      as [[x|e|] w2] eqn:HCF; [|done..].
    apply CleanFeatures_returns in HCF as [_ Hout]. simpl in *.
    rewrite run_bind. unfold Helper.garbagePickup. simpl. unfold bind.
    destruct (guarded_delete (tmp "in_memory") w2)
      as (w3 & ev & -> & Hh3 & Hcall & Herr & Hws & _).
    rewrite Hf2, Hf1, Hplan in Herr.
    destruct (Hs2 _ Hw) as [d Htmp]. rewrite Htmp in Herr. rewrite Herr in Hws.
    intros [= <- <-]. rewrite Hws.
    split; [done|]. split; [apply lookup_delete_eq|]. split; [|split; [|split]].
    + intros p Hp Hne. destruct (decide (p = tmp "in_memory")) as [->|Hpt].
      * apply lookup_delete_eq.
      * rewrite lookup_delete_ne by done.
        rewrite Hk2, Hk1 by set_solver. done.
    + intros Hne. by rewrite lookup_delete_ne.
    + assert (Hd : deletes_nothing w w2) by (by etrans).
      destruct Hd as (evs & Hh & Hn). exists evs. split; [|done].
      unfold new_events. rewrite Hh3, Hh, <-app_assoc, drop_app_length.
      f_equal. destruct ev as [tool args error]. unfold call_of, deletion in Hcall.
      simpl in *. by simplify_eq.
    + intros p Hp Hsome. rewrite lookup_delete_ne by done. auto.
  - intros s w r w' Hs. unfold cleaned. rewrite decide_False by done.
    rewrite !run_bind.
    pose proof (Hkeeps s w) as (_ & _ & Hs1).
    pose proof (Hquiet s w) as Hd1.
    pose proof (Hwrites s w) as Hw.
    destruct (first s w) as [[[]|e|] w1]; [|done..].
    pose proof (CleanFeatures_writes_only (tmp s) outFeats w1) as (_ & _ & Hs2).
    pose proof (CleanFeatures_deletes_nothing (tmp s) outFeats w1) as Hd2.
    rewrite run_bind.
    destruct (Helper.CleanFeatures (tmp s) outFeats w1) as [[x|e|] w2] eqn:HCF; [|done..].
    apply CleanFeatures_returns in HCF as [_ Hout]. simpl in *.
    intros [= <- <-]. split; [done|]. split; [apply Hs2; by eapply Hw|].
    split; [done|]. split; [|by auto].
    apply deletes_nothing_new_events. by etrans.
Qed.

(** C7, as amended.  A call of [CleanClip] or [CleanErase] that returns
    leaves its result in [outFeats].  With the scratch workspace
    "in_memory", and when the engine does not refuse the deletion, the
    temporary dataset is deleted by the last call of the function and is
    gone after it, no other deletion is made, and no dataset other than
    [outFeats] is new.  With any other scratch workspace no deletion is
    made and the temporary dataset is kept. *)
Theorem temporary_dataset_cleanup (inFeats otherFeats outFeats : string) :
  cleans_up (Helper.CleanClip inFeats otherFeats outFeats)
            (λ scratchGDB, scratchGDB +:+ Helper.os_sep +:+ "tmpClip") outFeats
  ∧ cleans_up (Helper.CleanErase inFeats otherFeats outFeats)
              (λ scratchGDB, scratchGDB +:+ Helper.os_sep +:+ "tmpErased") outFeats.
Proof.
  split.
  - apply (cleaned_cleans_up
             (λ s, Clip_analysis inFeats otherFeats (s +:+ Helper.os_sep +:+ "tmpClip"))).
    + intros s. apply writes_only_gp. intros ws a ws' Hs.
      destruct (ws !! inFeats), (ws !! otherFeats); simplify_eq/=.
      apply insert_frame. set_solver.
    + intros s. by apply deletes_nothing_gp.
    + intros s w w1. unfold Clip_analysis.
      destruct (gp_cases "Clip_analysis"
        [inFeats; otherFeats; s +:+ Helper.os_sep +:+ "tmpClip"]
        (λ ws, d ← ws !! inFeats; c ← ws !! otherFeats;
               Some ((), <[s +:+ Helper.os_sep +:+ "tmpClip" := clip d c]> ws)) w)
        as [(a & ws & -> & Hsem & _)|(e & ->)]; [|done].
      destruct (workspace w !! inFeats), (workspace w !! otherFeats); simplify_eq/=.
      intros [= <-]. simpl. rewrite lookup_insert_eq. eauto.
  - apply (cleaned_cleans_up
             (λ s, Erase_analysis inFeats otherFeats (s +:+ Helper.os_sep +:+ "tmpErased")
                     EmptyString)).
    + intros s. apply writes_only_gp. intros ws a ws' Hs.
      destruct (ws !! inFeats), (ws !! otherFeats); simplify_eq/=.
      apply insert_frame. set_solver.
    + intros s. by apply deletes_nothing_gp.
    + intros s w w1. unfold Erase_analysis.
      destruct (gp_cases "Erase_analysis"
        [inFeats; otherFeats; s +:+ Helper.os_sep +:+ "tmpErased"; EmptyString]
        (λ ws, d ← ws !! inFeats; c ← ws !! otherFeats;
               Some ((), <[s +:+ Helper.os_sep +:+ "tmpErased" := erase d c]> ws)) w)
        as [(a & ws & -> & Hsem & _)|(e & ->)]; [|done].
      destruct (workspace w !! inFeats), (workspace w !! otherFeats); simplify_eq/=.
      intros [= <-]. simpl. rewrite lookup_insert_eq. eauto.
Qed.
End Cleanup.

(** A call of [CleanClip] in memory: the temporary dataset is gone, and
    its deletion is the last call.  A call on disk: the temporary dataset
    is kept, and no deletion is called. *)
Lemma temporary_dataset_cleanup_witness :
  let w := Sample.session {["parcels" := Sample.parcels; "county" := Sample.county]}
             Sample.no_faults in
  let r := Helper.CleanClip "parcels" "county" "out" "in_memory" w in
  let r' := Helper.CleanClip "parcels" "county" "out" "C:\scratch.gdb" w in
  (r.1 = Returns "out"
   ∧ workspace r.2 !! "in_memory\tmpClip" = None
   ∧ (∀ p, workspace w !! p = None → p ≠ "out" → workspace r.2 !! p = None)
   ∧ ("out" ≠ "in_memory\tmpClip" → is_Some (workspace r.2 !! "out"))
   ∧ (∃ evs, new_events w r.2
             = evs ++ [mkEvent "Delete_management" ["in_memory\tmpClip"] None]
             ∧ Forall not_deletion evs)
   ∧ (∀ p, p ≠ "in_memory\tmpClip" →
        is_Some (workspace w !! p) → is_Some (workspace r.2 !! p)))
  ∧ (r'.1 = Returns "out"
     ∧ is_Some (workspace r'.2 !! "C:\scratch.gdb\tmpClip")
     ∧ is_Some (workspace r'.2 !! "out")
     ∧ Forall not_deletion (new_events w r'.2)
     ∧ (∀ p, is_Some (workspace w !! p) → is_Some (workspace r'.2 !! p))).
Proof.
  intros w r r'. split.
  - destruct (proj1 (proj1 (temporary_dataset_cleanup (D:=Sample.Features)
                              "parcels" "county" "out")) w "out" r.2)
      as (_ & Hrest).
    + intros n. reflexivity.
    + vm_compute. reflexivity.
    + split; [vm_compute; reflexivity|exact Hrest].
  - destruct (proj2 (proj1 (temporary_dataset_cleanup (D:=Sample.Features)
                              "parcels" "county" "out")) "C:\scratch.gdb" w "out" r'.2)
      as (_ & Hrest).
    + discriminate.
    + vm_compute. reflexivity.
    + split; [vm_compute; reflexivity|exact Hrest].
Defined.

(** C7 as stated fails: with a scratch geodatabase on disk no deletion
    takes place, and the temporary dataset is there after the call. *)
Lemma CleanClip_keeps_tmpClip_on_disk :
  ¬ (∀ (w : World Sample.Features) inFeats clipFeats outFeats scratchGDB r w',
       Helper.CleanClip inFeats clipFeats outFeats scratchGDB w = (Returns r, w') →
       workspace w' !! (scratchGDB +:+ Helper.os_sep +:+ "tmpClip") = None).
Proof.
  intros Hclaim.
  pose (w := Sample.session {["parcels" := Sample.parcels; "county" := Sample.county]}
               Sample.no_faults).
  pose (r := Helper.CleanClip "parcels" "county" "out" "C:\scratch.gdb" w).
  assert (Hrun : r = (Returns "out", r.2)) by (vm_compute; reflexivity).
  apply Hclaim in Hrun. vm_compute in Hrun. discriminate Hrun.
Qed.


(** ** Helper.TabToDict *)

Section TabToDict.
Context {D Value : Type} `{Countable Value} `{!Cursors D Value}.
Implicit Types (w : World D) (rows : list (Value * Value)).

(** The dictionary after the loop over the rows. *)
Definition entered (codeDict : gmap Value Value) rows : gmap Value Value :=
  foldl (λ codeDict row, <[row.1 := row.2]> codeDict) codeDict rows.

Lemma TabToDict_loop rows (codeDict : gmap Value Value) w :
  for_ rows (λ row codeDict,
    let key := row.1 in let val := row.2 in
    (mret (<[key := val]> codeDict) : Py (World D) (gmap Value Value))) codeDict w
  = (Returns (entered codeDict rows), w).
Proof.
  revert codeDict. induction rows as [|row rows IH]; intros codeDict; [done|].
  simpl. unfold bind. simpl. apply IH.
Qed.

(** A key is mapped to the value of the last row that has it. *)
Lemma entered_lookup rows (codeDict : gmap Value Value) key :
  entered codeDict rows !! key
  = match last (filter (λ row, row.1 = key) rows) with
    | Some row => Some row.2
    | None => codeDict !! key
    end.
Proof.
  unfold entered. induction rows as [|row rows IH] using rev_ind; [done|].
  rewrite foldl_app, filter_app. simpl.
  rewrite lookup_insert. destruct (decide (row.1 = key)) as [Heq|Hne].
  - rewrite filter_cons_True, filter_nil by done. by rewrite last_snoc.
  - rewrite filter_cons_False, filter_nil by done. by rewrite app_nil_r.
Qed.

(** C4. On a table that has the two fields, [TabToDict] returns a
    dictionary in which every key of the table is mapped, and mapped to the
    value of the last row with that key; nothing else is in the
    dictionary, and the session is left as it was. *)
Theorem TabToDict_maps (inTab fldKey fldValue : string) w (d : D) rows :
  workspace w !! inTab = Some d →
  table_rows d fldKey fldValue = Some rows →
  ∃ codeDict : gmap Value Value,
    Helper.TabToDict inTab fldKey fldValue w = (Returns codeDict, w)
    ∧ (∀ key, codeDict !! key
              = (λ row, row.2) <$> last (filter (λ row, row.1 = key) rows))
    ∧ (∀ row, row ∈ rows → is_Some (codeDict !! row.1))
    ∧ (∀ i row, rows !! i = Some row →
         (∀ j row', rows !! j = Some row' → (i < j)%nat → row'.1 ≠ row.1) →
         codeDict !! row.1 = Some row.2).
Proof.
  intros Hin Hrows. exists (entered ∅ rows).
  assert (Hlookup : ∀ key, entered ∅ rows !! key
            = (λ row, row.2) <$> last (filter (λ row, row.1 = key) rows)).
  { intros key. rewrite entered_lookup.
    by destruct (last (filter (λ row, row.1 = key) rows)). }
  split.
  { unfold Helper.TabToDict. rewrite run_bind.
    unfold Helper.SearchCursor. rewrite Hin. simpl. rewrite Hrows.
    rewrite run_bind. by rewrite TabToDict_loop. }
  split; [done|]. split.
  - intros row Hrow. rewrite Hlookup.
    assert (Hin' : row ∈ filter (λ row', row'.1 = row.1) rows)
      by (by apply list_elem_of_filter).
    destruct (filter (λ row', row'.1 = row.1) rows) as [|r rs] using rev_ind;
      [by apply not_elem_of_nil in Hin'|].
    rewrite last_snoc. by eexists.
  - intros i row Hi Hlast. rewrite Hlookup.
    apply take_drop_middle in Hi. rewrite <-Hi.
    rewrite filter_app, filter_cons_True by done.
    assert (Hnone : filter (λ row', row'.1 = row.1) (drop (S i) rows) = []).
    { destruct (filter (λ row', row'.1 = row.1) (drop (S i) rows))
        as [|row' rest] eqn:Hf; [done|].
      assert (Hrow' : row' ∈ filter (λ row', row'.1 = row.1) (drop (S i) rows))
        by (rewrite Hf; apply list_elem_of_here).
      apply list_elem_of_filter in Hrow' as [Hkey Hrow'].
      apply list_elem_of_lookup in Hrow' as [j Hj]. rewrite lookup_drop in Hj.
      exfalso. apply (Hlast _ _ Hj); [lia|done]. }
    rewrite Hnone. by rewrite last_snoc.
Qed.
End TabToDict.

(** The dictionary of a table in which the key "11" comes twice. *)
Lemma TabToDict_maps_witness :
  ∃ codeDict : gmap string string,
    Helper.TabToDict "landcover" "CODE" "NAME"
      (Sample.session {["landcover" := Sample.landcover]} Sample.no_faults)
    = (Returns codeDict,
       Sample.session {["landcover" := Sample.landcover]} Sample.no_faults)
    ∧ codeDict !! "11" = Some "Water"
    ∧ codeDict !! "21" = Some "Developed".
Proof.
  destruct (TabToDict_maps "landcover" "CODE" "NAME"
              (Sample.session {["landcover" := Sample.landcover]} Sample.no_faults)
              Sample.landcover Sample.landcover)
    as (codeDict & Hrun & Hlookup & _).
  - reflexivity.
  - reflexivity.
  - exists codeDict. split; [exact Hrun|].
    split; rewrite Hlookup; reflexivity.
Defined.

(** ** Helper.tback *)

Section Tback.
Context {D : Type}.
Implicit Types w : World D.

(** The entry of the outermost frame of a traceback. *)
Definition first_entry (tb : traceback) : string :=
  match tb with TbLast entry | TbNext entry _ => entry end.

(** The messages of a severity that the engine holds, one per line. *)
Definition engine_messages (severity : Z) w : string :=
  String.concat newline (snd <$> filter (λ m, m.1 = severity) (gp_messages w)).

(** C6. While an exception [e] with traceback [tb] is being handled,
    [tback] returns a list of two strings.  The first starts with
    "PYTHON ERRORS:" and joins the traceback entry with [str] of the
    exception; the second starts with "ARCPY ERRORS:" and holds the error
    messages of the engine.  Both are also written to the console as
    errors. *)
Theorem tback_message_list (e : Exn) (tb : traceback) w :
  ∃ pymsg msgs w',
    Helper.tback (Some (e, tb)) w = (Returns [pymsg; msgs], w')
    ∧ pymsg = "PYTHON ERRORS:" +:+ newline +:+ "Traceback Info:" +:+ newline
              +:+ first_entry tb +:+ newline +:+ "Error Info:" +:+ newline +:+ " "
              +:+ exn_text e
    ∧ msgs = "ARCPY ERRORS:" +:+ newline +:+ engine_messages ERROR w +:+ newline
    ∧ String.prefix "PYTHON ERRORS:" pymsg = true
    ∧ String.prefix "ARCPY ERRORS:" msgs = true
    ∧ console w' = console w ++ [(ERROR, msgs); (ERROR, pymsg);
                                 (MESSAGE, engine_messages WARNING w)]
    ∧ history w' = history w.
Proof.
  exists ("PYTHON ERRORS:" +:+ newline +:+ "Traceback Info:" +:+ newline
          +:+ first_entry tb +:+ newline +:+ "Error Info:" +:+ newline +:+ " "
          +:+ exn_text e),
         ("ARCPY ERRORS:" +:+ newline +:+ engine_messages ERROR w +:+ newline).
  eexists. split; [|split; [done|split; [done|]]].
  - unfold Helper.tback.
    replace (format_tb (snd <$> Some (e, tb)) !! 0%nat) with (Some (first_entry tb))
      by (by destruct tb).
    unfold Helper.printErr, Helper.printMsg. py_unfold. reflexivity.
  - split; [done|]. split; [done|]. simpl. split; [|done].
    by rewrite <-!app_assoc.
Qed.

(** With no exception being handled there is no traceback entry to take,
    and [tback] raises. *)
Lemma tback_without_exception w :
  Helper.tback None w = (Raises (mkExn "IndexError" "list index out of range"), w).
Proof. reflexivity. Qed.
End Tback.

(** ** Helper.GetElapsedTime *)

Section ElapsedTime.
Import Helper.

(** The microseconds from the start of day 0 to a [datetime]. *)
Definition instant (t : datetime) : Z :=
  (((ordinal t * 24 + hour t) * 60 + minute t) * 60 + second t) * 1000000
  + microsecond t.

Lemma datetime_le_instant t1 t2 :
  valid_datetime t1 → valid_datetime t2 →
  datetime_le t1 t2 = true → instant t1 ≤ instant t2.
Proof.
  unfold valid_datetime, datetime_le, datetime_key, instant. simpl.
  intros (? & ? & ? & ? & ?) (? & ? & ? & ? & ?) Hle.
  repeat match type of Hle with
         | _ || _ = true => apply orb_true_iff in Hle as [Hle|Hle]
         | _ && _ = true => apply andb_true_iff in Hle as [? Hle]
         | (_ <? _) = true => apply Z.ltb_lt in Hle
         end;
  repeat match goal with
         | H : (_ =? _) = true |- _ => apply Z.eqb_eq in H
         end; nia.
Qed.

(** C8. For [t1 <= t2], [GetElapsedTime] prints four numbers [d], [h],
    [m], [s], none negative, with [h < 24], [m < 60], [s < 60], that make
    up the whole seconds elapsed from [t1] to [t2]. *)
Theorem GetElapsedTime_parts (t1 t2 : datetime) :
  valid_datetime t1 → valid_datetime t2 → datetime_le t1 t2 = true →
  ∃ d h m s : Z,
    GetElapsedTime t1 t2
    = str d +:+ " days, " +:+ str h +:+ " hours, " +:+ str m +:+ " minutes, "
      +:+ str s +:+ " seconds"
    ∧ 0 ≤ d ∧ 0 ≤ h < 24 ∧ 0 ≤ m < 60 ∧ 0 ≤ s < 60
    ∧ (instant t2 - instant t1) `div` 1000000
      = ((d * 24 + h) * 60 + m) * 60 + s.
Proof.
  intros Hv1 Hv2 Hle.
  pose proof (datetime_le_instant t1 t2 Hv1 Hv2 Hle) as Hinst.
  destruct Hv1 as (? & ? & ? & ? & ?), Hv2 as (? & ? & ? & ? & ?).
  unfold GetElapsedTime, elapsed_parts, datetime_sub, timedelta_new. simpl.
  eexists _, _, _, _. split; [reflexivity|].
  unfold instant in *.
  set (us := microsecond t2 - microsecond t1) in *.
  set (secs := second t2 + minute t2 * 60 + hour t2 * 3600
               - (second t1 + minute t1 * 60 + hour t1 * 3600)) in *.
  set (total := secs + us `div` 1000000).
  assert (Hwhole : (instant t2 - instant t1) `div` 1000000
                   = (ordinal t2 - ordinal t1) * 86400 + total).
  { unfold instant, total, secs, us.
    replace ((((ordinal t2 * 24 + hour t2) * 60 + minute t2) * 60 + second t2) * 1000000
             + microsecond t2
             - ((((ordinal t1 * 24 + hour t1) * 60 + minute t1) * 60 + second t1) * 1000000
                + microsecond t1))
      with (((ordinal t2 - ordinal t1) * 86400
             + (second t2 + minute t2 * 60 + hour t2 * 3600
                - (second t1 + minute t1 * 60 + hour t1 * 3600))) * 1000000
            + (microsecond t2 - microsecond t1)) by lia.
    rewrite Z.div_add_l by lia. lia. }
  assert (Hnonneg : 0 ≤ (ordinal t2 - ordinal t1) * 86400 + total).
  { rewrite <-Hwhole. apply Z.div_pos; unfold instant; lia. }
  pose proof (Z.div_mod total 86400 ltac:(lia)) as Hdm.
  pose proof (Z.mod_pos_bound total 86400 ltac:(lia)) as Hm.
  set (day := total `div` 86400) in *. set (rest := total `mod` 86400) in *.
  pose proof (Z.div_mod rest 60 ltac:(lia)) as Hdm1.
  pose proof (Z.mod_pos_bound rest 60 ltac:(lia)) as Hm1.
  set (mins := rest `div` 60) in *.
  pose proof (Z.div_mod mins 60 ltac:(lia)) as Hdm2.
  pose proof (Z.mod_pos_bound mins 60 ltac:(lia)) as Hm2.
  unfold instant in Hwhole. rewrite Hwhole.
  split_and!; lia.
Qed.
End ElapsedTime.

(** From 23:59:30 of one day to 00:01:15.25 two days later. *)
Lemma GetElapsedTime_parts_witness :
  ∃ d h m s : Z,
    Helper.GetElapsedTime (Helper.mkDatetime 736654 23 59 30 0)
                          (Helper.mkDatetime 736656 0 1 15 250000)
    = str d +:+ " days, " +:+ str h +:+ " hours, " +:+ str m +:+ " minutes, "
      +:+ str s +:+ " seconds"
    ∧ 0 ≤ d ∧ 0 ≤ h < 24 ∧ 0 ≤ m < 60 ∧ 0 ≤ s < 60
    ∧ (instant (Helper.mkDatetime 736656 0 1 15 250000)
       - instant (Helper.mkDatetime 736654 23 59 30 0)) `div` 1000000
      = ((d * 24 + h) * 60 + m) * 60 + s.
Proof.
  apply (GetElapsedTime_parts (Helper.mkDatetime 736654 23 59 30 0)
                              (Helper.mkDatetime 736656 0 1 15 250000)).
  - unfold Helper.valid_datetime. simpl. lia.
  - unfold Helper.valid_datetime. simpl. lia.
  - reflexivity.
Defined.

Example GetElapsedTime_sample :
  Helper.GetElapsedTime (Helper.mkDatetime 736654 23 59 30 0)
                        (Helper.mkDatetime 736656 0 1 15 250000)
  = "1 days, 0 hours, 1 minutes, 45 seconds".
Proof. vm_compute. reflexivity. Qed.

(** ** SelectTop.SelectTopAgr: what a run computes *)

Section Dataflow.
Context `{Number} {G : Type}.
Context `{!GridTools G (gmap string (Dataset G + string))}.
Implicit Types (w : World (Dataset G)) (agr : Raster num) (rows : list PolyRow).

(** The rasters of the script, as functions of the rasters they are made
    from. *)
Definition farmland agr : Raster Z :=
  con_constant (greater_than agr (lit 80 0)) 1.
Definition unprotected_farmland agr (elimRast : Raster Z) : Raster Z :=
  con_raster (equal_to (is_null elimRast) 1) (farmland agr).
Definition large_regions (regionSize : Raster num) (regionRast : Raster Z) : Raster Z :=
  con_raster (greater_than_equal regionSize (lit 809371 (-1))) regionRast.

(** The three calculated fields. *)
Definition acres (row : PolyRow) : num := mul (Shape_Area row) (lit 247105 (-9)).

Definition with_acres rows : list PolyRow :=
  (λ row, set_ACRES row (Some (acres row))) <$> rows.

Fixpoint accumulated (cumVal : num) rows : list PolyRow :=
  match rows with
  | [] => []
  | row :: rows' =>
      let cumVal := add cumVal (acres row) in
      set_CUM_ACRES (set_ACRES row (Some (acres row))) (Some cumVal)
      :: accumulated cumVal rows'
  end.

(** The sorted table with its fields calculated. *)
Definition scored rows : list PolyRow :=
  (λ row, set_SELECTION row (Some (SelectTop.select (CUM_ACRES row))))
  <$> accumulated (lit 0 0) rows.

Definition selected rows : list PolyRow :=
  filter (λ row, SELECTION row = Some 1) rows.

(** The environment settings that the script makes. *)
Definition settings w agr : gmap string (Dataset G + string) :=
  <["extent" := inr "MAXOF"]>
    (<["cellSize" := inl (FloatRaster agr)]>
       (<["snapRaster" := inl (FloatRaster agr)]> (env w))).

(** The datasets of a run, from the raster of agricultural values and the
    conserved lands. *)
Record Products : Type := mkProducts {
  elimRast : Raster Z;
  vulnFarmRast : Raster Z;
  regionRast : Raster Z;
  regionSize : Raster num;
  regionSubset : Raster Z;
  regionPolys : list PolyRow;
  sortedPolys : list PolyRow
}.

Definition products (E : gmap string (Dataset G + string)) agr
    (lands : list (LandRow G)) : Products :=
  let elimRast :=
    polygon_to_raster E ((λ row, set_RASTVAL row (Some 1)) <$> lands) "RASTVAL"
      "MAXIMUM_COMBINED_AREA" "RASTVAL" (Some (inl (FloatRaster agr))) in
  let vulnFarmRast := unprotected_farmland agr elimRast in
  let regionRast := region_group E vulnFarmRast "FOUR" in
  let regionSize := zonal_geometry E regionRast "VALUE" "AREA" in
  let regionSubset := large_regions regionSize regionRast in
  let regionPolys := raster_to_polygon E regionSubset "NO_SIMPLIFY" in
  let zonalTab := zonal_statistics E regionSubset "VALUE" agr "DATA" "MEAN" in
  let sortedPolys := merge_sort mean_descending (join_mean zonalTab <$> regionPolys) in
  mkProducts elimRast vulnFarmRast regionRast regionSize regionSubset
             regionPolys sortedPolys.

(** The three field calculations, in closed form. *)
Lemma calculate_each {R V} (set : R → V → R) (f : R → V) (rs : list R) :
  calculate set (λ row (_ : unit), Some (f row, tt)) tt rs
  = Some ((λ row, set row (f row)) <$> rs).
Proof.
  induction rs as [|row rs IH]; [done|]. simpl. rewrite IH. done.
Qed.

Lemma calculate_accumulate rows (cumVal : num) :
  calculate set_CUM_ACRES (λ row cumVal, SelectTop.accumulate (ACRES row) cumVal)
            cumVal (with_acres rows)
  = Some (accumulated cumVal rows).
Proof.
  revert cumVal. induction rows as [|row rows IH]; intros cumVal; [done|].
  simpl. unfold with_acres in IH. rewrite IH. done.
Qed.
End Dataflow.

(** ** SelectTop.SelectTopAgr: a run that returns *)

Section Returning.
Context {D : Type}.
Implicit Types w : World D.

Lemma bind_returns {A B} (m : Py (World D) A) (k : A → Py (World D) B) w b w' :
  (m ≫= k) w = (Returns b, w') →
  ∃ a w1, m w = (Returns a, w1) ∧ k a w1 = (Returns b, w').
Proof.
  rewrite run_bind. destruct (m w) as [[a|e|] w1]; [|done..]. eauto.
Qed.

Lemma gp_returns {A} tool args (sem : gmap string D → option (A * gmap string D)) w a w' :
  gp tool args sem w = (Returns a, w') →
  ∃ ws, sem (workspace w) = Some (a, ws)
        ∧ workspace w' = ws ∧ env w' = env w.
Proof.
  destruct (gp_cases tool args sem w) as [(a' & ws & -> & Hs & _)|(e & ->)]; [|done].
  intros [= <- <-]. eauto.
Qed.

Lemma gp_env_returns {A} tool args
    (sem : gmap string (D + string) → gmap string D → option (A * gmap string D))
    w a w' :
  gp_env tool args sem w = (Returns a, w') →
  ∃ ws, sem (env w) (workspace w) = Some (a, ws)
        ∧ workspace w' = ws ∧ env w' = env w.
Proof. apply gp_returns. Qed.

Lemma printMsg_returns msg w a w' :
  Helper.printMsg msg w = (Returns a, w') →
  workspace w' = workspace w ∧ env w' = env w.
Proof. intros [= <- <-]. done. Qed.

Lemma set_env_returns name value w a w' :
  set_env name value w = (Returns a, w') →
  workspace w' = workspace w ∧ env w' = <[name := value]> (env w).
Proof. intros [= <- <-]. done. Qed.

Lemma get_env_returns name w a w' :
  get_env name w = (Returns a, w') →
  a = env w !! name ∧ workspace w' = workspace w ∧ env w' = env w.
Proof. intros [= <- <-]. done. Qed.

Lemma mret_returns {A} (x : A) w a w' :
  (mret x : Py (World D) A) w = (Returns a, w') → a = x ∧ w' = w.
Proof. intros [= <- <-]. done. Qed.
End Returning.

Lemma filter_bool_decide {A} (P : A → Prop) `{∀ x, Decision (P x)} (l : list A) :
  filter (λ x, bool_decide (P x)) l = filter P l.
Proof.
  induction l as [|x l IH]; [done|].
  destruct (decide (P x)) as [HP|HP].
  - rewrite !filter_cons_True; [by rewrite IH|done|by apply bool_decide_pack].
  - rewrite !filter_cons_False; [done|done|by intros ?%bool_decide_unpack].
Qed.

Lemma append_inj_r (s a b : string) : s +:+ a = s +:+ b → a = b.
Proof. induction s as [|c s IH]; simpl; [done|]. intros [= ?]. auto. Qed.


(** Simplifies what a tool did to the workspace, once the call is known to
    have returned; the values stay behind names. *)
Ltac sem_simpl Hsem :=
  repeat first
    [ rewrite lookup_insert_eq in Hsem
    | progress cbn [mbind option_bind rows_of table_of polygons_table lands_table
                    as_float_raster as_int_raster as_zonal_table] in Hsem
    | discriminate Hsem
    | match type of Hsem with
      | context [calculate set_CUM_ACRES _ _ (?f <$> ?rows)] =>
          change (f <$> rows) with (with_acres rows) in Hsem;
          rewrite calculate_accumulate in Hsem
      | context [calculate] => rewrite calculate_each in Hsem
      | context [sort_rows] => unfold sort_rows in Hsem; rewrite decide_True in Hsem by done
      | context [decide (_ = _)] => rewrite decide_True in Hsem by done
      | context [<[?p := _]> _ !! ?q] =>
          first
            [ rewrite lookup_insert_ne in Hsem
                by (let Hp := fresh in intros Hp; apply append_inj_r in Hp; discriminate Hp)
            | rewrite lookup_insert in Hsem; destruct (decide (p = q)) ]
      | context [workspace ?w !! ?p] =>
          match goal with
          | Hk : workspace w !! p = _ |- _ => rewrite Hk in Hsem
          | _ => let d := fresh "d" in
                 destruct (workspace w !! p) as [d|] eqn:?; [destruct d|]
          end
      end ].

(** Takes the next statement of a run that returns. *)
Ltac advance :=
  match goal with
  | Hrun : (mret _ ≫= _) ?wk = (Returns _, _) |- _ =>
      let a := fresh "a" in let w1 := fresh "w" in let Hstep := fresh "Hstep" in
      apply bind_returns in Hrun as (a & w1 & Hstep & Hrun);
      apply mret_returns in Hstep as [-> ->]
  | Hrun : (_ ≫= _) ?wk = (Returns _, _), HW : workspace ?wk = _, HE : env ?wk = _ |- _ =>
      let a := fresh "a" in let w1 := fresh "w" in let Hstep := fresh "Hstep" in
      let HW1 := fresh "HW" in let HE1 := fresh "HE" in
      let ws := fresh "ws" in let Hsem := fresh "Hsem" in
      let Ha := fresh "Ha" in let Hws := fresh "Hws" in
      apply bind_returns in Hrun as (a & w1 & Hstep & Hrun);
      lazymatch type of Hstep with
      | Helper.printMsg _ _ = _ => apply printMsg_returns in Hstep as [HW1 HE1]
      | set_env _ _ _ = _ => apply set_env_returns in Hstep as [HW1 HE1]
      | get_env _ _ = _ =>
          apply get_env_returns in Hstep as (-> & HW1 & HE1);
          rewrite HE in Hrun;
          rewrite lookup_insert_ne, lookup_insert_eq in Hrun by done
      | _ =>
          apply gp_returns in Hstep as (ws & Hsem & Hstep);
          try rewrite HW in Hsem; try rewrite HE in Hsem; sem_simpl Hsem;
          injection Hsem as Ha Hws;
          destruct Hstep as [HW1 HE1]; rewrite <-Hws in HW1; clear Hws ws
      end;
      try rewrite HW in HW1; try rewrite HE in HE1; clear HW HE
  end.

Section SelectTopReturns.
Context `{Number} {G : Type}.
Context `{!GridTools G (gmap string (Dataset G + string))}.
Implicit Types (w : World (Dataset G)) (agr : Raster num).

(** The raster that [in_FarmAgrVal] stands for. *)
Definition raster_of w (in_FarmAgrVal : string + Raster num) agr : Prop :=
  match in_FarmAgrVal with
  | inl path => workspace w !! path = Some (FloatRaster agr)
  | inr raster => agr = raster
  end.

Lemma SelectTopAgr_returns in_FarmAgrVal in_ConsLands out_Polys out_Scratch w r w' :
  SelectTop.SelectTopAgr in_FarmAgrVal in_ConsLands out_Polys out_Scratch w
  = (Returns r, w') →
  ∃ agr lands,
    raster_of w in_FarmAgrVal agr
    ∧ workspace w !! in_ConsLands = Some (Lands lands)
    ∧ r = out_Polys
    ∧ workspace w' !! out_Polys
      = Some (Polygons (selected (scored (sortedPolys (products (settings w agr) agr lands))))).
Proof.
  unfold SelectTop.SelectTopAgr. intros Hrun.
  unfold CheckOutExtension, CheckInExtension, Raster_, save, GreaterThan,
    GreaterThanEqual, EqualTo, Con, Con_raster, IsNull, RegionGroup, ZonalGeometry,
    ZonalStatisticsAsTable, PolygonToRaster_conversion, RasterToPolygon_conversion,
    AddField_management, CalculateField_management, JoinField_management,
    Sort_management, Select_analysis in Hrun.
  pose proof (eq_refl (workspace w)) as HW.
  pose proof (eq_refl (env w)) as HE.
  advance.
  destruct in_FarmAgrVal as [path|raster]; repeat advance.
  all: apply mret_returns in Hrun as [-> ->].
  all: subst.
  all: eexists _, _; split; [|split; [reflexivity|split; [reflexivity|]]].
  1,3: done.
  all: match goal with HW : workspace _ = _ |- _ => rewrite HW end.
  all: rewrite lookup_insert_eq; do 2 f_equal.
  all: unfold selected; rewrite filter_bool_decide; reflexivity.
Qed.
End SelectTopReturns.

(** ** SelectTop.SelectTopAgr: the calculated fields *)

(** The laws of the order and of the arithmetic that the selection relies
    on.  They hold for exact numbers.  They also hold, for every value, for
    IEEE doubles, the arithmetic of DOUBLE fields and of Python floats,
    although the order is not total there and NaN is not below itself: a
    number that 0 is not above is not NaN, so it is not above itself; a
    comparison with NaN is false, which leaves the order transitive; the
    sum of two numbers that 0 is not above is not NaN, as infinities of
    opposite signs do not meet, and rounding, to an infinity when the sum
    overflows, keeps it from going below either of them; the product of
    such a number and the positive constant 0.000247105 is not NaN and not
    below 0. *)
Class ArithmeticLaws `{Number} : Prop := {
  leb_zero : leb (lit 0 0) (lit 0 0);
  leb_nonneg_refl : ∀ x : num, leb (lit 0 0) x → leb x x;
  leb_trans : ∀ x y z : num, leb x y → leb y z → leb x z;
  add_increases : ∀ x y : num,
    leb (lit 0 0) x → leb (lit 0 0) y → leb x (add x y);
  acres_nonneg : ∀ x : num, leb (lit 0 0) x → leb (lit 0 0) (mul x (lit 247105 (-9)))
}.

Section Scores.
Context `{Number}.
Implicit Types (rows : list PolyRow) (row : PolyRow).

(** The sum of the acreages of the first [n] rows, added up from 0 in the
    order of the table. *)
Definition cumulative_acres rows (n : nat) : num :=
  foldl add (lit 0 0) (acres <$> take n rows).

(** Row [i] of the scored table. *)
Definition scored_row rows (i : nat) row : PolyRow :=
  mkPolyRow (shape row) (gridcode row) (Shape_Area row) (MEAN row)
            (Some (acres row))
            (Some (cumulative_acres rows (S i)))
            (Some (SelectTop.select (Some (cumulative_acres rows (S i))))).

Lemma accumulated_lookup rows : ∀ (cumVal : num) (i : nat) row,
  rows !! i = Some row →
  accumulated cumVal rows !! i
  = Some (set_CUM_ACRES (set_ACRES row (Some (acres row)))
            (Some (foldl add cumVal (acres <$> take (S i) rows)))).
Proof.
  induction rows as [|row0 rows IH]; intros cumVal i row Hi; [done|].
  destruct i as [|i]; simpl in *.
  - by simplify_eq.
  - by rewrite (IH _ _ _ Hi).
Qed.

Lemma accumulated_length rows (cumVal : num) :
  length (accumulated cumVal rows) = length rows.
Proof.
  revert cumVal. induction rows as [|row rows IH]; intros cumVal; simpl; [done|].
  by rewrite IH.
Qed.

Lemma scored_length rows : length (scored rows) = length rows.
Proof. unfold scored. by rewrite length_fmap, accumulated_length. Qed.

Lemma scored_lookup rows (i : nat) row :
  rows !! i = Some row → scored rows !! i = Some (scored_row rows i row).
Proof.
  intros Hi. unfold scored. rewrite list_lookup_fmap.
  by rewrite (accumulated_lookup _ _ _ _ Hi).
Qed.

Lemma scored_lookup_inv rows (i : nat) row' :
  scored rows !! i = Some row' →
  ∃ row, rows !! i = Some row ∧ row' = scored_row rows i row.
Proof.
  intros Hi. assert (Hlt : (i < length rows)%nat).
  { rewrite <-scored_length. by eapply lookup_lt_Some. }
  destruct (lookup_lt_is_Some_2 _ _ Hlt) as [row Hrow].
  exists row. split; [done|]. rewrite (scored_lookup _ _ _ Hrow) in Hi. congruence.
Qed.

(** The acreages of the scored table are those of the table it is made
    from. *)
Lemma scored_acres rows : acres <$> scored rows = acres <$> rows.
Proof.
  apply list_eq. intros i. rewrite !list_lookup_fmap.
  destruct (rows !! i) as [row|] eqn:Hi.
  - by rewrite (scored_lookup _ _ _ Hi).
  - rewrite (lookup_ge_None_2 (scored rows)); [done|].
    rewrite scored_length. by apply lookup_ge_None.
Qed.

Lemma scored_MEAN rows : MEAN <$> scored rows = MEAN <$> rows.
Proof.
  apply list_eq. intros i. rewrite !list_lookup_fmap.
  destruct (rows !! i) as [row|] eqn:Hi.
  - by rewrite (scored_lookup _ _ _ Hi).
  - rewrite (lookup_ge_None_2 (scored rows)); [done|].
    rewrite scored_length. by apply lookup_ge_None.
Qed.

Lemma scored_cumulative rows n :
  cumulative_acres (scored rows) n = cumulative_acres rows n.
Proof. unfold cumulative_acres. by rewrite !fmap_take, scored_acres. Qed.
End Scores.

(** ** SelectTop.SelectTopAgr: the selection *)

Section Selection.
Context `{Number} {G : Type}.
Context `{!GridTools G (gmap string (Dataset G + string))}.
Implicit Types (w : World (Dataset G)) (rows : list PolyRow) (row : PolyRow).

(** What identifies a polygon: its shape, its region and its area. *)
Definition polygon_key row : gset cell * Z * num :=
  (shape row, gridcode row, Shape_Area row).

(** Descending order of a column of MEAN values. *)
Definition descending (means : list (option num)) : Prop :=
  Sorted (λ m m', null_leb m' m) means.

Lemma scored_keys rows : polygon_key <$> scored rows = polygon_key <$> rows.
Proof.
  apply list_eq. intros i. rewrite !list_lookup_fmap.
  destruct (rows !! i) as [row|] eqn:Hi.
  - by rewrite (scored_lookup _ _ _ Hi).
  - rewrite (lookup_ge_None_2 (scored rows)); [done|].
    rewrite scored_length. by apply lookup_ge_None.
Qed.

Lemma join_mean_keys (zonal : list ZonalRow) rows :
  polygon_key <$> (join_mean zonal <$> rows) = polygon_key <$> rows.
Proof. rewrite <-list_fmap_compose. by apply list_fmap_ext. Qed.

Lemma sorted_descending rows :
  (∀ x y : num, leb x y ∨ leb y x) →
  descending (MEAN <$> merge_sort mean_descending rows).
Proof.
  intros Htotal.
  assert (Total mean_descending).
  { intros row row'. unfold mean_descending, null_leb.
    destruct (MEAN row) as [m|], (MEAN row') as [m'|]; simpl; auto.
    all: destruct (Htotal m m'); auto. }
  unfold descending. apply (Sorted_fmap MEAN mean_descending); [done|]. by apply Sorted_merge_sort.
Qed.

(** The score-sorted table of a run, and what is written to [out_Polys]. *)
Definition score_table w in_FarmAgrVal in_ConsLands (table : list PolyRow) : Prop :=
  ∃ agr lands,
    raster_of w in_FarmAgrVal agr
    ∧ workspace w !! in_ConsLands = Some (Lands lands)
    ∧ table = scored (sortedPolys (products (settings w agr) agr lands))
    ∧ polygon_key <$> table
      ≡ₚ polygon_key <$> regionPolys (products (settings w agr) agr lands).

Lemma SelectTopAgr_table in_FarmAgrVal in_ConsLands out_Polys out_Scratch w r w' :
  SelectTop.SelectTopAgr in_FarmAgrVal in_ConsLands out_Polys out_Scratch w
  = (Returns r, w') →
  ∃ table,
    score_table w in_FarmAgrVal in_ConsLands table
    ∧ r = out_Polys
    ∧ workspace w' !! out_Polys = Some (Polygons (selected table)).
Proof.
  intros Hrun.
  apply SelectTopAgr_returns in Hrun as (agr & lands & Hagr & Hlands & -> & Hout).
  eexists. split; [|done]. exists agr, lands. split_and!; [done..|].
  rewrite scored_keys. simpl. rewrite merge_sort_Permutation.
  by rewrite join_mean_keys.
Qed.

(** C1. In a run of [SelectTopAgr] that returns, the polygons made from
    the regions are put in a table in descending order of MEAN; in that
    table ACRES is the area times 0.000247105, CUM_ACRES is the sum of the
    ACRES of the row and of the rows before it, and SELECTION is 1 when
    CUM_ACRES is at most 500000 and 0 otherwise; [out_Polys] holds exactly
    the rows with SELECTION 1, in the order of the table. *)
Theorem SelectTopAgr_selects in_FarmAgrVal in_ConsLands out_Polys out_Scratch w r w' :
  SelectTop.SelectTopAgr in_FarmAgrVal in_ConsLands out_Polys out_Scratch w
  = (Returns r, w') →
  ∃ table,
    score_table w in_FarmAgrVal in_ConsLands table
    ∧ ((∀ x y : num, leb x y ∨ leb y x) → descending (MEAN <$> table))
    ∧ (∀ (i : nat) row, table !! i = Some row →
         ACRES row = Some (acres row)
         ∧ CUM_ACRES row = Some (cumulative_acres table (S i))
         ∧ (SELECTION row = Some 1 ∨ SELECTION row = Some 0)
         ∧ (SELECTION row = Some 1
            ↔ leb (cumulative_acres table (S i)) (lit 500000 0) = true))
    ∧ r = out_Polys
    ∧ workspace w' !! out_Polys
      = Some (Polygons (filter (λ row, SELECTION row = Some 1) table)).
Proof.
  intros Hrun.
  apply SelectTopAgr_table in Hrun as (table & Htable & -> & Hout).
  exists table. split; [done|].
  destruct Htable as (agr & lands & _ & _ & -> & _).
  set (ranked := sortedPolys (products (settings w agr) agr lands)) in *.
  split; [|split; [|done]].
  - intros Htotal. rewrite scored_MEAN. by apply sorted_descending.
  - intros i row Hi. apply scored_lookup_inv in Hi as (row0 & Hi & ->).
    rewrite scored_cumulative. unfold scored_row. simpl.
    split; [done|]. split; [done|].
    destruct (leb (cumulative_acres ranked (S i)) (lit 500000 0)); naive_solver.
Qed.
End Selection.

(** ** SelectTop.SelectTopAgr: the selected polygons are the first ones *)

(** The elements that satisfy [P] are the first ones when [P] is inherited
    from any element by the elements before it. *)
Lemma filter_prefix {A} (P : A → Prop) `{∀ x, Decision (P x)} (l : list A) :
  (∀ (i j : nat) x y, (i ≤ j)%nat → l !! i = Some x → l !! j = Some y → P y → P x) →
  ∃ n : nat, filter P l = take n l.
Proof.
  induction l as [|x l IH]; intros Hdown; [by exists 0%nat|].
  destruct (decide (P x)) as [HP|HP].
  - destruct IH as [n Hn].
    { intros i j a b Hij Hi Hj. apply (Hdown (S i) (S j)); [lia|done..]. }
    exists (S n). rewrite filter_cons_True by done. simpl. by rewrite Hn.
  - exists 0%nat. rewrite filter_cons_False by done. simpl.
    destruct (filter P l) as [|y rest] eqn:Hf; [done|].
    assert (Hy : y ∈ filter P l) by (rewrite Hf; apply list_elem_of_here).
    apply list_elem_of_filter in Hy as [HPy Hy].
    apply list_elem_of_lookup in Hy as [j Hj].
    destruct HP. by apply (Hdown 0%nat (S j) x y); [lia|..].
Qed.

Section Prefix.
Context `{ArithmeticLaws}.
Implicit Types (rows : list PolyRow) (row : PolyRow).

Lemma cumulative_acres_S rows (n : nat) row :
  rows !! n = Some row →
  cumulative_acres rows (S n) = add (cumulative_acres rows n) (acres row).
Proof.
  intros Hn. unfold cumulative_acres.
  rewrite (take_S_r _ _ _ Hn), fmap_app, foldl_app. done.
Qed.

(** With areas that are not negative the running total is not negative. *)
Lemma cumulative_acres_nonneg rows (n : nat) :
  (∀ row, row ∈ rows → leb (lit 0 0) (Shape_Area row)) →
  (n ≤ length rows)%nat →
  leb (lit 0 0) (cumulative_acres rows n).
Proof.
  intros Hpos. induction n as [|n IH]; intros Hn; [apply leb_zero|].
  destruct (lookup_lt_is_Some_2 rows n) as [row Hrow]; [lia|].
  rewrite (cumulative_acres_S _ _ _ Hrow).
  apply leb_trans with (cumulative_acres rows n); [apply IH; lia|].
  apply add_increases; [apply IH; lia|].
  apply acres_nonneg, Hpos. by eapply list_elem_of_lookup_2.
Qed.

(** With areas that are not negative the running total does not go down. *)
Lemma cumulative_acres_mono rows (i j : nat) :
  (∀ row, row ∈ rows → leb (lit 0 0) (Shape_Area row)) →
  (i ≤ j)%nat → (j ≤ length rows)%nat →
  leb (cumulative_acres rows i) (cumulative_acres rows j).
Proof.
  intros Hpos Hij. induction Hij as [|j Hij IH]; intros Hj.
  { by apply leb_nonneg_refl, cumulative_acres_nonneg. }
  destruct (lookup_lt_is_Some_2 rows j) as [row Hrow]; [lia|].
  apply leb_trans with (cumulative_acres rows j); [apply IH; lia|].
  rewrite (cumulative_acres_S _ _ _ Hrow).
  apply add_increases; [apply cumulative_acres_nonneg; [done|lia]|].
  apply acres_nonneg, Hpos. by eapply list_elem_of_lookup_2.
Qed.

(** The three parts of the property, for the scored table of any table. *)
Lemma scored_prefix rows :
  (∀ row, row ∈ rows → leb (lit 0 0) (Shape_Area row)) →
  (∀ (i j : nat) row row' c c',
     (i ≤ j)%nat → scored rows !! i = Some row → scored rows !! j = Some row' →
     CUM_ACRES row = Some c → CUM_ACRES row' = Some c' → leb c c')
  ∧ (∀ (i j : nat) row row',
       (i ≤ j)%nat → scored rows !! i = Some row → scored rows !! j = Some row' →
       SELECTION row = Some 0 → SELECTION row' = Some 0)
  ∧ ∃ n : nat, selected (scored rows) = take n (scored rows).
Proof.
  intros Hpos.
  assert (Hmono : ∀ (i j : nat) row row',
    (i ≤ j)%nat → scored rows !! i = Some row → scored rows !! j = Some row' →
    leb (cumulative_acres rows (S i)) (cumulative_acres rows (S j))).
  { intros i j row row' Hij Hi Hj. apply cumulative_acres_mono; [done|lia|].
    apply lookup_lt_Some in Hj. rewrite scored_length in Hj. lia. }
  assert (Hsel : ∀ (i j : nat) row row',
    (i ≤ j)%nat → scored rows !! i = Some row → scored rows !! j = Some row' →
    SELECTION row' = Some 1 → SELECTION row = Some 1).
  { intros i j row row' Hij Hi Hj.
    pose proof (Hmono _ _ _ _ Hij Hi Hj) as Hle.
    apply scored_lookup_inv in Hi as (r0 & _ & ->).
    apply scored_lookup_inv in Hj as (r0' & _ & ->).
    unfold scored_row, SelectTop.select. simpl.
    destruct (leb (cumulative_acres rows (S j)) (lit 500000 0)) eqn:Hj; [|done].
    intros _. assert (Hi : leb (cumulative_acres rows (S i)) (lit 500000 0)).
    { eapply leb_trans; [done|]. by rewrite Hj. }
    by destruct (leb (cumulative_acres rows (S i)) (lit 500000 0)). }
  split_and!.
  - intros i j row row' c c' Hij Hi Hj Hc Hc'.
    pose proof (Hmono _ _ _ _ Hij Hi Hj) as Hle.
    apply scored_lookup_inv in Hi as (r0 & _ & ->).
    apply scored_lookup_inv in Hj as (r0' & _ & ->). by simplify_eq/=.
  - intros i j row row' Hij Hi Hj Hzero.
    pose proof (Hsel _ _ _ _ Hij Hi Hj) as Himp.
    apply scored_lookup_inv in Hj as (r0' & _ & ->). simpl in *.
    destruct (leb (cumulative_acres rows (S j)) (lit 500000 0)); [|done].
    rewrite Himp in Hzero by done. done.
  - apply filter_prefix. intros i j row row' Hij Hi Hj. by eapply Hsel.
Qed.
End Prefix.

Section SelectionPrefix.
Context `{ArithmeticLaws} {G : Type}.
Context `{!GridTools G (gmap string (Dataset G + string))}.
Implicit Types (w : World (Dataset G)) (rows : list PolyRow) (row : PolyRow).

(** X21. In a run of [SelectTopAgr] that returns, with any arithmetic that
    keeps the laws above, if no polygon of the score-sorted table has a
    negative Shape_Area, then down the table CUM_ACRES does not decrease,
    no row after a row with SELECTION 0 has SELECTION 1, and the polygons
    written to [out_Polys] are the first rows of the table. *)
Theorem SelectTopAgr_selects_prefix in_FarmAgrVal in_ConsLands out_Polys out_Scratch
    w r w' :
  SelectTop.SelectTopAgr in_FarmAgrVal in_ConsLands out_Polys out_Scratch w
  = (Returns r, w') →
  ∃ table,
    score_table w in_FarmAgrVal in_ConsLands table
    ∧ workspace w' !! out_Polys = Some (Polygons (selected table))
    ∧ ((∀ row, row ∈ table → leb (lit 0 0) (Shape_Area row)) →
       (∀ (i j : nat) row row' c c',
          (i ≤ j)%nat → table !! i = Some row → table !! j = Some row' →
          CUM_ACRES row = Some c → CUM_ACRES row' = Some c' → leb c c')
       ∧ (∀ (i j : nat) row row',
            (i ≤ j)%nat → table !! i = Some row → table !! j = Some row' →
            SELECTION row = Some 0 → SELECTION row' = Some 0)
       ∧ ∃ n : nat, selected table = take n table).
Proof.
  intros Hrun.
  apply SelectTopAgr_table in Hrun as (table & Htable & -> & Hout).
  exists table. split; [done|]. split; [done|].
  destruct Htable as (agr & lands & _ & _ & -> & _).
  intros Hpos. apply scored_prefix.
  intros row Hrow. apply list_elem_of_lookup in Hrow as [i Hi].
  destruct (lookup_lt_is_Some_2 (scored (sortedPolys (products (settings w agr) agr lands))) i)
    as [row' Hrow'].
  { rewrite scored_length. by eapply lookup_lt_Some. }
  pose proof Hrow' as Hin. apply scored_lookup_inv in Hrow' as (row0 & Hi0 & ->).
  rewrite Hi in Hi0. simplify_eq.
  specialize (Hpos _ (list_elem_of_lookup_2 _ _ _ Hin)). done.
Qed.
End SelectionPrefix.

(** ** SelectTop.SelectTopAgr: where the polygons come from *)

Section CellValues.
Context `{Number}.
Implicit Types (agr : Raster num) (c : cell) (k : num) (x i value : Z).

Lemma cellval_fmap {A B : Type} (f : A → B) (r : Raster A) c :
  cellval (fmap (M := option) f <$> r) c = f <$> cellval r c.
Proof. unfold cellval. rewrite lookup_fmap. by destruct (r !! c) as [[v|]|]. Qed.

Lemma cellval_greater_than (r : Raster num) k c :
  cellval (greater_than r k) c = (λ v, if ltb k v then 1 else 0) <$> cellval r c.
Proof. apply cellval_fmap. Qed.

Lemma cellval_greater_than_equal (r : Raster num) k c :
  cellval (greater_than_equal r k) c = (λ v, if leb k v then 1 else 0) <$> cellval r c.
Proof. apply cellval_fmap. Qed.

Lemma cellval_equal_to (r : Raster Z) (k : Z) c :
  cellval (equal_to r k) c = (λ v, if decide (v = k) then 1 else 0) <$> cellval r c.
Proof. apply cellval_fmap. Qed.

(** [IsNull] is 1 only on cells without a value. *)
Lemma cellval_is_null {A : Type} (r : Raster A) c :
  cellval (is_null r) c = Some 1 → cellval r c = None.
Proof.
  unfold cellval, is_null. rewrite lookup_fmap.
  by destruct (r !! c) as [[v|]|].
Qed.

Lemma cellval_con_constant (cond : Raster Z) value c :
  cellval (con_constant cond value) c = pick (cellval cond c) (Some value).
Proof.
  unfold cellval, con_constant. rewrite lookup_fmap.
  by destruct (cond !! c) as [[v|]|].
Qed.

Lemma cellval_con_raster {A : Type} (cond : Raster Z) (r : Raster A) c :
  cellval (con_raster cond r) c = pick (cellval cond c) (cellval r c).
Proof.
  unfold cellval, con_raster. rewrite lookup_merge.
  destruct (cond !! c) as [[v|]|], (r !! c) as [[x|]|]; simpl; try done;
    by destruct (decide (v = 0)).
Qed.

Lemma pick_Some {A : Type} (test : option Z) (v : option A) (y : A) :
  pick test v = Some y → (∃ n : Z, test = Some n ∧ n ≠ 0) ∧ v = Some y.
Proof.
  unfold pick. destruct test as [n|]; [|done].
  destruct (decide (n = 0)); [done|]. eauto.
Qed.

(** A cell of the farmland raster has a value above 80. *)
Lemma farmland_cell agr c x :
  cellval (farmland agr) c = Some x →
  ∃ v, cellval agr c = Some v ∧ ltb (lit 80 0) v = true.
Proof.
  unfold farmland. rewrite cellval_con_constant.
  intros [(k & Hk & Hne) _]%pick_Some. rewrite cellval_greater_than in Hk.
  destruct (cellval agr c) as [v|]; [|done]. exists v. split; [done|].
  simpl in Hk. destruct (ltb (lit 80 0) v); [done|]. by simplify_eq.
Qed.

(** A cell of the unprotected farmland is farmland and is not covered by
    the raster of the conserved lands. *)
Lemma unprotected_farmland_cell agr (elimRast : Raster Z) c x :
  cellval (unprotected_farmland agr elimRast) c = Some x →
  (∃ v, cellval agr c = Some v ∧ ltb (lit 80 0) v = true)
  ∧ cellval elimRast c = None.
Proof.
  unfold unprotected_farmland. rewrite cellval_con_raster.
  intros [(k & Hk & Hne) Hfarm]%pick_Some. split; [by eapply farmland_cell|].
  rewrite cellval_equal_to in Hk. apply cellval_is_null.
  destruct (cellval (is_null elimRast) c) as [n|]; [|done]. simpl in Hk.
  destruct (decide (n = 1)); by simplify_eq.
Qed.

(** A cell of the large regions is a cell of a region whose area, as the
    engine gives it, is at least 80937.1. *)
Lemma large_regions_cell (regionSize : Raster num) (regionRast : Raster Z) c i :
  cellval (large_regions regionSize regionRast) c = Some i →
  cellval regionRast c = Some i
  ∧ ∃ a, cellval regionSize c = Some a ∧ leb (lit 809371 (-1)) a = true.
Proof.
  unfold large_regions. rewrite cellval_con_raster.
  intros [(k & Hk & Hne) Hreg]%pick_Some. split; [done|].
  rewrite cellval_greater_than_equal in Hk.
  destruct (cellval regionSize c) as [a|]; [|done]. exists a. split; [done|].
  simpl in Hk. destruct (leb (lit 809371 (-1)) a); [done|]. by simplify_eq.
Qed.
End CellValues.

Section Regions.
Context `{Number} {G : Type}.
Context `{!GridTools G (gmap string (Dataset G + string))}.
Implicit Types (w : World (Dataset G)) (rows : list PolyRow) (row : PolyRow).
Implicit Types (agr : Raster num) (c : cell) (i : Z) (lands : list (LandRow G)).
Implicit Types (E : gmap string (Dataset G + string)).

(** What RegionGroup with FOUR neighbors gives: regions only on cells that
    have a value, and any two cells of a region joined by a chain of
    edge-sharing cells of that region. *)
Definition four_grouped (input regions : Raster Z) : Prop :=
  (∀ c i, cellval regions c = Some i → is_Some (cellval input c))
  ∧ (∀ c c' i, cellval regions c = Some i → cellval regions c' = Some i →
       connected4 (λ x, cellval regions x = Some i) c c').

(** What RasterToPolygon gives: every polygon covers at least one cell, and
    only cells whose value is its gridcode. *)
Definition polygons_cover (raster : Raster Z) rows : Prop :=
  ∀ row, row ∈ rows →
    shape row ≠ ∅ ∧ ∀ c, c ∈ shape row → cellval raster c = Some (gridcode row).

(** A polygon that lies in one region, the region being four-connected,
    made of cells valued above 80 that the conserved lands do not cover,
    and of an area of at least 80937.1. *)
Definition from_farm_region (agr : Raster num) (P : Products) row : Prop :=
  shape row ≠ ∅
  ∧ (∀ c, c ∈ shape row →
       cellval (regionRast P) c = Some (gridcode row)
       ∧ ∃ a, cellval (regionSize P) c = Some a ∧ leb (lit 809371 (-1)) a = true)
  ∧ (∀ c c', c ∈ shape row → c' ∈ shape row →
       connected4 (λ x, cellval (regionRast P) x = Some (gridcode row)) c c')
  ∧ (∀ c, cellval (regionRast P) c = Some (gridcode row) →
       (∃ v, cellval agr c = Some v ∧ ltb (lit 80 0) v = true)
       ∧ cellval (elimRast P) c = None).

(** The polygons of the region table. *)
Lemma regionPolys_from_farm_region E agr lands row :
  let P := products E agr lands in
  four_grouped (vulnFarmRast P) (regionRast P) →
  polygons_cover (regionSubset P) (regionPolys P) →
  row ∈ regionPolys P → from_farm_region agr P row.
Proof.
  intros P [Hdata Hconn] Hcover Hrow.
  destruct (Hcover row Hrow) as [Hne Hcells].
  assert (Hin : ∀ c, c ∈ shape row →
            cellval (regionRast P) c = Some (gridcode row)
            ∧ ∃ a, cellval (regionSize P) c = Some a ∧ leb (lit 809371 (-1)) a = true).
  { intros c Hc. apply large_regions_cell. by apply Hcells. }
  split; [done|]. split; [done|]. split.
  - intros c c' Hc Hc'. apply Hconn; by apply Hin.
  - intros c Hc. destruct (Hdata c _ Hc) as [x Hx].
    by eapply unprotected_farmland_cell.
Qed.

(** C9. In a run of [SelectTopAgr] that returns, and in which RegionGroup
    and RasterToPolygon do what they are documented to do, every polygon
    written to [out_Polys] lies in one four-connected region of cells
    valued above 80 that the raster of the conserved lands does not cover,
    the area of the region being at least 80937.1. *)
Theorem SelectTopAgr_polygons in_FarmAgrVal in_ConsLands out_Polys out_Scratch w r w' :
  SelectTop.SelectTopAgr in_FarmAgrVal in_ConsLands out_Polys out_Scratch w
  = (Returns r, w') →
  ∃ agr lands rows,
    raster_of w in_FarmAgrVal agr
    ∧ workspace w !! in_ConsLands = Some (Lands lands)
    ∧ workspace w' !! out_Polys = Some (Polygons rows)
    ∧ (four_grouped (vulnFarmRast (products (settings w agr) agr lands))
                    (regionRast (products (settings w agr) agr lands)) →
       polygons_cover (regionSubset (products (settings w agr) agr lands))
                      (regionPolys (products (settings w agr) agr lands)) →
       ∀ row, row ∈ rows →
         from_farm_region agr (products (settings w agr) agr lands) row).
Proof.
  intros Hrun.
  apply SelectTopAgr_table in Hrun as (table & Htable & -> & Hout).
  destruct Htable as (agr & lands & Hagr & Hlands & -> & Hperm).
  exists agr, lands. eexists. split; [done|]. split; [done|]. split; [done|].
  intros Hgroup Hcover row Hrow.
  apply list_elem_of_filter in Hrow as [_ Hrow].
  assert (Hkey : polygon_key row
                 ∈ polygon_key <$> regionPolys (products (settings w agr) agr lands)).
  { rewrite <-Hperm. by apply list_elem_of_fmap_2. }
  apply list_elem_of_fmap in Hkey as (row0 & Hkey & Hrow0).
  pose proof (regionPolys_from_farm_region _ _ _ _ Hgroup Hcover Hrow0) as Hfrom.
  unfold polygon_key in Hkey. injection Hkey as Hshape Hcode _.
  unfold from_farm_region in *. by rewrite Hshape, Hcode.
Qed.
End Regions.

(** * More of Helper.py *)

(** ** Strings *)

Section Strings.
Import Stdlib.Strings.Ascii.

(** The characters of a string. *)
Fixpoint characters (s : string) : list ascii :=
  match s with
  | EmptyString => []
  | String c s' => c :: characters s'
  end.
End Strings.

(** ** Helper.unique_values and Helper.TabToDict *)

(** A set made of a list has at most as many elements as the list, and as
    many when the list has no repetition. *)
Lemma size_list_to_set_le `{Countable A} (l : list A) :
  (size (list_to_set l : gset A) ≤ length l)%nat
  ∧ (size (list_to_set l : gset A) = length l ↔ NoDup l).
Proof.
  induction l as [|x l [IHle IHeq]]; simpl.
  - split; [done|]. split; [constructor|done].
  - rewrite NoDup_cons. destruct (decide (x ∈ l)) as [Hin|Hnin].
    + replace ({[x]} ∪ list_to_set l : gset A) with (list_to_set l : gset A)
        by (apply set_eq; intros y;
            rewrite elem_of_union, elem_of_singleton, !elem_of_list_to_set; naive_solver).
      split; [lia|]. split; [lia|tauto].
    + rewrite size_union by set_solver. rewrite size_singleton.
      split; [lia|]. rewrite <-IHeq.
      split; [intros ?; split; [done|lia]|intros [_ ?]; lia].
Qed.

Section TabToDictSize.
Context {D Value : Type} `{Countable Value} `{!Cursors D Value}.
Implicit Types (w : World D) (rows : list (Value * Value)).

Lemma dom_entered rows (codeDict : gmap Value Value) :
  dom (entered codeDict rows) = dom codeDict ∪ list_to_set rows.*1.
Proof.
  unfold entered. revert codeDict.
  induction rows as [|row rows IH]; intros codeDict; simpl; [set_solver|].
  rewrite IH, dom_insert_L. set_solver.
Qed.

Lemma TabToDict_runs (inTab fldKey fldValue : string) w :
  Helper.TabToDict inTab fldKey fldValue w
  = (from_option (λ rows, Returns (entered ∅ rows))
       (Raises (mkExn "RuntimeError" ("cannot open '" +:+ inTab +:+ "'")))
       (workspace w !! inTab ≫= (λ d, table_rows d fldKey fldValue)), w).
Proof.
  unfold Helper.TabToDict. rewrite run_bind. unfold Helper.SearchCursor.
  destruct (workspace w !! inTab ≫= _) as [rows|]; [|done].
  rewrite run_bind. by rewrite TabToDict_loop.
Qed.

(** X3. [TabToDict] only reads: however it ends, the session is as before; it
    returns when the cursor can be opened on the two fields, and raises
    when the table or one of the fields is missing. *)
Theorem TabToDict_reads_only (inTab fldKey fldValue : string) w :
  (Helper.TabToDict inTab fldKey fldValue w).2 = w
  ∧ ((∃ codeDict, (Helper.TabToDict inTab fldKey fldValue w).1 = Returns codeDict)
     ↔ ∃ d rows, workspace w !! inTab = Some d ∧ table_rows d fldKey fldValue = Some rows)
  ∧ ((∃ e, (Helper.TabToDict inTab fldKey fldValue w).1 = Raises e)
     ↔ workspace w !! inTab ≫= (λ d, table_rows d fldKey fldValue) = None).
Proof.
  rewrite TabToDict_runs. simpl.
  destruct (workspace w !! inTab) as [d|]; simpl;
    [destruct (table_rows d fldKey fldValue) as [rows|] eqn:Hrows|]; simpl.
  - split; [done|]. split; [split; eauto|]. split; [by intros [e He]|done].
  - split; [done|]. split; [|split; eauto]. split; [by intros [? ?]|].
    intros (d' & rows & [= <-] & Hr). congruence.
  - split; [done|]. split; [|split; eauto]. split; [by intros [? ?]|].
    by intros (? & ? & ? & ?).
Qed.

(** X4. The dictionary has one entry per distinct key of the table: the keys
    are those of the rows, there are at most as many entries as rows, and
    as many exactly when no two rows have the same key.  An empty table
    gives the empty dictionary. *)
Theorem TabToDict_keys (inTab fldKey fldValue : string) w (d : D) rows :
  workspace w !! inTab = Some d →
  table_rows d fldKey fldValue = Some rows →
  ∃ codeDict : gmap Value Value,
    (Helper.TabToDict inTab fldKey fldValue w).1 = Returns codeDict
    ∧ dom codeDict = list_to_set rows.*1
    ∧ (size codeDict ≤ length rows)%nat
    ∧ (size codeDict = length rows ↔ NoDup rows.*1)
    ∧ (codeDict = ∅ ↔ rows = []).
Proof.
  intros Hin Hrows. rewrite TabToDict_runs, Hin. simpl. rewrite Hrows.
  exists (entered ∅ rows). split; [done|].
  assert (Hdom : dom (entered ∅ rows) = list_to_set rows.*1).
  { rewrite dom_entered. set_solver. }
  destruct (size_list_to_set_le rows.*1) as [Hle Heq].
  rewrite length_fmap in Hle, Heq.
  rewrite <-size_dom, Hdom. split; [done|]. split; [done|]. split; [done|]. split.
  - intros Hempty. rewrite Hempty, dom_empty_L in Hdom.
    destruct rows as [|row rows]; [done|]. simpl in Hdom. set_solver.
  - by intros ->.
Qed.
End TabToDictSize.

(** The sample table: four rows, three codes. *)
Lemma TabToDict_keys_witness :
  ∃ codeDict : gmap string string,
    (Helper.TabToDict "landcover" "CODE" "NAME"
       (Sample.session {["landcover" := Sample.landcover]} Sample.no_faults)).1
    = Returns codeDict
    ∧ dom codeDict = {["11"; "21"; "81"]}
    ∧ (size codeDict ≤ 4)%nat.
Proof.
  destruct (TabToDict_keys "landcover" "CODE" "NAME"
              (Sample.session {["landcover" := Sample.landcover]} Sample.no_faults)
              Sample.landcover Sample.landcover)
    as (codeDict & Hrun & Hdom & Hsize & _).
  - reflexivity.
  - reflexivity.
  - exists codeDict. split; [exact Hrun|]. split; [|exact Hsize].
    rewrite Hdom. simpl. set_solver.
Defined.

(** A list in ascending order without repetitions is in strictly
    ascending order. *)
Lemma StronglySorted_strict {A} (le : relation A) (l : list A) :
  StronglySorted le l → NoDup l → StronglySorted (λ x y, le x y ∧ x ≠ y) l.
Proof.
  induction 1 as [|x l Hsorted IH Hall]; intros Hnodup; [constructor|].
  apply NoDup_cons in Hnodup as [Hx Hnodup]. constructor; [auto|].
  rewrite Forall_forall in Hall |- *. intros y Hy. split; [auto|].
  intros ->. done.
Qed.

Section UniqueValues.
Context {D Value : Type} `{Countable Value} `{!FieldCursor D Value}.
Context (le : relation Value) `{!RelDecision le}.
Implicit Types (w : World D) (values : list Value).

Lemma unique_values_runs (table field : string) w :
  Helper.unique_values le table field w
  = (from_option
       (λ values, Returns (merge_sort le (elements (list_to_set values : gset Value))))
       (Raises (mkExn "RuntimeError" ("cannot open '" +:+ table +:+ "'")))
       (workspace w !! table ≫= (λ d, field_values d field)), w).
Proof.
  unfold Helper.unique_values. rewrite run_bind. unfold Helper.FieldSearchCursor.
  by destruct (workspace w !! table ≫= _).
Qed.

(** X1. On a table that has the field, and for values that [le] orders,
    [unique_values] returns the values of the field in strictly ascending
    order: every value of the field is in the list, once, and nothing
    else; the session is left as it was. *)
Theorem unique_values_ascending `{!Total le} `{!Transitive le}
    (table field : string) w (d : D) values :
  workspace w !! table = Some d →
  field_values d field = Some values →
  ∃ result,
    Helper.unique_values le table field w = (Returns result, w)
    ∧ StronglySorted (λ x y, le x y ∧ x ≠ y) result
    ∧ NoDup result
    ∧ (∀ v, v ∈ result ↔ v ∈ values)
    ∧ (length result ≤ length values)%nat.
Proof.
  intros Hin Hvalues. rewrite unique_values_runs, Hin. simpl. rewrite Hvalues. simpl.
  eexists. split; [done|].
  assert (Hperm : merge_sort le (elements (list_to_set values : gset Value))
                  ≡ₚ elements (list_to_set values : gset Value))
    by apply merge_sort_Permutation.
  assert (Hnodup : NoDup (merge_sort le (elements (list_to_set values : gset Value)))).
  { rewrite Hperm. apply NoDup_elements. }
  split; [|split; [done|split]].
  - apply StronglySorted_strict; [|done]. by apply StronglySorted_merge_sort.
  - intros v. by rewrite Hperm, elem_of_elements, elem_of_list_to_set.
  - rewrite Hperm. change (length (elements ?X)) with (size X).
    apply size_list_to_set_le.
Qed.

End UniqueValues.

Section UniqueKeys.
Context {D Value : Type} `{Countable Value} `{!Cursors D Value} `{!FieldCursor D Value}.
Context (le : relation Value) `{!RelDecision le}.
Implicit Types (w : World D).

(** X2. [unique_values] on the key field lists the keys of the dictionary
    that [TabToDict] makes of the table: the same values, as many, when a
    cursor on the key field alone yields the keys of the cursor on both
    fields. *)
Theorem unique_values_TabToDict (inTab fldKey fldValue : string) w (d : D) rows :
  workspace w !! inTab = Some d →
  table_rows d fldKey fldValue = Some rows →
  field_values d fldKey = Some rows.*1 →
  ∃ keys (codeDict : gmap Value Value),
    (Helper.unique_values le inTab fldKey w).1 = Returns keys
    ∧ (Helper.TabToDict inTab fldKey fldValue w).1 = Returns codeDict
    ∧ keys ≡ₚ elements (dom codeDict)
    ∧ (∀ key, key ∈ keys ↔ is_Some (codeDict !! key))
    ∧ length keys = size codeDict.
Proof.
  intros Hin Hrows Hkeys.
  rewrite unique_values_runs, TabToDict_runs, Hin. simpl. rewrite Hrows, Hkeys. simpl.
  eexists _, _. split; [done|]. split; [done|].
  assert (Hperm : merge_sort le (elements (list_to_set rows.*1 : gset Value))
                  ≡ₚ elements (dom (entered ∅ rows))).
  { rewrite merge_sort_Permutation, dom_entered.
    by replace (dom (∅ : gmap Value Value) ∪ list_to_set rows.*1)
      with (list_to_set rows.*1 : gset Value) by set_solver. }
  split; [done|]. split.
  - intros key. by rewrite Hperm, elem_of_elements, elem_of_dom.
  - by rewrite Hperm, <-size_dom.
Qed.
End UniqueKeys.

(** The codes of the sample table, the code "11" coming twice. *)
Lemma unique_values_ascending_witness :
  ∃ result,
    Helper.unique_values String.le "landcover" "CODE"
      (Sample.session {["landcover" := Sample.landcover]} Sample.no_faults)
    = (Returns result,
       Sample.session {["landcover" := Sample.landcover]} Sample.no_faults)
    ∧ StronglySorted (λ x y, String.le x y ∧ x ≠ y) result
    ∧ NoDup result
    ∧ (∀ v, v ∈ result ↔ v ∈ Sample.landcover.*1)
    ∧ (length result ≤ length Sample.landcover.*1)%nat.
Proof.
  apply (unique_values_ascending String.le "landcover" "CODE"
           (Sample.session {["landcover" := Sample.landcover]} Sample.no_faults)
           Sample.landcover Sample.landcover.*1).
  - reflexivity.
  - reflexivity.
Defined.

Example unique_values_sample :
  (Helper.unique_values String.le "landcover" "CODE"
     (Sample.session {["landcover" := Sample.landcover]} Sample.no_faults)).1
  = Returns ["11"; "21"; "81"].
Proof. vm_compute. reflexivity. Qed.

(** The codes of the sample table are the keys of its dictionary. *)
Lemma unique_values_TabToDict_witness :
  ∃ keys (codeDict : gmap string string),
    (Helper.unique_values String.le "landcover" "CODE"
       (Sample.session {["landcover" := Sample.landcover]} Sample.no_faults)).1
    = Returns keys
    ∧ (Helper.TabToDict "landcover" "CODE" "NAME"
         (Sample.session {["landcover" := Sample.landcover]} Sample.no_faults)).1
      = Returns codeDict
    ∧ keys ≡ₚ elements (dom codeDict)
    ∧ (∀ key, key ∈ keys ↔ is_Some (codeDict !! key))
    ∧ length keys = size codeDict.
Proof.
  apply (unique_values_TabToDict String.le "landcover" "CODE" "NAME"
           (Sample.session {["landcover" := Sample.landcover]} Sample.no_faults)
           Sample.landcover Sample.landcover).
  - reflexivity.
  - reflexivity.
  - reflexivity.
Defined.

(** ** Helper.multiMeasure *)

Section MultiMeasure.
Import Stdlib.Strings.Ascii.
Context {F : Type} `{!Builtin.Float F}.
Implicit Types (s a b : string) (sep : ascii).

Lemma append_empty s : s +:+ EmptyString = s.
Proof.
  induction s as [|c s IH]; [done|].
  change (String c (s +:+ EmptyString) = String c s). by rewrite IH.
Qed.

Lemma split_without sep s : sep ∉ characters s → Builtin.split sep s = [s].
Proof.
  induction s as [|c s IH]; simpl; [done|]. intros Hs.
  apply not_elem_of_cons in Hs as [Hc Hs].
  rewrite decide_False by done. by rewrite IH.
Qed.

Lemma split_at sep a s :
  sep ∉ characters a →
  Builtin.split sep (a +:+ String sep s) = a :: Builtin.split sep s.
Proof.
  induction a as [|c a IH]; simpl; intros Ha.
  - by rewrite decide_True.
  - apply not_elem_of_cons in Ha as [Hc Ha].
    rewrite decide_False by done.
    change (String.append a (String sep s)) with (a +:+ String sep s).
    by rewrite IH.
Qed.

(** X5. On a number and a unit separated by one space, [multiMeasure] returns
    the product, the unit, and the two joined by a space.  Whatever comes
    after a second space is dropped. *)
Theorem multiMeasure_parses (a b : string) (more : option string) (multi x : F) :
  " "%char ∉ characters a → " "%char ∉ characters b →
  Builtin.float a = Some x →
  Helper.multiMeasure (a +:+ " " +:+ b +:+ from_option (λ r, " " +:+ r) EmptyString more)
                      multi
  = Returns (Builtin.float_mul x multi, b,
             Builtin.float_str (Builtin.float_mul x multi) +:+ " " +:+ b).
Proof.
  intros Ha Hb Hx. unfold Helper.multiMeasure.
  assert (Hsplit : Builtin.split " "%char
                     (b +:+ from_option (λ r, " " +:+ r) EmptyString more) !! 0%nat
                   = Some b).
  { destruct more as [r|]; simpl.
    - change (" " +:+ r) with (String " "%char r). by rewrite split_at.
    - by rewrite append_empty, split_without. }
  change (a +:+ " " +:+ b +:+ from_option (λ r, " " +:+ r) EmptyString more)
    with (a +:+ String " "%char (b +:+ from_option (λ r, " " +:+ r) EmptyString more)).
  rewrite split_at by done. simpl. by rewrite Hx, Hsplit.
Qed.

(** X6. [multiMeasure] returns only on a string with a space in it: without
    one it raises, ValueError when the string is no number, and IndexError
    when it is. *)
Theorem multiMeasure_without_space (meas : string) (multi : F) :
  " "%char ∉ characters meas →
  ∃ e, Helper.multiMeasure meas multi = Raises e
       ∧ exn_class e = match Builtin.float meas with
                       | Some _ => "IndexError"
                       | None => "ValueError"
                       end.
Proof.
  intros Hmeas. unfold Helper.multiMeasure. rewrite split_without by done. simpl.
  destruct (Builtin.float meas); by eexists.
Qed.
End MultiMeasure.

(** A check that a given string has no space. *)
Lemma no_space_in_sample (s : string) :
  forallb (λ c, negb (bool_decide (c = Ascii.Space))) (characters s) = true →
  Ascii.Space ∉ characters s.
Proof.
  induction (characters s) as [|c cs IH]; simpl; [intros _; apply not_elem_of_nil|].
  intros [Hc Hcs]%andb_true_iff. apply not_elem_of_cons. split; [|auto].
  apply negb_true_iff, bool_decide_eq_false in Hc. congruence.
Qed.

(** A measurement, and one with a unit of two words. *)
Lemma multiMeasure_parses_witness :
  Helper.multiMeasure "100 METERS" 3
  = Returns (300, "METERS", "300.0 METERS")
  ∧ Helper.multiMeasure "100 SQUARE METERS" 3
    = Returns (300, "SQUARE", "300.0 SQUARE").
Proof.
  split.
  - exact (multiMeasure_parses "100" "METERS" None 3 100
             (no_space_in_sample "100" eq_refl) (no_space_in_sample "METERS" eq_refl)
             eq_refl).
  - exact (multiMeasure_parses "100" "SQUARE" (Some "METERS") 3 100
             (no_space_in_sample "100" eq_refl) (no_space_in_sample "SQUARE" eq_refl)
             eq_refl).
Defined.

(** A measurement written without the space. *)
Lemma multiMeasure_without_space_witness :
  ∃ e, Helper.multiMeasure "100METERS" 3 = Raises e
       ∧ exn_class e = "ValueError".
Proof.
  exact (multiMeasure_without_space "100METERS" 3
           (no_space_in_sample "100METERS" eq_refl)).
Defined.

(** ** Python: [int] reads what [str] writes *)

Section IntStr.
Import Stdlib.Strings.Ascii.
Implicit Types (s : string) (c : ascii).

(** A string without blanks. *)
Definition unspaced s : Prop := Forall (λ c, Ascii.is_space c = false) (characters s).

Lemma lstrip_unspaced s : unspaced s → Builtin.lstrip s = s.
Proof. destruct s as [|c s]; [done|]. intros [Hc _]%Forall_cons. simpl. by rewrite Hc. Qed.

Lemma rstrip_unspaced s : unspaced s → Builtin.rstrip s = s.
Proof.
  induction s as [|c s IH]; [done|]. intros [Hc Hs]%Forall_cons. simpl.
  rewrite IH, Hc by done. by destruct s.
Qed.

Lemma strip_unspaced s : unspaced s → Builtin.strip s = s.
Proof. intros Hs. unfold Builtin.strip. by rewrite lstrip_unspaced, rstrip_unspaced. Qed.

Lemma pretty_N_char_digit (x : N) :
  (x < 10)%N → Ascii.is_nat (pretty_N_char x) = Some (N.to_nat x).
Proof.
  intros Hx.
  assert (x = 0 ∨ x = 1 ∨ x = 2 ∨ x = 3 ∨ x = 4 ∨ x = 5 ∨ x = 6 ∨ x = 7 ∨ x = 8 ∨ x = 9)%N
    as Hcases by lia.
  repeat destruct Hcases as [->|Hcases]; try done. by subst.
Qed.

Lemma pretty_N_char_unspaced (x : N) : Ascii.is_space (pretty_N_char x) = false.
Proof. unfold pretty_N_char. by repeat case_match. Qed.

Lemma pretty_N_go_unspaced (x : N) s : unspaced s → unspaced (pretty_N_go x s).
Proof.
  revert s. induction (N.lt_wf_0 x) as [x _ IH]; intros s Hs.
  destruct (decide (x = 0)%N) as [->|Hx]; [by rewrite pretty_N_go_0|].
  rewrite pretty_N_go_step by lia. apply IH; [apply N.div_lt; lia|].
  apply Forall_cons. split; [apply pretty_N_char_unspaced|done].
Qed.

(** The digits that [str] writes for [x], read after no digits, are read
    as [x]. *)
Lemma digits_value_pretty_N_go (x : N) s :
  Builtin.digits_value 0 (pretty_N_go x s) = Builtin.digits_value (Z.of_N x) s.
Proof.
  revert s. induction (N.lt_wf_0 x) as [x _ IH]; intros s.
  destruct (decide (x = 0)%N) as [->|Hx]; [by rewrite pretty_N_go_0|].
  rewrite pretty_N_go_step by lia. rewrite IH by (apply N.div_lt; lia).
  simpl. rewrite pretty_N_char_digit by (apply N.mod_lt; lia). simpl.
  f_equal. pose proof (N.div_mod x 10 ltac:(lia)). lia.
Qed.

Lemma int_digits s :
  unspaced s → s ≠ EmptyString → is_Some (Builtin.digits_value 0 s) →
  Builtin.int s = Builtin.digits_value 0 s.
Proof.
  intros Hs Hne Hdigits. unfold Builtin.int. rewrite strip_unspaced by done.
  destruct s as [|c s]; [done|].
  destruct (decide (c = "-"%char)) as [->|Hminus]; [by destruct Hdigits|].
  destruct (decide (c = "+"%char)) as [->|Hplus]; [by destruct Hdigits|].
  done.
Qed.

Lemma int_str_pos (p : positive) : Builtin.int (pretty (N.pos p)) = Some (Z.pos p).
Proof.
  unfold pretty, pretty_N. rewrite decide_False by done.
  assert (Hvalue : Builtin.digits_value 0 (pretty_N_go (N.pos p) EmptyString)
                   = Some (Z.pos p)) by (by rewrite digits_value_pretty_N_go).
  rewrite int_digits; [done| | |by rewrite Hvalue].
  - apply pretty_N_go_unspaced. constructor.
  - intros Hempty. by rewrite Hempty in Hvalue.
Qed.

(** [int(str(n))] is [n], for every integer [n]. *)
Lemma int_str (n : Z) : Builtin.int (str n) = Some n.
Proof.
  unfold str. destruct n as [|p|p]; [done|apply int_str_pos|].
  change (pretty (Z.neg p)) with ("-" +:+ pretty (N.pos p)).
  pose proof (int_str_pos p) as Hpos.
  unfold pretty, pretty_N in *. rewrite decide_False in * by done.
  assert (Hs : unspaced (pretty_N_go (N.pos p) EmptyString))
    by (apply pretty_N_go_unspaced; constructor).
  assert (Hvalue : Builtin.digits_value 0 (pretty_N_go (N.pos p) EmptyString)
                   = Some (Z.pos p)) by (by rewrite digits_value_pretty_N_go).
  unfold Builtin.int. rewrite strip_unspaced by (by apply Forall_cons).
  change ("-" +:+ pretty_N_go (N.pos p) EmptyString)
    with (String "-"%char (pretty_N_go (N.pos p) EmptyString)).
  cbv beta iota. rewrite decide_True by done.
  rewrite decide_False by (intros Hempty; by rewrite Hempty in Hvalue).
  by rewrite Hvalue.
Qed.
End IntStr.

(** ** Helper.countFeatures *)

Section CountFeatures.
Context {D : Type} `{!LayerTools D}.
Implicit Types w : World D.

(** X7. [countFeatures] returns the number of rows that the engine reports,
    as an integer, and leaves the workspace as it is; it raises only when
    the engine does, and then with the exception of the engine: the string
    that the engine returns is always read back as a number. *)
Theorem countFeatures_counts (features : string) w :
  workspace (Helper.countFeatures features w).2 = workspace w
  ∧ match faults w (length (history w)) "GetCount_management", workspace w !! features with
    | Some e, _ => (Helper.countFeatures features w).1 = Raises e
    | None, Some d => (Helper.countFeatures features w).1 = Returns (Z.of_nat (row_count d))
    | None, None =>
        (Helper.countFeatures features w).1 = Raises (ExecuteError "GetCount_management")
    end.
Proof.
  unfold Helper.countFeatures, GetCount_management, gp. rewrite run_bind.
  destruct (faults w _ _) as [e|]; [done|].
  destruct (workspace w !! features) as [d|]; simpl; [|done].
  by rewrite int_str.
Qed.
End CountFeatures.

(** ** Helper.countSelectedFeatures *)

Section CountSelected.
Context {D : Type} `{!LayerTools D}.
Implicit Types (w : World D) (s sep : string).

Lemma length_append s1 s2 :
  String.length (s1 +:+ s2) = (String.length s1 + String.length s2)%nat.
Proof.
  induction s1 as [|c s1 IH]; [done|].
  change (String c s1 +:+ s2) with (String c (s1 +:+ s2)). simpl. by rewrite IH.
Qed.

Lemma pretty_N_go_length (x : N) s :
  (String.length s ≤ String.length (pretty_N_go x s))%nat.
Proof.
  revert s. induction (N.lt_wf_0 x) as [x _ IH]; intros s.
  destruct (decide (x = 0)%N) as [->|Hx]; [by rewrite pretty_N_go_0|].
  rewrite pretty_N_go_step by lia.
  etrans; [|apply IH; apply N.div_lt; lia]. simpl. lia.
Qed.

(** [str] of an integer has at least one character. *)
Lemma str_length (n : Z) : (1 ≤ String.length (str n))%nat.
Proof.
  assert (Hpos : ∀ p, (1 ≤ String.length (pretty (N.pos p)))%nat).
  { intros p. unfold pretty, pretty_N. rewrite decide_False by done.
    rewrite pretty_N_go_step by lia.
    etrans; [|apply pretty_N_go_length]. simpl. lia. }
  unfold str. destruct n as [|p|p]; [done|apply Hpos|].
  change (pretty (Z.neg p)) with ("-" +:+ pretty (N.pos p)).
  rewrite length_append. simpl. lia.
Qed.

(** Strings that are not empty, joined by a separator that is not empty:
    each takes a character, and so does each separator between two. *)
Lemma length_concat sep (names : list string) :
  (1 ≤ String.length sep)%nat →
  (∀ name, name ∈ names → (1 ≤ String.length name)%nat) →
  (2 * length names ≤ String.length (String.concat sep names) + 1)%nat.
Proof.
  intros Hsep. induction names as [|name names IH]; intros Hnames; [simpl; lia|].
  pose proof (Hnames name (list_elem_of_here _ _)).
  assert (2 * length names ≤ String.length (String.concat sep names) + 1)%nat as Hrest.
  { apply IH. intros name' Hin. apply Hnames. by apply list_elem_of_further. }
  destruct names as [|name' names]; [simpl; lia|].
  change (String.concat sep (name :: name' :: names))
    with (name +:+ sep +:+ String.concat sep (name' :: names)).
  rewrite !length_append. cbn [length] in *. lia.
Qed.

(** X8. FIDSet is a string: the ids of the selected features, joined by a
    separator.  The count that [countSelectedFeatures] returns is the
    number of characters of that string: it is 0 exactly when nothing is
    selected, and more than the number of selected features as soon as
    two are selected. *)
Theorem countSelectedFeatures_counts_characters
    (featureLyr : string) w (d : D) (sep : string) (ids : list Z) :
  workspace w !! featureLyr = Some d →
  FIDSet d = String.concat sep (str <$> ids) →
  sep ≠ EmptyString →
  ∃ count : Z,
    Helper.countSelectedFeatures featureLyr w = (Returns count, w)
    ∧ (count = 0 ↔ ids = [])
    ∧ 2 * Z.of_nat (length ids) - 1 ≤ count
    ∧ (count = Z.of_nat (length ids) → (length ids ≤ 1)%nat).
Proof.
  intros Hin Hset Hsep. unfold Helper.countSelectedFeatures, Describe.
  rewrite run_bind, Hin. eexists. split; [done|].
  assert (1 ≤ String.length sep)%nat as Hlen by (destruct sep; [done|simpl; lia]).
  pose proof (length_concat sep (str <$> ids) Hlen) as Hcount.
  rewrite length_fmap in Hcount. rewrite Hset.
  assert (2 * length ids ≤ String.length (String.concat sep (str <$> ids)) + 1)%nat.
  { apply Hcount. intros name (n & -> & _)%list_elem_of_fmap. apply str_length. }
  split; [|split; lia].
  destruct ids as [|id ids]; [done|]. cbn [length] in *. split; [lia|done].
Qed.
End CountSelected.

(** Two selected features, the ids 3 and 12: the count is 5. *)
Lemma countSelectedFeatures_counts_characters_witness :
  ∃ count : Z,
    Helper.countSelectedFeatures "roads"
      (Sample.session {["roads" := Sample.roads]} Sample.no_faults)
    = (Returns count, Sample.session {["roads" := Sample.roads]} Sample.no_faults)
    ∧ (count = 0 ↔ [3; 12] = [])
    ∧ 2 * Z.of_nat (length [3; 12]) - 1 ≤ count
    ∧ (count = Z.of_nat (length [3; 12]) → (length [3; 12] ≤ 1)%nat).
Proof.
  apply (countSelectedFeatures_counts_characters "roads"
           (Sample.session {["roads" := Sample.roads]} Sample.no_faults)
           Sample.roads "; " [3; 12]).
  - reflexivity.
  - reflexivity.
  - discriminate.
Defined.

Example countSelectedFeatures_sample :
  (Helper.countSelectedFeatures "roads"
     (Sample.session {["roads" := Sample.roads]} Sample.no_faults)).1
  = Returns 5.
Proof. vm_compute. reflexivity. Qed.

(** ** Helper.garbagePickup: what is left in the workspace *)

Section GarbagePickupEffect.
Context {D : Type}.
Implicit Types w : World D.

Lemma garbagePickup_frame (trashList : list string) w :
  faults (Helper.garbagePickup trashList w).2 = faults w
  ∧ ∀ p, workspace (Helper.garbagePickup trashList w).2 !! p = workspace w !! p
         ∨ (p ∈ trashList ∧ workspace (Helper.garbagePickup trashList w).2 !! p = None).
Proof.
  unfold Helper.garbagePickup. revert w.
  induction trashList as [|t ts IH]; intros w; simpl; [by auto|].
  destruct (guarded_delete t w) as (w1 & ev & Hrun & _ & _ & _ & Hws & Hf & _).
  unfold bind. rewrite Hrun.
  destruct (IH w1) as [Hf' Hrest]. split; [congruence|].
  intros p. destruct (Hrest p) as [Hp|[Hp Hnone]].
  - rewrite Hp, Hws. destruct (ev_error ev); [by left|].
    destruct (decide (p = t)) as [->|Hne].
    + right. split; [apply list_elem_of_here|]. apply lookup_delete_eq.
    + left. by rewrite lookup_delete_ne.
  - right. split; [by apply list_elem_of_further|done].
Qed.

(** X9. Whatever the engine does, the datasets that are not in the list
    are as before [garbagePickup]; a dataset of the list is gone or as
    before; and the fault plan is as before. *)
Theorem garbagePickup_keeps_others (trashList : list string) w :
  let w' := (Helper.garbagePickup trashList w).2 in
  faults w' = faults w
  ∧ (∀ p, p ∉ trashList → workspace w' !! p = workspace w !! p)
  ∧ (∀ p, p ∈ trashList →
       workspace w' !! p = None ∨ workspace w' !! p = workspace w !! p).
Proof.
  destruct (garbagePickup_frame trashList w) as [Hf Hrest].
  split; [done|]. split.
  - intros p Hp. by destruct (Hrest p) as [?|[? _]].
  - intros p _. destruct (Hrest p) as [?|[_ ?]]; auto.
Qed.

(** X10. When the engine refuses no deletion, none of the listed datasets is
    left, also when the list names a dataset twice or names a dataset that
    does not exist. *)
Theorem garbagePickup_deletes (trashList : list string) w :
  (∀ n, faults w n "Delete_management" = None) →
  ∀ p, workspace (Helper.garbagePickup trashList w).2 !! p
       = if decide (p ∈ trashList) then None else workspace w !! p.
Proof.
  unfold Helper.garbagePickup. revert w.
  induction trashList as [|t ts IH]; intros w Hplan p; simpl.
  { done. }
  destruct (guarded_delete t w) as (w1 & ev & Hrun & _ & _ & Herr & Hws & Hf & _).
  unfold bind. rewrite Hrun. rewrite IH by (intros n; rewrite Hf; apply Hplan).
  rewrite Hplan in Herr.
  assert (Hdel : workspace w1 = delete t (workspace w)).
  { rewrite Hws, Herr. destruct (workspace w !! t) eqn:Ht; [done|]. by rewrite delete_id. }
  rewrite Hdel. destruct (decide (p ∈ ts)) as [Hin|Hnin].
  - rewrite decide_True; [done|by apply list_elem_of_further].
  - destruct (decide (p = t)) as [->|Hne].
    + rewrite decide_True by apply list_elem_of_here. apply lookup_delete_eq.
    + rewrite decide_False by (by intros [?|?]%elem_of_cons). by apply lookup_delete_ne.
Qed.
End GarbagePickupEffect.

(** A list that names a dataset twice, and one that does not exist. *)
Lemma garbagePickup_deletes_witness :
  let w := Sample.session {["parcels" := Sample.parcels; "county" := Sample.county]}
             Sample.no_faults in
  (∀ n, faults w n "Delete_management" = None)
  ∧ workspace (Helper.garbagePickup ["parcels"; "nothing"; "parcels"] w).2 !! "parcels" = None
  ∧ workspace (Helper.garbagePickup ["parcels"; "nothing"; "parcels"] w).2 !! "county"
    = Some Sample.county.
Proof.
  intros w.
  assert (Hplan : ∀ n, faults w n "Delete_management" = None) by reflexivity.
  split; [exact Hplan|]. split.
  - rewrite (garbagePickup_deletes ["parcels"; "nothing"; "parcels"] w Hplan "parcels").
    reflexivity.
  - rewrite (garbagePickup_deletes ["parcels"; "nothing"; "parcels"] w Hplan "county").
    reflexivity.
Defined.

(** ** Helper.CleanFeatures: bounds that hold for every fault plan *)

Section CleanFeaturesBounds.
Context {D : Type} `{!VectorTools D}.
Implicit Types w : World D.

(** The number of calls of a tool among the entries of a log. *)
Definition calls (tool : string) (evs : list Event) : nat :=
  length (filter (λ ev, ev_tool ev = tool) evs).

Lemma calls_cons tool ev evs :
  calls tool (ev :: evs)
  = ((if decide (ev_tool ev = tool) then 1 else 0) + calls tool evs)%nat.
Proof. unfold calls. rewrite filter_cons. by destruct (decide _). Qed.

(** A run from [w] that has ended, with at most [left] conversions, each
    followed by at most one repair, at most one copy, and no deletion. *)
Definition ends_within {A} w (left : nat) (r : Outcome A * World D) : Prop :=
  ∃ evs,
    r.1 ≠ Diverges
    ∧ history r.2 = history w ++ evs
    ∧ (calls "MultipartToSinglepart_management" evs ≤ left)%nat
    ∧ (calls "RepairGeometry_management" evs ≤ left)%nat
    ∧ (calls "CopyFeatures_management" evs ≤ 1)%nat
    ∧ (length evs ≤ 2 * left + 1)%nat
    ∧ (length evs
       = calls "MultipartToSinglepart_management" evs
         + calls "RepairGeometry_management" evs
         + calls "CopyFeatures_management" evs)%nat.

Ltac count_calls :=
  rewrite ?calls_cons; simpl; unfold calls; simpl; split_and!; lia.

Lemma CleanFeatures_loop_bounded inFeats outFeats (fuel : nat) : ∀ (counter : Z) w,
  1 ≤ counter → (Z.to_nat (11 - counter) ≤ fuel)%nat →
  ends_within w (Z.to_nat (11 - counter))
    (Helper.CleanFeatures_loop fuel inFeats outFeats counter w).
Proof.
  induction fuel as [|fuel IH]; intros counter w Hc Hfuel;
    unfold Helper.CleanFeatures_loop; cbn [while_];
    destruct (Z.leb_spec counter 10) as [Hle|Hgt].
  - lia.
  - exists []. rewrite app_nil_r. simpl. split; [done|]. split; [done|]. count_calls.
  - fold (Helper.CleanFeatures_loop fuel inFeats outFeats).
    unfold bind at 1. unfold try_except at 1. rewrite run_bind.
    unfold MultipartToSinglepart_management at 1.
    destruct (gp_cases "MultipartToSinglepart_management" [inFeats; outFeats]
      (λ ws, d ← ws !! inFeats; Some ((), <[outFeats:=multipart_to_singlepart d]> ws)) w)
      as [(a & ws & -> & _ & _)|(e & ->)].
    + eexists [_]. unfold Helper.CleanFeatures_loop.
      destruct fuel; simpl; (split; [done|]); (split; [done|]); count_calls.
    + py_unfold.
      match goal with |- context [RepairGeometry_management _ _ ?w0] =>
        destruct (gp_cases "RepairGeometry_management" [inFeats; "DELETE_NULL"]
          (λ ws, d ← ws !! inFeats; Some ((), <[inFeats:=repair_geometry d]> ws)) w0)
          as [(a & ws & Hrep & _ & _)|(e' & Hrep)];
          unfold RepairGeometry_management; rewrite Hrep
      end.
      2:{ eexists [_; _]. simpl. split; [done|]. split; [by rewrite <-app_assoc|].
          count_calls. }
      destruct (decide (counter + 1 = 11)) as [Hlast|Hmore].
      * match goal with |- context [CopyFeatures_management _ _ ?w0] =>
          destruct (gp_cases "CopyFeatures_management" [inFeats; outFeats]
            (λ ws, d ← ws !! inFeats; Some ((), <[outFeats:=d]> ws)) w0)
            as [(a' & ws' & Hcopy & _ & _)|(e' & Hcopy)];
            unfold CopyFeatures_management; rewrite Hcopy
        end.
        -- eexists [_; _; _]. unfold Helper.CleanFeatures_loop.
           destruct fuel; simpl; rewrite Hlast; simpl;
             (split; [done|]); (split; [by rewrite <-!app_assoc|]); count_calls.
        -- eexists [_; _; _]. simpl. split; [done|]. split; [by rewrite <-!app_assoc|].
           count_calls.
      * simpl.
        match goal with |- context [Helper.CleanFeatures_loop fuel _ _ _ ?w1] =>
          destruct (IH (counter + 1) w1)
            as (evs & Hnd & Hh & Hb1 & Hb2 & Hb3 & Hb4 & Hb5); [lia|lia|] end.
        eexists (_ :: _ :: evs). split; [done|]. split.
        { rewrite Hh. simpl. by rewrite <-!app_assoc. }
        rewrite !calls_cons. simpl.
        replace (Z.to_nat (11 - counter)) with (S (Z.to_nat (11 - (counter + 1)))) by lia.
        split_and!; lia.
  - exists []. rewrite app_nil_r. simpl. split; [done|]. split; [done|]. count_calls.
Qed.

(** X11. Whatever the engine does, [CleanFeatures] ends: it returns or raises
    after at most ten conversions, eleven repairs and one copy, and it
    calls no other tool. *)
Theorem CleanFeatures_bounded (inFeats outFeats : string) w :
  ∃ evs,
    (Helper.CleanFeatures inFeats outFeats w).1 ≠ Diverges
    ∧ history (Helper.CleanFeatures inFeats outFeats w).2 = history w ++ evs
    ∧ (calls "MultipartToSinglepart_management" evs ≤ 10)%nat
    ∧ (calls "RepairGeometry_management" evs ≤ 11)%nat
    ∧ (calls "CopyFeatures_management" evs ≤ 1)%nat
    ∧ (length evs
       = calls "MultipartToSinglepart_management" evs
         + calls "RepairGeometry_management" evs
         + calls "CopyFeatures_management" evs)%nat.
Proof.
  unfold Helper.CleanFeatures. rewrite !run_bind.
  destruct (gp_cases "RepairGeometry_management" [inFeats; "DELETE_NULL"]
    (λ ws, d ← ws !! inFeats; Some ((), <[inFeats:=repair_geometry d]> ws)) w)
    as [(a & ws & Hrep & _ & _)|(e' & Hrep)];
    unfold RepairGeometry_management at 1 2; rewrite Hrep.
  2:{ eexists [_]. simpl. split; [done|]. split; [done|]. count_calls. }
  destruct (CleanFeatures_loop_bounded inFeats outFeats Helper.loop_fuel 1
              (succeeded "RepairGeometry_management" [inFeats; "DELETE_NULL"] ws w))
    as (evs & Hnd & Hh & Hb1 & Hb2 & Hb3 & Hb4 & Hb5);
    [lia|unfold Helper.loop_fuel; lia|].
  exists (mkEvent "RepairGeometry_management" [inFeats; "DELETE_NULL"] None :: evs).
  rewrite !run_bind.
  destruct (Helper.CleanFeatures_loop Helper.loop_fuel inFeats outFeats 1 _)
    as [[c|e|] w2]; simpl in *.
  all: split; [done|]; split; [by rewrite Hh, <-app_assoc|].
  all: rewrite !calls_cons; simpl; change (Z.to_nat (11 - 1)) with 10%nat in *.
  all: split_and!; lia.
Qed.
End CleanFeaturesBounds.

(** ** What the cleaning functions leave alone *)

Section Untouched.
Context {D : Type} `{!VectorTools D}.
Implicit Types w : World D.

(** X12. [CleanFeatures] writes [inFeats] (the repair is in place) and
    [outFeats] and nothing else, and removes nothing, however it ends; when
    it returns, it returns [outFeats], [inFeats] was there from the start
    and [outFeats] is there. *)
Theorem CleanFeatures_touches_only (inFeats outFeats : string) w :
  (∀ p, p ≠ inFeats → p ≠ outFeats →
     workspace (Helper.CleanFeatures inFeats outFeats w).2 !! p = workspace w !! p)
  ∧ (∀ p, is_Some (workspace w !! p) →
       is_Some (workspace (Helper.CleanFeatures inFeats outFeats w).2 !! p))
  ∧ (∀ r, (Helper.CleanFeatures inFeats outFeats w).1 = Returns r →
       r = outFeats
       ∧ is_Some (workspace w !! inFeats)
       ∧ is_Some (workspace (Helper.CleanFeatures inFeats outFeats w).2 !! outFeats)).
Proof.
  destruct (CleanFeatures_writes_only inFeats outFeats w) as (_ & Hkeep & Hstay).
  split; [|split; [done|]].
  - intros p Hin Hout. apply Hkeep. set_solver.
  - intros r Hr.
    destruct (Helper.CleanFeatures inFeats outFeats w) as [o w'] eqn:Hrun.
    simpl in Hr. subst o.
    destruct (CleanFeatures_returns _ _ _ _ _ Hrun) as [-> Hout].
    split; [done|]. split; [|done].
    unfold Helper.CleanFeatures in Hrun.
    apply bind_returns in Hrun as (a & w1 & Hrep & _).
    apply gp_returns in Hrep as (ws & Hsem & _).
    destruct (workspace w !! inFeats); [eauto|done].
Qed.

(** Only the datasets at the paths [S] are changed; the fault plan stays
    as it is. *)
Definition changes_only (S : gset string) : relation (World D) := λ w w',
  faults w' = faults w ∧ ∀ p, p ∉ S → workspace w' !! p = workspace w !! p.

#[local] Instance changes_only_preorder S : PreOrder (changes_only S).
Proof.
  split.
  - by intros w.
  - intros w1 w2 w3 [Hf1 Hk1] [Hf2 Hk2]. split; [congruence|].
    intros p Hp. by rewrite Hk2, Hk1.
Qed.

Lemma changes_only_writes (S S' : gset string) {A} (m : Py (World D) A) :
  S ⊆ S' → keeps (writes_only S) m → keeps (changes_only S') m.
Proof.
  intros Hsub Hm w. destruct (Hm w) as (Hf & Hk & _). split; [done|].
  intros p Hp. apply Hk. set_solver.
Qed.

Lemma cleaned_changes_only (first : Py (World D) unit) (tmp outFeats scratchGDB : string) :
  keeps (writes_only {[tmp]}) first →
  keeps (changes_only {[tmp; outFeats]}) (cleaned first tmp outFeats scratchGDB).
Proof.
  intros Hfirst. unfold cleaned.
  apply keeps_bind; [apply _| |intros _].
  { eapply changes_only_writes; [|done]. set_solver. }
  apply keeps_bind; [apply _| |intros _].
  { eapply changes_only_writes; [|apply CleanFeatures_writes_only]. set_solver. }
  apply keeps_bind; [apply _| |intros _; by apply keeps_ret].
  case_decide; [|by apply keeps_ret].
  intros w. destruct (garbagePickup_frame [tmp] w) as [Hf Hrest]. split; [done|].
  intros p Hp. destruct (Hrest p) as [Hsame|[Hin _]]; [done|].
  apply list_elem_of_singleton in Hin. set_solver.
Qed.

(** X13. [CleanClip] and [CleanErase] change the temporary dataset and
    [outFeats] and nothing else, however they end: in particular the two
    inputs are as before when they are at other paths. *)
Theorem CleanClip_CleanErase_touch_only
    (inFeats otherFeats outFeats scratchGDB : string) w (p : string) :
  p ≠ outFeats →
  (p ≠ scratchGDB +:+ Helper.os_sep +:+ "tmpClip" →
   workspace (Helper.CleanClip inFeats otherFeats outFeats scratchGDB w).2 !! p
   = workspace w !! p)
  ∧ (p ≠ scratchGDB +:+ Helper.os_sep +:+ "tmpErased" →
     workspace (Helper.CleanErase inFeats otherFeats outFeats scratchGDB w).2 !! p
     = workspace w !! p).
Proof.
  intros Hout. split; intros Htmp.
  - refine (proj2 (cleaned_changes_only
             (Clip_analysis inFeats otherFeats (scratchGDB +:+ Helper.os_sep +:+ "tmpClip"))
             _ outFeats scratchGDB _ w) p _); [|set_solver].
    apply writes_only_gp. intros ws a ws' Hs.
    destruct (ws !! inFeats), (ws !! otherFeats); simplify_eq/=.
    apply insert_frame. set_solver.
  - refine (proj2 (cleaned_changes_only
             (Erase_analysis inFeats otherFeats
                (scratchGDB +:+ Helper.os_sep +:+ "tmpErased") EmptyString)
             _ outFeats scratchGDB _ w) p _); [|set_solver].
    apply writes_only_gp. intros ws a ws' Hs.
    destruct (ws !! inFeats), (ws !! otherFeats); simplify_eq/=.
    apply insert_frame. set_solver.
Qed.
End Untouched.

(** The inputs of a call in which every copy fails. *)
Lemma CleanClip_CleanErase_touch_only_witness :
  let w := Sample.session {["parcels" := Sample.parcels; "county" := Sample.county]}
             (Sample.fails_early "CopyFeatures_management" 40) in
  workspace (Helper.CleanClip "parcels" "county" "out" "in_memory" w).2 !! "parcels"
  = Some Sample.parcels
  ∧ workspace (Helper.CleanErase "parcels" "county" "out" "in_memory" w).2 !! "county"
    = Some Sample.county.
Proof.
  intros w.
  destruct (CleanClip_CleanErase_touch_only "parcels" "county" "out" "in_memory" w "parcels")
    as [Hclip _]; [discriminate|].
  destruct (CleanClip_CleanErase_touch_only "parcels" "county" "out" "in_memory" w "county")
    as [_ Herase]; [discriminate|].
  split; [rewrite Hclip|rewrite Herase]; reflexivity || discriminate.
Defined.

(** ** Helper.GetElapsedTime: any two times *)

Section ElapsedTimeAnyOrder.
Import Helper.

(** The four numbers, for any two times: hours, minutes and seconds are in
    range, and with the days they make up the whole seconds from [t1] to
    [t2], rounded down. *)
Lemma elapsed_parts_whole_seconds (t1 t2 : datetime) (d h m s : Z) :
  elapsed_parts t1 t2 = (d, h, m, s) →
  0 ≤ h < 24 ∧ 0 ≤ m < 60 ∧ 0 ≤ s < 60
  ∧ (instant t2 - instant t1) `div` 1000000 = ((d * 24 + h) * 60 + m) * 60 + s.
Proof.
  unfold elapsed_parts, datetime_sub, timedelta_new. simpl. intros [= <- <- <- <-].
  set (us := microsecond t2 - microsecond t1).
  set (secs := second t2 + minute t2 * 60 + hour t2 * 3600
               - (second t1 + minute t1 * 60 + hour t1 * 3600)).
  set (total := secs + us `div` 1000000).
  assert (Hwhole : (instant t2 - instant t1) `div` 1000000
                   = (ordinal t2 - ordinal t1) * 86400 + total).
  { unfold instant, total, secs, us.
    replace ((((ordinal t2 * 24 + hour t2) * 60 + minute t2) * 60 + second t2) * 1000000
             + microsecond t2
             - ((((ordinal t1 * 24 + hour t1) * 60 + minute t1) * 60 + second t1) * 1000000
                + microsecond t1))
      with (((ordinal t2 - ordinal t1) * 86400
             + (second t2 + minute t2 * 60 + hour t2 * 3600
                - (second t1 + minute t1 * 60 + hour t1 * 3600))) * 1000000
            + (microsecond t2 - microsecond t1)) by lia.
    rewrite Z.div_add_l by lia. lia. }
  pose proof (Z.div_mod total 86400 ltac:(lia)) as Hdm.
  pose proof (Z.mod_pos_bound total 86400 ltac:(lia)) as Hm.
  set (day := total `div` 86400) in *. set (rest := total `mod` 86400) in *.
  pose proof (Z.div_mod rest 60 ltac:(lia)) as Hdm1.
  pose proof (Z.mod_pos_bound rest 60 ltac:(lia)) as Hm1.
  set (mins := rest `div` 60) in *.
  pose proof (Z.div_mod mins 60 ltac:(lia)) as Hdm2.
  pose proof (Z.mod_pos_bound mins 60 ltac:(lia)) as Hm2.
  rewrite Hwhole. split_and!; lia.
Qed.

Lemma GetElapsedTime_string (t1 t2 : datetime) (d h m s : Z) :
  elapsed_parts t1 t2 = (d, h, m, s) →
  GetElapsedTime t1 t2
  = str d +:+ " days, " +:+ str h +:+ " hours, " +:+ str m +:+ " minutes, "
    +:+ str s +:+ " seconds".
Proof. unfold GetElapsedTime. by intros ->. Qed.

(** X14. [GetElapsedTime] does not ask that [t1] is the earlier time.  For any
    two times the hours, minutes and seconds it prints are in range, and
    with the days they make up the whole seconds from [t1] to [t2] rounded
    down; when [t2] is the earlier one it is the number of days that is
    negative, and only that number. *)
Theorem GetElapsedTime_any_order (t1 t2 : datetime) :
  ∃ d h m s : Z,
    GetElapsedTime t1 t2
    = str d +:+ " days, " +:+ str h +:+ " hours, " +:+ str m +:+ " minutes, "
      +:+ str s +:+ " seconds"
    ∧ 0 ≤ h < 24 ∧ 0 ≤ m < 60 ∧ 0 ≤ s < 60
    ∧ (instant t2 - instant t1) `div` 1000000
      = ((d * 24 + h) * 60 + m) * 60 + s
    ∧ (d < 0 ↔ instant t2 < instant t1).
Proof.
  destruct (elapsed_parts t1 t2) as [[[d h] m] s] eqn:Hparts.
  exists d, h, m, s. split; [by apply GetElapsedTime_string|].
  destruct (elapsed_parts_whole_seconds _ _ _ _ _ _ Hparts) as (Hh & Hm & Hs & Hsum).
  split; [done|]. split; [done|]. split; [done|]. split; [done|].
  pose proof (Z.div_mod (instant t2 - instant t1) 1000000 ltac:(lia)) as Hdm.
  pose proof (Z.mod_pos_bound (instant t2 - instant t1) 1000000 ltac:(lia)) as Hmod.
  lia.
Qed.

(** X15. Times less than a second apart give the same string as equal times:
    the fraction of a second is dropped. *)
Theorem GetElapsedTime_under_a_second (t1 t2 : datetime) :
  0 ≤ instant t2 - instant t1 < 1000000 →
  GetElapsedTime t1 t2 = "0 days, 0 hours, 0 minutes, 0 seconds".
Proof.
  intros Hclose.
  destruct (elapsed_parts t1 t2) as [[[d h] m] s] eqn:Hparts.
  rewrite (GetElapsedTime_string _ _ _ _ _ _ Hparts).
  destruct (elapsed_parts_whole_seconds _ _ _ _ _ _ Hparts) as (Hh & Hm & Hs & Hsum).
  rewrite Z.div_small in Hsum by done.
  assert (d = 0 ∧ h = 0 ∧ m = 0 ∧ s = 0) as (-> & -> & -> & ->) by lia.
  reflexivity.
Qed.
End ElapsedTimeAnyOrder.

(** From 23:59:59.25 to 0.999999 seconds later. *)
Lemma GetElapsedTime_under_a_second_witness :
  Helper.GetElapsedTime (Helper.mkDatetime 736654 23 59 59 250000)
                        (Helper.mkDatetime 736655 0 0 0 249999)
  = "0 days, 0 hours, 0 minutes, 0 seconds".
Proof.
  apply (GetElapsedTime_under_a_second (Helper.mkDatetime 736654 23 59 59 250000)
                                       (Helper.mkDatetime 736655 0 0 0 249999)).
  unfold instant. simpl. lia.
Defined.

(** One microsecond back in time. *)
Example GetElapsedTime_backwards :
  Helper.GetElapsedTime (Helper.mkDatetime 736655 0 0 0 0)
                        (Helper.mkDatetime 736654 23 59 59 999999)
  = "-1 days, 23 hours, 59 minutes, 59 seconds".
Proof. vm_compute. reflexivity. Qed.

(** ** Helper.tback: outside an exception handler *)

Section TbackEdge.
Context {D : Type}.
Implicit Types w : World D.

Lemma tback_message_list_run (e : Exn) (tb : traceback) w :
  ∃ msgList w',
    Helper.tback (Some (e, tb)) w = (Returns msgList, w')
    ∧ workspace w' = workspace w ∧ history w' = history w.
Proof.
  unfold Helper.tback.
  replace (format_tb (snd <$> Some (e, tb)) !! 0%nat) with (Some (first_entry tb))
    by (by destruct tb).
  unfold Helper.printErr, Helper.printMsg. py_unfold. by eexists _, _.
Qed.

(** X16. [tback] takes the first entry of the traceback of the exception
    being handled.  When no exception is being handled there is none:
    [tback] raises IndexError, and it does so before it reports anything,
    so the console and the standard output are as before.  With an
    exception being handled it returns.  In both cases it calls no tool
    and changes no dataset. *)
Theorem tback_needs_exception (exc_info : option (Exn * traceback)) w :
  ((Helper.tback exc_info w).1 = Raises (mkExn "IndexError" "list index out of range")
   ↔ exc_info = None)
  ∧ ((∃ msgList, (Helper.tback exc_info w).1 = Returns msgList) ↔ is_Some exc_info)
  ∧ (exc_info = None → (Helper.tback exc_info w).2 = w)
  ∧ workspace (Helper.tback exc_info w).2 = workspace w
  ∧ history (Helper.tback exc_info w).2 = history w.
Proof.
  destruct exc_info as [[e tb]|].
  - destruct (tback_message_list_run e tb w) as (msgList & w' & Hrun & Hws & Hh).
    rewrite Hrun. simpl. split; [split; done|]. split; [split; eauto|]. done.
  - simpl. split; [done|]. split; [|done]. split; [by intros [? ?]|by intros [? ?]].
Qed.
End TbackEdge.

(** * More of SelectTop.py *)

(** ** SelectTop.SelectTopAgr: the Spatial extension *)

Section Extension.
Context {D : Type}.
Implicit Types w : World D.

(** A call that checks an extension out or in. *)
Definition extension_call (ev : Event) : Prop :=
  ev_tool ev = "CheckOutExtension" ∨ ev_tool ev = "CheckInExtension".

Definition checked_out : Event := mkEvent "CheckOutExtension" ["Spatial"] None.
Definition checked_in : Event := mkEvent "CheckInExtension" ["Spatial"] None.

(** A block that ends and makes no extension call. *)
Definition leaves_extension {A} (m : Py (World D) A) : Prop :=
  ∀ w, ∃ evs,
    history (m w).2 = history w ++ evs
    ∧ (m w).1 ≠ Diverges
    ∧ Forall (λ ev, ¬ extension_call ev) evs.

(** A block that, when it returns, has checked the extension in with its
    last call and has made no other extension call, and when it raises,
    has not checked the extension in. *)
Definition checks_in {A} (m : Py (World D) A) : Prop :=
  ∀ w, ∃ evs,
    history (m w).2 = history w ++ evs
    ∧ match (m w).1 with
      | Returns _ =>
          ∃ mid, evs = mid ++ [checked_in] ∧ Forall (λ ev, ¬ extension_call ev) mid
      | Raises _ => checked_in ∉ evs
      | Diverges => False
      end.

Lemma leaves_silent {A} (m : Py (World D) A) :
  (∀ w, ∃ a, (m w).1 = Returns a ∧ history (m w).2 = history w) → leaves_extension m.
Proof.
  intros Hm w. destruct (Hm w) as (a & Hr & Hh). exists [].
  rewrite Hr, Hh, app_nil_r. done.
Qed.

Lemma leaves_ret {A} (a : A) : leaves_extension (mret a : Py (World D) A).
Proof. apply leaves_silent. intros w. by exists a. Qed.

Lemma leaves_printMsg msg : leaves_extension (Helper.printMsg (D:=D) msg).
Proof. apply leaves_silent. intros w. by exists tt. Qed.

Lemma leaves_set_env name value : leaves_extension (set_env (D:=D) name value).
Proof. apply leaves_silent. intros w. by exists tt. Qed.

Lemma leaves_get_env name : leaves_extension (get_env (D:=D) name).
Proof. apply leaves_silent. intros w. by eexists. Qed.

Lemma leaves_gp {A} tool args (sem : gmap string D → option (A * gmap string D)) :
  tool ≠ "CheckOutExtension" → tool ≠ "CheckInExtension" →
  leaves_extension (gp tool args sem).
Proof.
  intros Hout Hin w.
  destruct (gp_cases tool args sem w) as [(a & ws & -> & _)|(e & ->)]; simpl.
  all: eexists [_]; split; [done|]; split; [done|].
  all: apply Forall_singleton; intros [?|?]; done.
Qed.

Lemma leaves_gp_env {A} tool args
    (sem : gmap string (D + string) → gmap string D → option (A * gmap string D)) :
  tool ≠ "CheckOutExtension" → tool ≠ "CheckInExtension" →
  leaves_extension (gp_env tool args sem).
Proof. intros Hout Hin w. by apply leaves_gp. Qed.

Lemma checks_in_bind {A B} (m : Py (World D) A) (k : A → Py (World D) B) :
  leaves_extension m → (∀ a, checks_in (k a)) → checks_in (m ≫= k).
Proof.
  intros Hm Hk w. rewrite run_bind.
  destruct (Hm w) as (evs1 & Hh1 & Hnd & Hq).
  destruct (m w) as [[a|e|] w1]; simpl in *; [| |done].
  - destruct (Hk a w1) as (evs2 & Hh2 & Hend). exists (evs1 ++ evs2).
    split; [by rewrite Hh2, Hh1, app_assoc|].
    destruct (k a w1).1 as [b|e|]; [| |done].
    + destruct Hend as (mid & -> & Hmid). exists (evs1 ++ mid).
      split; [by rewrite app_assoc|]. by apply Forall_app.
    + rewrite elem_of_app. intros [Hin|Hin]; [|done].
      rewrite Forall_forall in Hq. apply (Hq _ Hin). by right.
  - exists evs1. split; [done|]. intros Hin.
    rewrite Forall_forall in Hq. apply (Hq _ Hin). by right.
Qed.

Lemma checks_in_last {A} msg (a : A) :
  checks_in (gp "CheckInExtension" ["Spatial"] (λ ws : gmap string D, Some (tt, ws))
             ≫= λ _, Helper.printMsg msg ≫= λ _, mret a).
Proof.
  intros w. rewrite run_bind.
  destruct (gp_cases "CheckInExtension" ["Spatial"]
              (λ ws : gmap string D, Some (tt, ws)) w) as [(x & ws & -> & _)|(e & ->)].
  - eexists [_]. split; [done|]. simpl. exists []. done.
  - eexists [_]. split; [done|]. simpl. by intros [=]%list_elem_of_singleton.
Qed.
End Extension.

Section SelectTopExtension.
Context `{Number} {G : Type}.
Context `{!GridTools G (gmap string (Dataset G + string))}.
Implicit Types (w : World (Dataset G)).

Lemma SelectTopAgr_checks_in (in_FarmAgrVal : string + gmap cell (option num))
    (in_ConsLands out_Polys out_Scratch : string) :
  ∃ body : Py (World (Dataset G)) string,
    SelectTop.SelectTopAgr in_FarmAgrVal in_ConsLands out_Polys out_Scratch
    = (CheckOutExtension "Spatial" ≫= λ _, body)
    ∧ checks_in body.
Proof.
  eexists. split; [reflexivity|].
  unfold CheckOutExtension, CheckInExtension, Raster_, save, GreaterThan,
    GreaterThanEqual, EqualTo, Con, Con_raster, IsNull, RegionGroup, ZonalGeometry,
    ZonalStatisticsAsTable, PolygonToRaster_conversion, RasterToPolygon_conversion,
    AddField_management, CalculateField_management, JoinField_management,
    Sort_management, Select_analysis.
  repeat lazymatch goal with
    | |- checks_in (gp "CheckInExtension" _ _ ≫= _) => apply checks_in_last
    | |- checks_in (_ ≫= _) =>
        apply checks_in_bind;
        [ lazymatch goal with
          | |- leaves_extension (Helper.printMsg _) => apply leaves_printMsg
          | |- leaves_extension (set_env _ _) => apply leaves_set_env
          | |- leaves_extension (get_env _) => apply leaves_get_env
          | |- leaves_extension (gp _ _ _) => apply leaves_gp; discriminate
          | |- leaves_extension (gp_env _ _ _) => apply leaves_gp_env; discriminate
          | |- leaves_extension (match ?x with _ => _ end) =>
              destruct x; [apply leaves_gp; discriminate|apply leaves_ret]
          end
        | intros ? ]
    end.
Qed.

(** X17. The Spatial extension is checked out by the first call of
    [SelectTopAgr].  A run that returns has checked it in with its last
    call, and has made no other extension call in between.  A run that
    raises has not checked it in: no statement of the function runs after
    a failure, so the extension stays checked out. *)
Theorem SelectTopAgr_extension (in_FarmAgrVal : string + gmap cell (option num))
    (in_ConsLands out_Polys out_Scratch : string) w :
  ∃ evs,
    history (SelectTop.SelectTopAgr in_FarmAgrVal in_ConsLands out_Polys out_Scratch w).2
    = history w ++ evs
    ∧ (SelectTop.SelectTopAgr in_FarmAgrVal in_ConsLands out_Polys out_Scratch w).1
      ≠ Diverges
    ∧ (∃ first, head evs = Some first ∧ ev_tool first = "CheckOutExtension")
    ∧ (∀ r, (SelectTop.SelectTopAgr in_FarmAgrVal in_ConsLands out_Polys out_Scratch w).1
            = Returns r →
         ∃ mid, evs = checked_out :: mid ++ [checked_in]
                ∧ Forall (λ ev, ¬ extension_call ev) mid)
    ∧ (∀ e, (SelectTop.SelectTopAgr in_FarmAgrVal in_ConsLands out_Polys out_Scratch w).1
            = Raises e →
         checked_in ∉ evs).
Proof.
  destruct (SelectTopAgr_checks_in in_FarmAgrVal in_ConsLands out_Polys out_Scratch)
    as (body & -> & Hbody).
  rewrite run_bind. unfold CheckOutExtension.
  destruct (gp_cases "CheckOutExtension" ["Spatial"]
              (λ ws : gmap string (Dataset G), Some (tt, ws)) w)
    as [(x & ws & -> & _)|(e & ->)].
  - destruct (Hbody (succeeded "CheckOutExtension" ["Spatial"] ws w))
      as (evs & Hh & Hend).
    exists (checked_out :: evs). split; [by rewrite Hh; simpl; rewrite <-app_assoc|].
    destruct (body _).1 as [r|e|]; [| |done].
    + destruct Hend as (mid & -> & Hmid).
      split; [done|]. split; [by eexists|]. split; [|done].
      intros r' _. by exists mid.
    + split; [done|]. split; [by eexists|]. split; [done|].
      intros e' _ [Hin|Hin]%elem_of_cons; done.
  - eexists [_]. split; [done|]. simpl. split; [done|]. split; [by eexists|].
    split; [done|]. by intros e' _ [=]%list_elem_of_singleton.
Qed.
End SelectTopExtension.

(** ** SelectTop.SelectTopAgr: what a run leaves behind *)

Section SelectTopLeaves.
Context `{Number} {G : Type}.
Context `{!GridTools G (gmap string (Dataset G + string))}.
Implicit Types (w : World (Dataset G)) (agr : gmap cell (option num)).

(** The path of a scratch product. *)
Definition scratch (out_Scratch name : string) : string :=
  out_Scratch +:+ Helper.os_sep +:+ name.

(** The paths of the eight scratch products of a run. *)
Definition scratch_products (out_Scratch : string) : list string :=
  scratch out_Scratch
  <$> ["farmRast"; "elimRast"; "regionRast"; "regionSize"; "regionSubset";
       "regionPolys"; "zonalTab"; "sortedPolys"].

(** What is at the paths of the scratch products, once a run has
    returned. *)
Definition left_behind (ws : gmap string (Dataset G)) (out_Scratch : string)
    agr (P : Products) : Prop :=
  ws !! scratch out_Scratch "farmRast" = Some (IntRaster (farmland agr))
  ∧ ws !! scratch out_Scratch "elimRast" = Some (IntRaster (elimRast P))
  ∧ ws !! scratch out_Scratch "regionRast" = Some (IntRaster (regionRast P))
  ∧ ws !! scratch out_Scratch "regionSize" = Some (FloatRaster (regionSize P))
  ∧ ws !! scratch out_Scratch "regionSubset" = Some (IntRaster (regionSubset P))
  ∧ (∃ zonal,
       ws !! scratch out_Scratch "zonalTab" = Some (ZonalTable zonal)
       ∧ ws !! scratch out_Scratch "regionPolys"
         = Some (Polygons (join_mean zonal <$> regionPolys P)))
  ∧ ws !! scratch out_Scratch "sortedPolys" = Some (Polygons (scored (sortedPolys P))).

Lemma not_scratch_product (p out_Scratch : string) :
  p ∉ scratch_products out_Scratch →
  p ≠ out_Scratch +:+ Helper.os_sep +:+ "farmRast"
  ∧ p ≠ out_Scratch +:+ Helper.os_sep +:+ "elimRast"
  ∧ p ≠ out_Scratch +:+ Helper.os_sep +:+ "regionRast"
  ∧ p ≠ out_Scratch +:+ Helper.os_sep +:+ "regionSize"
  ∧ p ≠ out_Scratch +:+ Helper.os_sep +:+ "regionSubset"
  ∧ p ≠ out_Scratch +:+ Helper.os_sep +:+ "regionPolys"
  ∧ p ≠ out_Scratch +:+ Helper.os_sep +:+ "zonalTab"
  ∧ p ≠ out_Scratch +:+ Helper.os_sep +:+ "sortedPolys".
Proof.
  unfold scratch_products, scratch. rewrite !fmap_cons, !not_elem_of_cons. tauto.
Qed.

Ltac other_path :=
  first
    [ assumption
    | apply not_eq_sym; assumption
    | by (let Heq := fresh in intros Heq; apply append_inj_r in Heq) ].

Ltac look_up :=
  repeat (rewrite lookup_insert_ne by other_path); rewrite ?lookup_insert_eq.

(** X18. When a run of [SelectTopAgr] has returned, and neither the
    conserved lands nor [out_Polys] is at the path of one of the eight
    scratch products, then each scratch product is at its path: the
    rasters of the farmland, of the conserved lands, of the regions, of
    their sizes and of the large regions, the table of zonal means, the
    region polygons with their MEAN, and the scored table.  The selected
    polygons are at [out_Polys].  When [out_Polys] is another path than
    the conserved lands, these are at their path with RASTVAL 1 in every
    row: the field is written into the input.  When it is the same path,
    the selected polygons have replaced them.  A dataset at any other path
    is as before, and no path that held a dataset has lost it. *)
Theorem SelectTopAgr_leaves_products (in_FarmAgrVal : string + gmap cell (option num))
    (in_ConsLands out_Polys out_Scratch : string) w (r : string) w' :
  SelectTop.SelectTopAgr in_FarmAgrVal in_ConsLands out_Polys out_Scratch w
  = (Returns r, w') →
  in_ConsLands ∉ scratch_products out_Scratch →
  out_Polys ∉ scratch_products out_Scratch →
  ∃ agr lands,
    raster_of w in_FarmAgrVal agr
    ∧ workspace w !! in_ConsLands = Some (Lands lands)
    ∧ left_behind (workspace w') out_Scratch agr (products (settings w agr) agr lands)
    ∧ workspace w' !! out_Polys
      = Some (Polygons (selected (scored (sortedPolys (products (settings w agr) agr lands)))))
    ∧ (in_ConsLands ≠ out_Polys →
       workspace w' !! in_ConsLands
       = Some (Lands ((λ row, set_RASTVAL row (Some 1)) <$> lands)))
    ∧ (∀ p, p ≠ in_ConsLands → p ≠ out_Polys → p ∉ scratch_products out_Scratch →
         workspace w' !! p = workspace w !! p)
    ∧ (∀ p, is_Some (workspace w !! p) → is_Some (workspace w' !! p)).
Proof.
  unfold SelectTop.SelectTopAgr, scratch.
  intros Hrun Hlands%not_scratch_product Hout%not_scratch_product.
  destruct Hlands as (? & ? & ? & ? & ? & ? & ? & ?).
  destruct Hout as (? & ? & ? & ? & ? & ? & ? & ?).
  unfold CheckOutExtension, CheckInExtension, Raster_, save, GreaterThan,
    GreaterThanEqual, EqualTo, Con, Con_raster, IsNull, RegionGroup, ZonalGeometry,
    ZonalStatisticsAsTable, PolygonToRaster_conversion, RasterToPolygon_conversion,
    AddField_management, CalculateField_management, JoinField_management,
    Sort_management, Select_analysis in Hrun.
  pose proof (eq_refl (workspace w)) as HW.
  pose proof (eq_refl (env w)) as HE.
  advance.
  destruct in_FarmAgrVal as [path|raster]; repeat advance.
  all: apply mret_returns in Hrun as [-> ->].
  all: subst.
  all: eexists _, _; split; [|split; [reflexivity|]].
  1,3: done.
  all: match goal with HW : workspace _ = _ |- _ => rewrite HW end.
  all: unfold left_behind, scratch.
  all: split; [split_and!; try (eexists; split); look_up; reflexivity|].
  all: split; [look_up; unfold selected; rewrite filter_bool_decide; reflexivity|].
  all: split; [intros Hne; look_up; reflexivity|].
  all: split.
  all: try (intros p Hp1 Hp2 Hp3%not_scratch_product;
            destruct Hp3 as (? & ? & ? & ? & ? & ? & ? & ?); look_up; reflexivity).
  all: intros p Hp; repeat (rewrite lookup_insert_is_Some'; right); exact Hp.
Qed.
End SelectTopLeaves.

(** ** SelectTop.SelectTopAgr: where the selection stops *)

(** When [P] is inherited from any element by the elements before it, the
    elements that satisfy [P] are the first ones, and they are all of
    them: the element after them does not satisfy [P]. *)
Lemma filter_longest_prefix {A} (P : A → Prop) `{∀ x, Decision (P x)} (l : list A) :
  (∀ (i j : nat) x y, (i ≤ j)%nat → l !! i = Some x → l !! j = Some y → P y → P x) →
  filter P l = take (length (filter P l)) l
  ∧ ∀ (i : nat) x, l !! i = Some x → ((i < length (filter P l))%nat ↔ P x).
Proof.
  induction l as [|x l IH]; intros Hdown; [done|].
  destruct (decide (P x)) as [HP|HP].
  - destruct IH as [Htake Hiff].
    { intros i j a b Hij Hi Hj. apply (Hdown (S i) (S j)); [lia|done..]. }
    rewrite filter_cons_True by done. simpl. split; [by rewrite <-Htake|].
    intros [|i] y Hy; simpl in Hy.
    + simplify_eq. split; [done|lia].
    + rewrite <-(Hiff i y Hy). lia.
  - rewrite filter_cons_False by done.
    assert (Hnone : ∀ (i : nat) y, (x :: l) !! i = Some y → ¬ P y).
    { intros i y Hy HPy. apply HP. by apply (Hdown 0%nat i x y); [lia|..]. }
    assert (Hnil : filter P l = []).
    { destruct (filter P l) as [|y rest] eqn:Hf; [done|].
      assert (Hy : y ∈ filter P l) by (rewrite Hf; apply list_elem_of_here).
      apply list_elem_of_filter in Hy as [HPy Hy].
      apply list_elem_of_lookup in Hy as [j Hj]. by destruct (Hnone (S j) y). }
    rewrite Hnil. simpl. split; [done|].
    intros i y Hy. split; [lia|]. intros HPy. by destruct (Hnone i y).
Qed.

Section Target.
Context `{ArithmeticLaws} {G : Type}.
Context `{!GridTools G (gmap string (Dataset G + string))}.
Implicit Types (w : World (Dataset G)) (rows : list PolyRow) (row : PolyRow).

(** X19. In a run of [SelectTopAgr] that returns, with any arithmetic that
    keeps the laws above, and when no polygon has a negative Shape_Area,
    [out_Polys] holds the longest initial part of the score-sorted table
    whose acreages add up to at most 500000: the running total is at most
    500000 for each of its [n] rows and for no later row.  When the first
    polygon alone is not within the target, nothing is selected. *)
Theorem SelectTopAgr_within_target (in_FarmAgrVal : string + gmap cell (option num))
    (in_ConsLands out_Polys out_Scratch : string) w (r : string) w' :
  SelectTop.SelectTopAgr in_FarmAgrVal in_ConsLands out_Polys out_Scratch w
  = (Returns r, w') →
  ∃ table (n : nat),
    score_table w in_FarmAgrVal in_ConsLands table
    ∧ ((∀ row, row ∈ table → leb (lit 0 0) (Shape_Area row)) →
       (n ≤ length table)%nat
       ∧ workspace w' !! out_Polys = Some (Polygons (take n table))
       ∧ (∀ (i : nat) row, table !! i = Some row →
            ((i < n)%nat ↔ leb (cumulative_acres table (S i)) (lit 500000 0) = true))).
Proof.
  intros Hrun.
  apply SelectTopAgr_table in Hrun as (table & Htable & -> & Hout).
  exists table, (length (selected table)). split; [done|].
  destruct Htable as (agr & lands & _ & _ & -> & _).
  set (ranked := sortedPolys (products (settings w agr) agr lands)) in *.
  intros Hpos.
  assert (Hranked : ∀ row, row ∈ ranked → leb (lit 0 0) (Shape_Area row)).
  { intros row Hrow. apply list_elem_of_lookup in Hrow as [i Hi].
    apply (Hpos (scored_row ranked i row)).
    eapply list_elem_of_lookup_2. by apply scored_lookup. }
  destruct (scored_prefix ranked Hranked) as (_ & Hzero & _).
  destruct (filter_longest_prefix (λ row, SELECTION row = Some 1) (scored ranked))
    as [Htake Hiff].
  { intros i j row row' Hij Hi Hj Hsel.
    destruct (scored_lookup_inv _ _ _ Hi) as (row0 & _ & Hrow).
    assert (Hcases : SELECTION row = Some 1 ∨ SELECTION row = Some 0).
    { rewrite Hrow. unfold scored_row, SelectTop.select. simpl. case_match; auto. }
    destruct Hcases as [?|Hz]; [done|].
    rewrite (Hzero _ _ _ _ Hij Hi Hj Hz) in Hsel. done. }
  fold (selected (scored ranked)) in Htake, Hiff.
  split; [|split].
  - unfold selected. rewrite length_filter. done.
  - by rewrite Hout, Htake at 1.
  - intros i row Hi. rewrite (Hiff i row Hi).
    apply scored_lookup_inv in Hi as (row0 & _ & ->).
    rewrite scored_cumulative. unfold scored_row, SelectTop.select. simpl.
    destruct (leb (cumulative_acres ranked (S i)) (lit 500000 0)); naive_solver.
Qed.
End Target.

(** ** The checks are sound *)

Section Connectivity.
Implicit Types (c : cell) (P : cell → Prop).

Lemma adjacent4_sym c c' : adjacent4 c c' → adjacent4 c' c.
Proof. unfold adjacent4. lia. Qed.

Lemma connected4_snoc P c c' c'' :
  connected4 P c c' → adjacent4 c' c'' → P c'' → connected4 P c c''.
Proof.
  induction 1 as [c HP|c c1 c2 HP Hadj _ IH]; intros Hstep HP''.
  - eapply connected4_step; [done..|]. by constructor.
  - eapply connected4_step; [done..|]. by apply IH.
Qed.

Lemma connected4_sym P c c' : connected4 P c c' → connected4 P c' c.
Proof.
  induction 1 as [c HP|c c1 c2 HP Hadj _ IH]; [by constructor|].
  eapply connected4_snoc; [done|by apply adjacent4_sym|done].
Qed.

Lemma connected4_trans P c c' c'' :
  connected4 P c c' → connected4 P c' c'' → connected4 P c c''.
Proof.
  induction 1 as [c HP|c c1 c2 HP Hadj _ IH]; [done|].
  intros H2. eapply connected4_step; [done..|]. by apply IH.
Qed.

Lemma reach_connected P (region : list cell) start (n : nat) : ∀ seen : list cell,
  (∀ c, c ∈ region → P c) →
  (∀ c, c ∈ seen → connected4 P start c) →
  ∀ c, c ∈ reach n region seen → connected4 P start c.
Proof.
  induction n as [|n IH]; intros seen Hregion Hseen; [done|].
  simpl. apply IH; [done|]. intros c Hc. unfold grow in Hc.
  apply elem_of_app in Hc as [Hc|Hc]; [by apply Hseen|].
  apply list_elem_of_filter in Hc as [Hex Hc].
  apply Exists_exists in Hex as (c' & Hc' & Hadj).
  eapply connected4_snoc; [by apply Hseen|done|by apply Hregion].
Qed.

Lemma elem_of_cells_of (r : Raster Z) (i : Z) c :
  c ∈ cells_of r i ↔ cellval r c = Some i.
Proof.
  unfold cells_of, cellval. rewrite list_elem_of_bind. split.
  - intros ([c' o] & Hc & Hin). apply elem_of_map_to_list in Hin. simpl in Hc.
    destruct (decide (o = Some i)) as [->|]; [|by apply not_elem_of_nil in Hc].
    apply list_elem_of_singleton in Hc as ->. by rewrite Hin.
  - intros Hc. destruct (r !! c) as [o|] eqn:Hrc; [|done]. simpl in Hc. subst o.
    exists (c, Some i). simpl. rewrite decide_True by done.
    split; [apply list_elem_of_here|by apply elem_of_map_to_list].
Qed.

Lemma grouped_check_sound (input regions : Raster Z) :
  grouped_check input regions = true → four_grouped input regions.
Proof.
  unfold grouped_check. rewrite forallb_forall. intros Hcheck.
  assert (Hcell : ∀ c (i : Z), cellval regions c = Some i →
            is_Some (cellval input c)
            ∧ ∀ start region, cells_of regions i = start :: region →
                connected4 (λ x, cellval regions x = Some i) start c).
  { intros c i Hc.
    assert (Hin : In (c, Some i) (map_to_list regions)).
    { apply list_elem_of_In, elem_of_map_to_list. unfold cellval in Hc.
      destruct (regions !! c) as [o|]; [|done]. simpl in Hc. by subst. }
    specialize (Hcheck _ Hin). simpl in Hcheck.
    apply andb_true_iff in Hcheck as [Hdata Hreach].
    split; [by apply bool_decide_eq_true in Hdata|].
    intros start region Hcells. rewrite Hcells in Hreach.
    apply bool_decide_eq_true in Hreach.
    assert (Hstart : cellval regions start = Some i).
    { apply elem_of_cells_of. rewrite Hcells. apply list_elem_of_here. }
    eapply (reach_connected _ (start :: region)); [| |done].
    - intros x Hx. apply elem_of_cells_of. by rewrite Hcells.
    - intros x ->%list_elem_of_singleton. by constructor. }
  split.
  - intros c i Hc. by destruct (Hcell c i Hc).
  - intros c c' i Hc Hc'.
    destruct (cells_of regions i) as [|start region] eqn:Hcells.
    { apply elem_of_cells_of in Hc. rewrite Hcells in Hc. by apply not_elem_of_nil in Hc. }
    apply connected4_trans with start.
    + apply connected4_sym. by eapply (proj2 (Hcell c i Hc)).
    + by eapply (proj2 (Hcell c' i Hc')).
Qed.

Lemma cover_check_sound `{Number} (raster : Raster Z) (rows : list PolyRow) :
  cover_check raster rows = true → polygons_cover raster rows.
Proof.
  unfold cover_check. rewrite forallb_forall. intros Hcheck row Hrow.
  apply list_elem_of_In, Hcheck, andb_true_iff in Hrow as [Hne Hcells].
  split; [by apply bool_decide_eq_true in Hne|].
  intros c Hc. rewrite forallb_forall in Hcells.
  eapply bool_decide_eq_true_1, Hcells, list_elem_of_In, elem_of_elements, Hc.
Qed.
End Connectivity.

(** ** The laws of the rational numbers *)

Lemma rational_laws : @ArithmeticLaws SampleGrid.rational.
Proof.
  split; simpl.
  - by vm_compute.
  - intros x _. apply Is_true_true, Qle_bool_iff, Qle_refl.
  - intros x y z Hxy%Is_true_true%Qle_bool_iff Hyz%Is_true_true%Qle_bool_iff.
    apply Is_true_true, Qle_bool_iff. by eapply Qle_trans.
  - intros x y _ Hy%Is_true_true%Qle_bool_iff.
    apply Is_true_true, Qle_bool_iff.
    rewrite <-(Qplus_0_r x) at 1. apply Qplus_le_r.
    eapply Qle_trans; [|done]. by vm_compute.
  - intros x Hx%Is_true_true%Qle_bool_iff.
    apply Is_true_true, Qle_bool_iff.
    assert (H0 : (0 <= x)%Q) by (eapply Qle_trans; [|done]; by vm_compute).
    eapply Qle_trans; [|apply Qmult_le_0_compat; [done|]]; by vm_compute.
Qed.

(** ** The laws of an arithmetic with infinities and NaN *)

Module Extended.

(** The rational numbers with the special values of floating-point
    numbers, and the sums, products and comparisons that IEEE 754 gives
    them: the sum of the two infinities and the product of 0 and an
    infinity are NaN, and every comparison with NaN is false. *)
Inductive extended : Type := Fin (q : Q) | PosInf | NegInf | NaN.

Definition ext_add (x y : extended) : extended :=
  match x, y with
  | NaN, _ | _, NaN => NaN
  | Fin a, Fin b => Fin (a + b)
  | PosInf, NegInf | NegInf, PosInf => NaN
  | PosInf, _ | _, PosInf => PosInf
  | NegInf, _ | _, NegInf => NegInf
  end.

(** The product of an infinity [inf] and the rational number [q];
    [opposite] is the other infinity. *)
Definition ext_scale (inf opposite : extended) (q : Q) : extended :=
  match (q ?= 0)%Q with
  | Gt => inf
  | Lt => opposite
  | Eq => NaN
  end.

Definition ext_mul (x y : extended) : extended :=
  match x, y with
  | NaN, _ | _, NaN => NaN
  | Fin a, Fin b => Fin (a * b)
  | PosInf, PosInf | NegInf, NegInf => PosInf
  | PosInf, NegInf | NegInf, PosInf => NegInf
  | PosInf, Fin q | Fin q, PosInf => ext_scale PosInf NegInf q
  | NegInf, Fin q | Fin q, NegInf => ext_scale NegInf PosInf q
  end.

Definition ext_leb (x y : extended) : bool :=
  match x, y with
  | NaN, _ | _, NaN => false
  | Fin a, Fin b => Qle_bool a b
  | NegInf, _ | _, PosInf => true
  | _, _ => false
  end.

Definition ext_ltb (x y : extended) : bool :=
  match x, y with
  | NaN, _ | _, NaN => false
  | Fin a, Fin b => negb (Qle_bool b a)
  | PosInf, _ | _, NegInf => false
  | _, _ => true
  end.

Definition extended_numbers : Number := {|
  num := extended;
  lit m e := Fin (inject_Z m * Qpower (inject_Z 10) e)%Q;
  add := ext_add;
  mul := ext_mul;
  leb := ext_leb;
  ltb := ext_ltb
|}.

End Extended.

(** The order of this arithmetic is not total and its sums and products
    are not always comparable with their operands. *)
Lemma extended_special_values :
  Extended.ext_leb Extended.NaN Extended.NaN = false
  ∧ Extended.ext_add Extended.NegInf Extended.PosInf = Extended.NaN
  ∧ Extended.ext_mul (Extended.Fin 0) Extended.PosInf = Extended.NaN.
Proof. split; [|split]; reflexivity. Qed.

(** The laws hold all the same. *)
Lemma extended_laws : @ArithmeticLaws Extended.extended_numbers.
Proof.
  split; simpl.
  - by vm_compute.
  - intros [q| | |] Hx; try done. apply Is_true_true, Qle_bool_iff, Qle_refl.
  - intros [a| | |] [b| | |] [c| | |] Hxy Hyz; try done. simpl in *.
    apply Is_true_true, Qle_bool_iff in Hxy. apply Is_true_true, Qle_bool_iff in Hyz.
    apply Is_true_true, Qle_bool_iff. by eapply Qle_trans.
  - intros [a| | |] [b| | |] Hx Hy; try done. simpl in *.
    apply Is_true_true, Qle_bool_iff in Hy. apply Is_true_true, Qle_bool_iff.
    rewrite <-(Qplus_0_r a) at 1. apply Qplus_le_r.
    eapply Qle_trans; [|done]. by vm_compute.
  - intros [a| | |] Hx; try done. simpl in *.
    apply Is_true_true, Qle_bool_iff in Hx. apply Is_true_true, Qle_bool_iff.
    assert (H0 : (0 <= a)%Q) by (eapply Qle_trans; [|done]; by vm_compute).
    eapply Qle_trans; [|apply Qmult_le_0_compat; [done|]]; by vm_compute.
Qed.

(** ** A run of SelectTopAgr on the sample grid *)

Lemma returns_pair {A W : Type} (r : Outcome A * W) (a : A) :
  r.1 = Returns a → r = (Returns a, r.2).
Proof. destruct r as [o w]. simpl. by intros ->. Qed.

Section SampleRun.
Import SampleGrid.
#[local] Existing Instance rational.
#[local] Existing Instance sample_grid_tools.
#[local] Existing Instance rational_laws.

Local Abbreviation sample_run :=
  (SelectTop.SelectTopAgr (inr agrValue) "lands" "TopAgr" "scratch.gdb" session).

Lemma sample_run_returns : sample_run = (Returns "TopAgr", sample_run.2).
Proof. apply returns_pair. vm_compute. reflexivity. Qed.

Lemma sample_lands lands :
  workspace session !! "lands" = Some (Lands lands) → lands = consLands.
Proof. intros Hlands. vm_compute in Hlands. by injection Hlands as <-. Qed.

Lemma sample_score_table table :
  score_table session (inr agrValue) "lands" table →
  table = scored (sortedPolys (products (settings session agrValue) agrValue consLands)).
Proof.
  intros (agr & lands & Hagr & Hlands & -> & _). unfold raster_of in Hagr. subst agr.
  by rewrite (sample_lands lands Hlands).
Qed.

Lemma sample_areas :
  ∀ row, row ∈ scored (sortedPolys (products (settings session agrValue) agrValue consLands)) →
    leb (lit 0 0) (Shape_Area row).
Proof.
  apply Forall_forall, (Forall_fmap Shape_Area (λ area : num, leb (lit 0 0) area)).
  vm_compute. repeat constructor.
Qed.

Local Abbreviation aliased_run :=
  (SelectTop.SelectTopAgr (inr agrValue) "lands" "lands" "scratch.gdb" session).

Lemma aliased_run_returns : aliased_run = (Returns "lands", aliased_run.2).
Proof. apply returns_pair. vm_compute. reflexivity. Qed.

(** The sample run, where the lands are at another path than [out_Polys],
    and a run that writes the selected polygons over the lands. *)
Lemma SelectTopAgr_leaves_products_witness :
  (∃ agr lands,
     raster_of session (inr agrValue) agr
     ∧ workspace session !! "lands" = Some (Lands lands)
     ∧ left_behind (workspace sample_run.2) "scratch.gdb" agr
         (products (settings session agr) agr lands)
     ∧ workspace sample_run.2 !! "TopAgr"
       = Some (Polygons (selected (scored (sortedPolys
                 (products (settings session agr) agr lands)))))
     ∧ ("lands" ≠ "TopAgr" →
        workspace sample_run.2 !! "lands"
        = Some (Lands ((λ row, set_RASTVAL row (Some 1)) <$> lands)))
     ∧ (∀ p, p ≠ "lands" → p ≠ "TopAgr" → p ∉ scratch_products "scratch.gdb" →
          workspace sample_run.2 !! p = workspace session !! p)
     ∧ (∀ p, is_Some (workspace session !! p) → is_Some (workspace sample_run.2 !! p)))
  ∧ (∃ agr lands,
       raster_of session (inr agrValue) agr
       ∧ workspace session !! "lands" = Some (Lands lands)
       ∧ left_behind (workspace aliased_run.2) "scratch.gdb" agr
           (products (settings session agr) agr lands)
       ∧ workspace aliased_run.2 !! "lands"
         = Some (Polygons (selected (scored (sortedPolys
                   (products (settings session agr) agr lands)))))
       ∧ ("lands" ≠ "lands" →
          workspace aliased_run.2 !! "lands"
          = Some (Lands ((λ row, set_RASTVAL row (Some 1)) <$> lands)))
       ∧ (∀ p, p ≠ "lands" → p ≠ "lands" → p ∉ scratch_products "scratch.gdb" →
            workspace aliased_run.2 !! p = workspace session !! p)
       ∧ (∀ p, is_Some (workspace session !! p) → is_Some (workspace aliased_run.2 !! p))).
Proof.
  split.
  - apply (SelectTopAgr_leaves_products (inr agrValue) "lands" "TopAgr" "scratch.gdb"
             session "TopAgr" sample_run.2 sample_run_returns).
    + apply (bool_decide_unpack _). vm_compute. exact I.
    + apply (bool_decide_unpack _). vm_compute. exact I.
  - apply (SelectTopAgr_leaves_products (inr agrValue) "lands" "lands" "scratch.gdb"
             session "lands" aliased_run.2 aliased_run_returns).
    + apply (bool_decide_unpack _). vm_compute. exact I.
    + apply (bool_decide_unpack _). vm_compute. exact I.
Defined.

(** The sample run: no area is negative. *)
Lemma SelectTopAgr_within_target_witness :
  ∃ table (n : nat),
    score_table session (inr agrValue) "lands" table
    ∧ (n ≤ length table)%nat
    ∧ workspace sample_run.2 !! "TopAgr" = Some (Polygons (take n table)).
Proof.
  destruct (SelectTopAgr_within_target (inr agrValue) "lands" "TopAgr" "scratch.gdb"
              session "TopAgr" sample_run.2 sample_run_returns)
    as (table & n & Htable & Htarget).
  destruct Htarget as (Hn & Hout & _).
  - rewrite (sample_score_table table Htable). exact sample_areas.
  - exists table, n. split; [exact Htable|]. split; [exact Hn|exact Hout].
Defined.

(** The sample run writes the rows of its table that have SELECTION 1. *)
Lemma SelectTopAgr_selects_witness :
  ∃ table,
    score_table session (inr agrValue) "lands" table
    ∧ workspace sample_run.2 !! "TopAgr"
      = Some (Polygons (filter (λ row, SELECTION row = Some 1) table)).
Proof.
  destruct (SelectTopAgr_selects (inr agrValue) "lands" "TopAgr" "scratch.gdb"
              session "TopAgr" sample_run.2 sample_run_returns)
    as (table & Htable & _ & _ & _ & Hout).
  exists table. split; [exact Htable|exact Hout].
Defined.

(** In the sample run the selected polygons are the first rows of the
    table. *)
Lemma SelectTopAgr_selects_prefix_witness :
  ∃ table (n : nat),
    score_table session (inr agrValue) "lands" table
    ∧ workspace sample_run.2 !! "TopAgr" = Some (Polygons (selected table))
    ∧ selected table = take n table.
Proof.
  destruct (SelectTopAgr_selects_prefix (inr agrValue) "lands" "TopAgr" "scratch.gdb"
              session "TopAgr" sample_run.2 sample_run_returns)
    as (table & Htable & Hout & Hprefix).
  destruct Hprefix as (_ & _ & n & Hn).
  - rewrite (sample_score_table table Htable). exact sample_areas.
  - exists table, n. split; [exact Htable|]. split; [exact Hout|exact Hn].
Defined.

(** In the sample run RegionGroup and RasterToPolygon pass the checks, and
    the polygons written come from farm regions. *)
Lemma SelectTopAgr_polygons_witness :
  ∃ rows,
    workspace sample_run.2 !! "TopAgr" = Some (Polygons rows)
    ∧ ∀ row, row ∈ rows →
        from_farm_region agrValue
          (products (settings session agrValue) agrValue consLands) row.
Proof.
  destruct (SelectTopAgr_polygons (inr agrValue) "lands" "TopAgr" "scratch.gdb"
              session "TopAgr" sample_run.2 sample_run_returns)
    as (agr & lands & rows & Hagr & Hlands & Hout & Hfrom).
  unfold raster_of in Hagr. subst agr. rewrite (sample_lands lands Hlands) in Hfrom.
  exists rows. split; [exact Hout|]. apply Hfrom.
  - apply grouped_check_sound. vm_compute. reflexivity.
  - apply cover_check_sound. vm_compute. reflexivity.
Defined.

End SampleRun.
